(** * CCompoundSplineTrack: a compound keyframe track over scalar sub-tracks

    Shallow embedding of
    [dev/Gems/Maestro/Code/Source/Cinematics/CompoundSplineTrack.cpp].

    Conventions of the embedding.
    - A C++ [float] is the rational it denotes ([Q]); NaN and the infinities
      are not represented.  Where the code computes on floats and the result
      decides a branch or is the result of the function
      ([PreferShortestRotPath], the epsilon test of [SelectKey]), every
      operation rounds to the nearest binary32 number, ties to even
      ([round32]), as IEEE 754 arithmetic does below the overflow threshold.
      The sums and products of [OffsetKeyPosition] and of the parent rebase,
      which only flow into stored values, are the exact ones.  [FLT_MAX] is
      kept as a constant.  Float [==] is [Qeq_bool], [<] is [Qltb].
      [PreferShortestRotPath] is rendered a second time on the bit-level
      floats of the standard library, for comparison on examples.
    - C++ [int] key indices and key counts are [Z]; the counts of a track are
      lengths of key lists, far below 2^31, so no wrap-around is written.
    - [assert]/[AZ_Assert] compile to nothing in release builds and are
      modelled as no-ops; the code after them is modelled as written.
    - The scalar sub-track ([C2DSplineTrack], behind [IAnimTrack]), the
      transform library ([AZ::Transform], [AzFramework]) and the quaternion
      helpers (CryMath) are collaborators whose code is not part of the
      translated file; they are modelled from the specification or taken as
      type-class parameters, each marked where it is declared. *)

From Stdlib Require Import String ZArith QArith Qabs Qround Qpower List Bool Lia Lqa.
From Stdlib Require Import Field Qfield SetoidList SpecFloat.
Import ListNotations.

Local Open Scope Z_scope.
Local Open Scope Q_scope.

(** ** Floats *)

Module Float.

(** [a < b] on floats. *)
Definition Qltb (a b : Q) : bool := negb (Qle_bool b a).

(** [FLT_MAX] = (2 - 2^-23) * 2^127 = (2^24 - 1) * 2^104. *)
Definition FLT_MAX : Q := inject_Z ((2 ^ 24 - 1) * 2 ^ 104).

Definition fabs (x : Q) : Q := Qabs x.

(** Integer part of a quotient, rounded toward zero. *)
Definition truncate (x : Q) : Z := Z.quot (Qnum x) (Z.pos (Qden x)).

(** Modelled from the spec: [fmod_tpl] (CryCommon, not in the translated
    file) is the C [fmod]: the remainder [x - n * y] with [n] the quotient
    [x / y] rounded toward zero, so the result carries the sign of [x]. *)
Definition fmod_tpl (x y : Q) : Q := x - inject_Z (truncate (x / y)) * y.

(** *** Rounding to binary32

    A binary32 number is [m * 2^e] with [|m| < 2^24] and [-149 <= e <= 104].
    [round32 x] is the one nearest to [x], ties to the even [m]: the quantum
    [2^e] of [x] is 23 binary places below its leading bit, and never below
    [2^-149] (the subnormal numbers).  Overflow is not represented: a result
    beyond [FLT_MAX] is rounded as if the exponent range went on. *)

Definition pow2 (e : Z) : Q := 2 ^ e.

(** Position of the leading bit: [2^(ilog2 x) <= |x| < 2^(ilog2 x + 1)] for
    [x] other than 0. *)
Definition ilog2 (x : Q) : Z :=
  let k := (Z.log2 (Z.abs (Qnum x)) - Z.log2 (Z.pos (Qden x)))%Z in
  if Qle_bool (pow2 k) (Qabs x) then k else (k - 1)%Z.

Definition quantum (x : Q) : Z := Z.max (ilog2 x - 23) (-149).

(** The nearest integer, a tie going to the even one. *)
Definition nearestEven (x : Q) : Z :=
  let f := Qfloor x in
  match ((x - inject_Z f) ?= (1 # 2))%Q with
  | Lt => f
  | Gt => (f + 1)%Z
  | Eq => if Z.even f then f else (f + 1)%Z
  end.

Definition round32 (x : Q) : Q :=
  if Qeq_bool x 0 then 0
  else inject_Z (nearestEven (x / pow2 (quantum x))) * pow2 (quantum x).

(** The float operations [+], [-], [*], [/]. *)
Definition fadd (a b : Q) : Q := round32 (a + b).
Definition fsub (a b : Q) : Q := round32 (a - b).
Definition fmul (a b : Q) : Q := round32 (a * b).
Definition fdiv (a b : Q) : Q := round32 (a / b).

End Float.
Import Float.

(** ** Keys and scalar sub-tracks *)

Record IKey : Type := mkKey {
  keyTime : Q;
  keyValue : Q;
  keySelected : bool
}.

Definition withValue (k : IKey) (v : Q) : IKey :=
  mkKey (keyTime k) v (keySelected k).
Definition withTime (k : IKey) (t : Q) : IKey :=
  mkKey t (keyValue k) (keySelected k).
Definition withSelected (k : IKey) (s : bool) : IKey :=
  mkKey (keyTime k) (keyValue k) s.

(** The parts of a scalar sub-track that the specification leaves to the
    collaborator: how a value is produced at a time that carries no key, what
    a write flagged [isDefault] does, and what [applyMultiplier] does to a
    value on the way out and on the way in. *)
Class SplineInternals : Type := {
  interpolate : list IKey -> Q -> Q;
  setDefaultValue : list IKey -> Q -> Q -> bool -> list IKey;
  multiplierOnRead : Q -> Q;
  multiplierOnWrite : Q -> Q
}.

Module SubTrack.

(** Modelled from the spec: the scalar sub-track ([C2DSplineTrack], reached
    through [IAnimTrack]) is not part of the translated file.  It is an
    ordered sequence of keys; keys are addressed by local index for count,
    time, selection and removal, and by exact time for values. *)
Definition t : Type := list IKey.

Definition GetNumKeys (st : t) : Z := Z.of_nat (length st).

Definition keyAt (st : t) (k : Z) : option IKey :=
  if (k <? 0)%Z then None else nth_error st (Z.to_nat k).

Fixpoint alterNth (f : IKey -> IKey) (st : t) (n : nat) : t :=
  match st, n with
  | [], _ => []
  | x :: r, O => f x :: r
  | x :: r, S n' => x :: alterNth f r n'
  end.

Definition alterKey (f : IKey -> IKey) (st : t) (k : Z) : t :=
  if (k <? 0)%Z then st else alterNth f st (Z.to_nat k).

Fixpoint removeNth (st : t) (n : nat) : t :=
  match st, n with
  | [], _ => []
  | _ :: r, O => r
  | x :: r, S n' => x :: removeNth r n'
  end.

Definition GetKeyTime (st : t) (k : Z) : Q :=
  match keyAt st k with Some x => keyTime x | None => 0 end.

Definition SetKeyTime (st : t) (k : Z) (time : Q) : t :=
  alterKey (fun x => withTime x time) st k.

Definition IsKeySelected (st : t) (k : Z) : bool :=
  match keyAt st k with Some x => keySelected x | None => false end.

Definition SelectKey (st : t) (k : Z) (select : bool) : t :=
  alterKey (fun x => withSelected x select) st k.

Definition RemoveKey (st : t) (k : Z) : t :=
  if (k <? 0)%Z then st else removeNth st (Z.to_nat k).

(** The first key stored at exactly [time]. *)
Fixpoint findKeyAt (st : t) (time : Q) : option IKey :=
  match st with
  | [] => None
  | x :: r => if Qeq_bool (keyTime x) time then Some x else findKeyAt r time
  end.

(** Overwrite the value of the first key stored at exactly [time]. *)
Fixpoint overwriteAt (st : t) (time v : Q) : t :=
  match st with
  | [] => []
  | x :: r =>
      if Qeq_bool (keyTime x) time then withValue x v :: r
      else x :: overwriteAt r time v
  end.

(** Create an unselected key, keeping the keys in ascending time order. *)
Fixpoint createKey (st : t) (time v : Q) : t :=
  match st with
  | [] => [mkKey time v false]
  | x :: r =>
      if Qltb time (keyTime x) then mkKey time v false :: x :: r
      else x :: createKey r time v
  end.

(** Write-through: the key at [time] takes the value, and a key is created
    there if none existed. *)
Definition writeKey (st : t) (time v : Q) : t :=
  match findKeyAt st time with
  | Some _ => overwriteAt st time v
  | None => createKey st time v
  end.

Section WithInternals.
Context {spline : SplineInternals}.

Definition GetValue (st : t) (time : Q) (applyMultiplier : bool) : Q :=
  let v := match findKeyAt st time with
           | Some x => keyValue x
           | None => interpolate st time
           end in
  if applyMultiplier then multiplierOnRead v else v.

Definition SetValue (st : t) (time v : Q) (bDefault applyMultiplier : bool) : t :=
  if bDefault then setDefaultValue st time v applyMultiplier
  else writeKey st time (if applyMultiplier then multiplierOnWrite v else v).
End WithInternals.

End SubTrack.

(** ** Value types *)

Record Vec3 : Type := mkVec3 { vx : Q; vy : Q; vz : Q }.
Record Vec4 : Type := mkVec4 { v4x : Q; v4y : Q; v4z : Q; v4w : Q }.
Record Quat : Type := mkQuat { qv : Vec3; qw : Q }.

Definition Vec3_get (v : Vec3) (i : Z) : Q :=
  if (i =? 0)%Z then vx v else if (i =? 1)%Z then vy v else vz v.
Definition Vec3_set (v : Vec3) (i : Z) (a : Q) : Vec3 :=
  if (i =? 0)%Z then mkVec3 a (vy v) (vz v)
  else if (i =? 1)%Z then mkVec3 (vx v) a (vz v)
  else if (i =? 2)%Z then mkVec3 (vx v) (vy v) a
  else v.
Definition Vec4_get (v : Vec4) (i : Z) : Q :=
  if (i =? 0)%Z then v4x v else if (i =? 1)%Z then v4y v
  else if (i =? 2)%Z then v4z v else v4w v.
Definition Vec4_set (v : Vec4) (i : Z) (a : Q) : Vec4 :=
  if (i =? 0)%Z then mkVec4 a (v4y v) (v4z v) (v4w v)
  else if (i =? 1)%Z then mkVec4 (v4x v) a (v4z v) (v4w v)
  else if (i =? 2)%Z then mkVec4 (v4x v) (v4y v) a (v4w v)
  else if (i =? 3)%Z then mkVec4 (v4x v) (v4y v) (v4z v) a
  else v.

Definition Vec3_add (a b : Vec3) : Vec3 :=
  mkVec3 (vx a + vx b) (vy a + vy b) (vz a + vz b).
Definition Vec3_sub (a b : Vec3) : Vec3 :=
  mkVec3 (vx a - vx b) (vy a - vy b) (vz a - vz b).
Definition Vec3_mul (a b : Vec3) : Vec3 :=
  mkVec3 (vx a * vx b) (vy a * vy b) (vz a * vz b).
Definition Vec3_eq (a b : Vec3) : Prop :=
  vx a == vx b /\ vy a == vy b /\ vz a == vz b.

(** [Quat::SetIdentity]: zero vector part, unit scalar part. *)
Definition Quat_identity : Quat := mkQuat (mkVec3 0 0 0) 1.

(** The quaternion helpers of CryMath used by the quaternion call shapes;
    angles are a [Vec3] of the three Euler angles. *)
Class CryMath : Type := {
  CreateRotationXYZ : Vec3 -> Quat;
  GetAnglesXYZ : Quat -> Vec3;
  DEG2RAD : Q -> Q;
  RAD2DEG : Q -> Q
}.

(** The transform library used by the parent rebase. *)
Class AzTransform : Type := {
  Transform : Type;
  transformPoint : Transform -> Vec3 -> Vec3;
  InvertFull : Transform -> Transform;
  ConvertTransformToEulerDegrees : Transform -> Vec3;
  RetrieveScaleExact : Transform -> Vec3
}.

(** ** The compound track *)

Inductive AnimParamType : Type :=
  | Position | Rotation | Scale | Invalid | OtherParam (id : Z).

Inductive AnimValueType : Type :=
  | Float | Vector | QuatValue | RGB | Vector4 | OtherValue (id : Z).

(** [m_subTracks] keeps the [m_nDimensions] live slots of the four-slot
    array: the slots from [m_nDimensions] on hold null pointers that no
    method below dereferences. *)
Record CCompoundSplineTrack : Type := mkTrack {
  m_nParamType : AnimParamType;
  m_valueType : AnimValueType;
  m_subTracks : list SubTrack.t;
  m_subTrackNames : list string;
  m_flags : Z
}.

Definition m_nDimensions (c : CCompoundSplineTrack) : Z :=
  Z.of_nat (length (m_subTracks c)).

Definition withSubTracks (c : CCompoundSplineTrack) (sts : list SubTrack.t)
  : CCompoundSplineTrack :=
  mkTrack (m_nParamType c) (m_valueType c) sts (m_subTrackNames c) (m_flags c).

(** [m_subTracks[i]], for an index delivered by the code. *)
Definition subTrackAt (c : CCompoundSplineTrack) (i : Z) : option SubTrack.t :=
  if (i <? 0)%Z then None else nth_error (m_subTracks c) (Z.to_nat i).

Fixpoint alterSubTrack (f : SubTrack.t -> SubTrack.t) (sts : list SubTrack.t)
  (n : nat) : list SubTrack.t :=
  match sts, n with
  | [], _ => []
  | st :: r, O => f st :: r
  | st :: r, S n' => st :: alterSubTrack f r n'
  end.

(** [m_subTracks[i]->method(...)] for a mutating method. *)
Definition onSubTrack (c : CCompoundSplineTrack) (i : Z)
  (f : SubTrack.t -> SubTrack.t) : CCompoundSplineTrack :=
  if (i <? 0)%Z then c
  else withSubTracks c (alterSubTrack f (m_subTracks c) (Z.to_nat i)).

(** *** Key counts and index translation *)

Definition GetNumKeys (c : CCompoundSplineTrack) : Z :=
  fold_left (fun nKeys st => (nKeys + SubTrack.GetNumKeys st)%Z) (m_subTracks c) 0%Z.

Definition HasKeys (c : CCompoundSplineTrack) : bool :=
  existsb (fun st => negb (SubTrack.GetNumKeys st =? 0)%Z) (m_subTracks c).

(** The loop of [GetSubTrackIndex] from sub-track [i] on, [count] keys being
    behind it.  The result pairs the returned sub-track index with the value
    left in the in/out parameter [key]. *)
Fixpoint GetSubTrackIndex_from (sts : list SubTrack.t) (i count key : Z) : Z * Z :=
  match sts with
  | [] => ((-1)%Z, key)
  | st :: r =>
      if (key <? count + SubTrack.GetNumKeys st)%Z then (i, (key - count)%Z)
      else GetSubTrackIndex_from r (i + 1)%Z (count + SubTrack.GetNumKeys st)%Z key
  end.

Definition GetSubTrackIndex (c : CCompoundSplineTrack) (key : Z) : Z * Z :=
  GetSubTrackIndex_from (m_subTracks c) 0%Z 0%Z key.

Definition RemoveKey (c : CCompoundSplineTrack) (num : Z) : CCompoundSplineTrack :=
  let '(i, num) := GetSubTrackIndex c num in
  if (i <? 0)%Z then c
  else onSubTrack c i (fun st => SubTrack.RemoveKey st num).

Definition GetKeyTime (c : CCompoundSplineTrack) (index : Z) : Q :=
  let '(i, index) := GetSubTrackIndex c index in
  if (i <? 0)%Z then 0
  else match subTrackAt c i with
       | Some st => SubTrack.GetKeyTime st index
       | None => 0
       end.

Definition SetKeyTime (c : CCompoundSplineTrack) (index : Z) (time : Q)
  : CCompoundSplineTrack :=
  let '(i, index) := GetSubTrackIndex c index in
  if (i <? 0)%Z then c
  else onSubTrack c i (fun st => SubTrack.SetKeyTime st index time).

Definition IsKeySelected (c : CCompoundSplineTrack) (key : Z) : bool :=
  let '(i, key) := GetSubTrackIndex c key in
  if (i <? 0)%Z then false
  else match subTrackAt c i with
       | Some st => SubTrack.IsKeySelected st key
       | None => false
       end.

(** [const float timeEpsilon = 0.001f]: the binary32 number nearest to
    1/1000, which is 8589935 * 2^-33. *)
Definition timeEpsilon : Q := 8589935 # 8589934592.

(** The local indices [0 .. GetNumKeys - 1] of a sub-track, as a loop
    [for (int k = 0; k < GetNumKeys(); k++)] runs through them. *)
Definition keyIndices (st : SubTrack.t) : list Z :=
  map Z.of_nat (seq 0 (length st)).

(** The inner loop of [SelectKey] on one sub-track, over the local indices
    [ms] still to visit: the first key whose time is within [timeEpsilon] of
    [keyTime] takes the flag, and the loop breaks. *)
Fixpoint selectFirstNear (st : SubTrack.t) (keyTime : Q) (select : bool)
  (ms : list Z) : SubTrack.t :=
  match ms with
  | [] => st
  | m :: r =>
      if Qltb (fabs (fsub (SubTrack.GetKeyTime st m) keyTime)) timeEpsilon
      then SubTrack.SelectKey st m select
      else selectFirstNear st keyTime select r
  end.

Definition SelectKey (c : CCompoundSplineTrack) (key : Z) (select : bool)
  : CCompoundSplineTrack :=
  let '(i, key) := GetSubTrackIndex c key in
  if (i <? 0)%Z then c
  else match subTrackAt c i with
       | None => c
       | Some st =>
           let keyTime := SubTrack.GetKeyTime st key in
           withSubTracks c
             (map (fun sk => selectFirstNear sk keyTime select (keyIndices sk))
                  (m_subTracks c))
       end.

(** The inner loop of [NextKeyByTime] on one sub-track, over the local
    indices [ks] still to visit: the first key later than [time], with its
    time; the loop breaks there. *)
Fixpoint firstLater (st : SubTrack.t) (time : Q) (ks : list Z) : option (Z * Q) :=
  match ks with
  | [] => None
  | k :: r =>
      let t := SubTrack.GetKeyTime st k in
      if Qltb time t then Some (k, t) else firstLater st time r
  end.

(** The outer loop of [NextKeyByTime], its state being [count], [result] and
    [timeNext]. *)
Fixpoint NextKeyByTime_from (sts : list SubTrack.t) (time : Q)
  (count result : Z) (timeNext : Q) : Z :=
  match sts with
  | [] => result
  | st :: r =>
      let '(result, timeNext) :=
        match firstLater st time (keyIndices st) with
        | Some (k, t) =>
            if Qltb t timeNext then ((count + k)%Z, t) else (result, timeNext)
        | None => (result, timeNext)
        end in
      NextKeyByTime_from r time (count + SubTrack.GetNumKeys st)%Z result timeNext
  end.

Definition NextKeyByTime (c : CCompoundSplineTrack) (key : Z) : Z :=
  let time := GetKeyTime c key in
  NextKeyByTime_from (m_subTracks c) time 0%Z (-1)%Z FLT_MAX.

(** *** Rotation continuity *)

(** Every operation is the float one; [fmod_tpl] is exact, as the C [fmod]
    is. *)
Definition PreferShortestRotPath (degree degree0 : Q) : Q :=
  let degree00 := degree0 in
  let degree0 := fmod_tpl degree0 360 in
  let n := fdiv (fsub degree00 degree0) 360 in
  let degreeAlt := if Qle_bool 0 degree then fsub degree 360 else fadd degree 360 in
  if Qltb (fabs (fsub degreeAlt degree0)) (fabs (fsub degree degree0))
  then fadd degreeAlt (fmul n 360)
  else fadd degree (fmul n 360).

(** *** Values *)

Section Values.
Context {spline : SplineInternals}.

Definition GetValue_float (c : CCompoundSplineTrack) (time value : Q)
  (applyMultiplier : bool) : Q :=
  match m_subTracks c with
  | st :: _ => SubTrack.GetValue st time applyMultiplier
  | [] => value
  end.

Fixpoint GetValue_Vec3_from (sts : list SubTrack.t) (i : Z) (time : Q)
  (value : Vec3) (applyMultiplier : bool) : Vec3 :=
  match sts with
  | [] => value
  | st :: r =>
      GetValue_Vec3_from r (i + 1)%Z time
        (Vec3_set value i (SubTrack.GetValue st time applyMultiplier))
        applyMultiplier
  end.

Definition GetValue_Vec3 (c : CCompoundSplineTrack) (time : Q) (value : Vec3)
  (applyMultiplier : bool) : Vec3 :=
  GetValue_Vec3_from (m_subTracks c) 0%Z time value applyMultiplier.

Fixpoint GetValue_Vec4_from (sts : list SubTrack.t) (i : Z) (time : Q)
  (value : Vec4) (applyMultiplier : bool) : Vec4 :=
  match sts with
  | [] => value
  | st :: r =>
      GetValue_Vec4_from r (i + 1)%Z time
        (Vec4_set value i (SubTrack.GetValue st time applyMultiplier))
        applyMultiplier
  end.

Definition GetValue_Vec4 (c : CCompoundSplineTrack) (time : Q) (value : Vec4)
  (applyMultiplier : bool) : Vec4 :=
  GetValue_Vec4_from (m_subTracks c) 0%Z time value applyMultiplier.

Definition SetValue_float (c : CCompoundSplineTrack) (time value : Q)
  (bDefault applyMultiplier : bool) : CCompoundSplineTrack :=
  withSubTracks c
    (map (fun st => SubTrack.SetValue st time value bDefault applyMultiplier)
         (m_subTracks c)).

(** [m_subTracks[i]->SetValue(time, value[i], ...)] for [i] from the given
    index on. *)
Fixpoint SetValue_components (sts : list SubTrack.t) (i : Z) (component : Z -> Q)
  (time : Q) (bDefault applyMultiplier : bool) : list SubTrack.t :=
  match sts with
  | [] => []
  | st :: r =>
      SubTrack.SetValue st time (component i) bDefault applyMultiplier
      :: SetValue_components r (i + 1)%Z component time bDefault applyMultiplier
  end.

Definition SetValue_Vec3 (c : CCompoundSplineTrack) (time : Q) (value : Vec3)
  (bDefault applyMultiplier : bool) : CCompoundSplineTrack :=
  withSubTracks c
    (SetValue_components (m_subTracks c) 0%Z (Vec3_get value) time
       bDefault applyMultiplier).

Definition SetValue_Vec4 (c : CCompoundSplineTrack) (time : Q) (value : Vec4)
  (bDefault applyMultiplier : bool) : CCompoundSplineTrack :=
  withSubTracks c
    (SetValue_components (m_subTracks c) 0%Z (Vec4_get value) time
       bDefault applyMultiplier).

Section Quaternions.
Context {cryMath : CryMath}.

Definition GetValue_Quat (c : CCompoundSplineTrack) (time : Q) : Quat :=
  match m_subTracks c with
  | [s0; s1; s2] =>
      let a0 := SubTrack.GetValue s0 time false in
      let a1 := SubTrack.GetValue s1 time false in
      let a2 := SubTrack.GetValue s2 time false in
      CreateRotationXYZ (mkVec3 (DEG2RAD a0) (DEG2RAD a1) (DEG2RAD a2))
  | _ => Quat_identity
  end.

(** One turn of the loop of [SetValue(float, const Quat&, bool)]. *)
Definition SetValue_Quat_axis (angles : Vec3) (time : Q) (bDefault : bool)
  (i : Z) (st : SubTrack.t) : SubTrack.t :=
  let degree := RAD2DEG (Vec3_get angles i) in
  let degree :=
    if bDefault then degree
    else
      let degree0 := SubTrack.GetValue st time false in
      PreferShortestRotPath degree degree0 in
  SubTrack.SetValue st time degree bDefault false.

Definition SetValue_Quat (c : CCompoundSplineTrack) (time : Q) (value : Quat)
  (bDefault : bool) : CCompoundSplineTrack :=
  match m_subTracks c with
  | [s0; s1; s2] =>
      let angles := GetAnglesXYZ value in
      withSubTracks c
        [ SetValue_Quat_axis angles time bDefault 0%Z s0;
          SetValue_Quat_axis angles time bDefault 1%Z s1;
          SetValue_Quat_axis angles time bDefault 2%Z s2 ]
  | _ => c
  end.
End Quaternions.

(** *** OffsetKeyPosition *)

(** The body of the inner loop: key [k] of the sub-track is read by its time
    and written back at that time. *)
Definition offsetKey (d : Q) (st : SubTrack.t) (k : Z) : SubTrack.t :=
  let time := SubTrack.GetKeyTime st k in
  let value := SubTrack.GetValue st time false in
  let value := value + d in
  SubTrack.SetValue st time value false false.

Definition offsetSubTrack (d : Q) (st : SubTrack.t) : SubTrack.t :=
  fold_left (offsetKey d) (keyIndices st) st.

Definition OffsetKeyPosition (c : CCompoundSplineTrack) (offset : Vec3)
  : CCompoundSplineTrack :=
  match m_subTracks c with
  | [s0; s1; s2] =>
      withSubTracks c
        [ offsetSubTrack (Vec3_get offset 0%Z) s0;
          offsetSubTrack (Vec3_get offset 1%Z) s1;
          offsetSubTrack (Vec3_get offset 2%Z) s2 ]
  | _ => c
  end.

(** *** Parent rebase *)

(** [AZStd::find(allTimes.begin(), allTimes.end(), time) == allTimes.end()],
    then [push_back]. *)
Definition addTime (allTimes : list Q) (time : Q) : list Q :=
  if existsb (fun x => Qeq_bool x time) allTimes then allTimes
  else allTimes ++ [time].

Definition collectTimes (allTimes : list Q) (st : SubTrack.t) : list Q :=
  fold_left (fun acc k => addTime acc (SubTrack.GetKeyTime st k))
            (keyIndices st) allTimes.

Section Rebase.
Context {az : AzTransform}.

(** The [switch] on the parameter type. *)
Definition rebaseVector (paramType : AnimParamType)
  (oldParentWorldTM newParentInverseWorldTM : Transform) (vector : Vec3) : Vec3 :=
  match paramType with
  | Position =>
      let worldPosition := transformPoint oldParentWorldTM vector in
      transformPoint newParentInverseWorldTM worldPosition
  | Rotation =>
      let worldRoation :=
        Vec3_add (ConvertTransformToEulerDegrees oldParentWorldTM) vector in
      Vec3_add (ConvertTransformToEulerDegrees newParentInverseWorldTM) worldRoation
  | Scale =>
      let worldScale := Vec3_mul (RetrieveScaleExact oldParentWorldTM) vector in
      Vec3_mul (RetrieveScaleExact newParentInverseWorldTM) worldScale
  | _ => vector
  end.

(** The three sub-tracks read at [time]. *)
Definition readVector (s : SubTrack.t * SubTrack.t * SubTrack.t) (time : Q) : Vec3 :=
  let '(s0, s1, s2) := s in
  mkVec3 (SubTrack.GetValue s0 time false)
         (SubTrack.GetValue s1 time false)
         (SubTrack.GetValue s2 time false).

(** One turn of the loop over [allTimes]. *)
Definition rebaseAt (paramType : AnimParamType)
  (oldParentWorldTM newParentInverseWorldTM : Transform)
  (s : SubTrack.t * SubTrack.t * SubTrack.t) (time : Q)
  : SubTrack.t * SubTrack.t * SubTrack.t :=
  let vector := readVector s time in
  let vector :=
    rebaseVector paramType oldParentWorldTM newParentInverseWorldTM vector in
  let '(s0, s1, s2) := s in
  (SubTrack.SetValue s0 time (Vec3_get vector 0%Z) false false,
   SubTrack.SetValue s1 time (Vec3_get vector 1%Z) false false,
   SubTrack.SetValue s2 time (Vec3_get vector 2%Z) false false).

Definition allKeyTimes (s0 s1 s2 : SubTrack.t) : list Q :=
  collectTimes (collectTimes (collectTimes [] s0) s1) s2.

(** The method reads slots 0 to 2 whatever [m_nDimensions] is; a track
    with fewer live slots would dereference a null slot and is left as it
    is. *)
Definition UpdateKeyDataAfterParentChanged (c : CCompoundSplineTrack)
  (oldParentWorldTM newParentWorldTM : Transform) : CCompoundSplineTrack :=
  match m_subTracks c with
  | s0 :: s1 :: s2 :: rest =>
      let newParentInverseWorldTM := InvertFull newParentWorldTM in
      let allTimes := allKeyTimes s0 s1 s2 in
      let '(s0', s1', s2') :=
        fold_left
          (rebaseAt (m_nParamType c) oldParentWorldTM newParentInverseWorldTM)
          allTimes (s0, s1, s2) in
      withSubTracks c (s0' :: s1' :: s2' :: rest)
  | _ => c
  end.
End Rebase.

End Values.

(** ** Concrete collaborators

    The methods above are parametric in the collaborators.  The instances
    below make them run on examples. *)

Module Concrete.

(** Value held from the last key at or before [time]. *)
Fixpoint holdValue (keys : list IKey) (time held : Q) : Q :=
  match keys with
  | [] => held
  | x :: r =>
      if Qle_bool (keyTime x) time then holdValue r time (keyValue x) else held
  end.

(** A sub-track that holds the previous key between keys (the first key
    before it, 0 when empty), keeps its default value outside the keys and
    has a unit multiplier. *)
Definition stepSpline : SplineInternals := {|
  interpolate := fun keys time =>
    holdValue keys time (match keys with x :: _ => keyValue x | [] => 0 end);
  setDefaultValue := fun keys _ _ _ => keys;
  multiplierOnRead := fun v => v;
  multiplierOnWrite := fun v => v
|}.

(** First-order stand-in for the CryMath helpers, with 355/113 for pi: the
    vector part of the quaternion is half the angle vector. *)
Definition smallAngles : CryMath := {|
  CreateRotationXYZ := fun a => mkQuat (mkVec3 (vx a / 2) (vy a / 2) (vz a / 2)) 1;
  GetAnglesXYZ := fun q => mkVec3 (2 * vx (qv q)) (2 * vy (qv q)) (2 * vz (qv q));
  DEG2RAD := fun d => d * (355 # 113) / 180;
  RAD2DEG := fun r => r * 180 / (355 # 113)
|}.

(** A 3x4 affine matrix: rows of the linear part, translation in the last
    column. *)
Record Matrix3x4 : Type := mkMatrix {
  m00 : Q; m01 : Q; m02 : Q; m03 : Q;
  m10 : Q; m11 : Q; m12 : Q; m13 : Q;
  m20 : Q; m21 : Q; m22 : Q; m23 : Q
}.

Definition identity : Matrix3x4 :=
  mkMatrix 1 0 0 0
           0 1 0 0
           0 0 1 0.

Definition determinant (m : Matrix3x4) : Q :=
  m00 m * (m11 m * m22 m - m12 m * m21 m)
  - m01 m * (m10 m * m22 m - m12 m * m20 m)
  + m02 m * (m10 m * m21 m - m11 m * m20 m).

Definition mulPoint (m : Matrix3x4) (v : Vec3) : Vec3 :=
  mkVec3 (m00 m * vx v + m01 m * vy v + m02 m * vz v + m03 m)
         (m10 m * vx v + m11 m * vy v + m12 m * vz v + m13 m)
         (m20 m * vx v + m21 m * vy v + m22 m * vz v + m23 m).

(** Full inverse of the affine map: adjugate over determinant for the
    linear part, and the translation carried through it. *)
Definition inverse (m : Matrix3x4) : Matrix3x4 :=
  let d := determinant m in
  let i00 := (m11 m * m22 m - m12 m * m21 m) / d in
  let i01 := (m02 m * m21 m - m01 m * m22 m) / d in
  let i02 := (m01 m * m12 m - m02 m * m11 m) / d in
  let i10 := (m12 m * m20 m - m10 m * m22 m) / d in
  let i11 := (m00 m * m22 m - m02 m * m20 m) / d in
  let i12 := (m02 m * m10 m - m00 m * m12 m) / d in
  let i20 := (m10 m * m21 m - m11 m * m20 m) / d in
  let i21 := (m01 m * m20 m - m00 m * m21 m) / d in
  let i22 := (m00 m * m11 m - m01 m * m10 m) / d in
  mkMatrix i00 i01 i02 (- (i00 * m03 m + i01 * m13 m + i02 * m23 m))
           i10 i11 i12 (- (i10 * m03 m + i11 * m13 m + i12 * m23 m))
           i20 i21 i22 (- (i20 * m03 m + i21 * m13 m + i22 * m23 m)).

(** The square root of a rational that is the square of a rational; no
    answer for any other argument, whose root is irrational or undefined. *)
Definition sqrtQ (x : Q) : option Q :=
  let r := Qred x in
  let s := Z.sqrt (Qnum r) # Pos.sqrt (Qden r) in
  if Qeq_bool (s * s) x then Some s else None.

(** Lengths of the three basis vectors (the columns of the linear part),
    where all three are rational. *)
Definition exactBasisLengths (m : Matrix3x4) : option Vec3 :=
  match sqrtQ (m00 m * m00 m + m10 m * m10 m + m20 m * m20 m),
        sqrtQ (m01 m * m01 m + m11 m * m11 m + m21 m * m21 m),
        sqrtQ (m02 m * m02 m + m12 m * m12 m + m22 m * m22 m) with
  | Some lx, Some ly, Some lz => Some (mkVec3 lx ly lz)
  | _, _, _ => None
  end.

(** The basis lengths as a vector; the zero vector stands in where a length
    is irrational.  Every statement that evaluates it does so on a matrix
    for which [exactBasisLengths] has an answer. *)
Definition basisLengths (m : Matrix3x4) : Vec3 :=
  match exactBasisLengths m with Some v => v | None => mkVec3 0 0 0 end.

(** Angle of the direction [(x, y)] in degrees, as [atan2 (y, x)] gives it
    for a direction along an axis; no answer for any other direction, whose
    angle is not rational in general.  The zero [y] is the positive zero of
    the floats, so the negative X axis is at 180. *)
Definition atan2Degrees (y x : Q) : option Q :=
  match y ?= 0, x ?= 0 with
  | Eq, Lt => Some 180
  | Eq, _ => Some 0
  | Gt, Eq => Some 90
  | Lt, Eq => Some (-90)
  | _, _ => None
  end.

Definition asinDegrees (s : Q) : option Q :=
  if Qeq_bool s 1 then Some 90
  else if Qeq_bool s (-1) then Some (-90)
  else if Qeq_bool s 0 then Some 0
  else None.

(** Modelled from the spec: [AzFramework::ConvertTransformToEulerDegrees]
    is not part of the translated file; the specification names it an
    Euler-degrees decomposition, XYZ order.  For [Rx(a) Ry(b) Rz(c)] the
    entries give [sin b = m02], [tan a = - m12 / m22],
    [tan c = - m01 / m00]; at [m02 = 1, -1] only one of [a], [c] is
    determined, [a] is taken as 0 and [tan c = m10 / m11].  [atan2] is odd
    in its first argument, signed zeros included, so [atan2 (- y, x)] is
    written [- atan2 (y, x)].  There is an answer for the rotations that map
    axes to axes (entries 0, 1, -1), whose angles are multiples of a quarter
    turn; the angles of other matrices are not rational in general. *)
Definition exactEulerDegrees (m : Matrix3x4) : option Vec3 :=
  if Qle_bool 1 (Qabs (m02 m))
  then match asinDegrees (m02 m), atan2Degrees (m10 m) (m11 m) with
       | Some b, Some c => Some (mkVec3 0 b c)
       | _, _ => None
       end
  else match atan2Degrees (m12 m) (m22 m), asinDegrees (m02 m),
             atan2Degrees (m01 m) (m00 m) with
       | Some a, Some b, Some c => Some (mkVec3 (- a) b (- c))
       | _, _, _ => None
       end.

(** The Euler angles as a vector; the zero vector stands in where
    [exactEulerDegrees] has no answer.  Every statement that evaluates it
    does so on a matrix for which there is one. *)
Definition eulerDegrees (m : Matrix3x4) : Vec3 :=
  match exactEulerDegrees m with Some v => v | None => mkVec3 0 0 0 end.

(** Modelled from the spec: [AZ::Transform] is not part of the translated
    file; the specification takes from it the point transform, the inverse,
    the Euler-degrees decomposition and the exact scale extraction.  The
    point transform and the inverse are exact on every matrix; the Euler
    angles and the scale are exact where [exactEulerDegrees] and
    [exactBasisLengths] have an answer. *)
Definition matrices : AzTransform := {|
  Transform := Matrix3x4;
  transformPoint := mulPoint;
  InvertFull := inverse;
  ConvertTransformToEulerDegrees := eulerDegrees;
  RetrieveScaleExact := basisLengths
|}.

End Concrete.

(** ** Rotation continuity as the specification words it

    [principal = previous mod 360], [turns = (previous - principal) / 360],
    [alt = target - 360] if [target >= 0], else [target + 360]. *)

Module RotationSpec.
Definition principal (previous : Q) : Q := fmod_tpl previous 360.
Definition turns (previous : Q) : Q := (previous - principal previous) / 360.
Definition alternateWrap (target : Q) : Q :=
  if Qle_bool 0 target then target - 360 else target + 360.
(** The algorithm with every operation exact: the closer of the target and
    its alternate wrap, the target at a tie, plus the turns. *)
Definition unrounded (target previous : Q) : Q :=
  if Qltb (Qabs (alternateWrap target - principal previous))
          (Qabs (target - principal previous))
  then alternateWrap target + turns previous * 360
  else target + turns previous * 360.
End RotationSpec.

(** [x] is a whole multiple of [2^e]. *)
Definition multipleOfPow2 (e : Z) (x : Q) : Prop :=
  exists m : Z, x == inject_Z m * pow2 e.

(** ** Index bookkeeping, for the statements *)

(** Key counts of the sub-tracks in front of sub-track [i], summed. *)
Definition keyCountBefore (c : CCompoundSplineTrack) (i : Z) : Z :=
  fold_right Z.add 0%Z
    (map SubTrack.GetNumKeys (firstn (Z.to_nat i) (m_subTracks c))).

(** ** Example tracks *)

Module Examples.

(** Sub-track A with keys at times 0 and 2, sub-track B with keys at times
    1 and 3. *)
Definition trackAB : CCompoundSplineTrack :=
  mkTrack (OtherParam 0) Vector
    [ [mkKey 0 10 false; mkKey 2 12 false];
      [mkKey 1 21 false; mkKey 3 23 false] ]
    ["X"%string; "Y"%string; "Z"%string; "W"%string] 0.

(** One sub-track with a key at time 0 and a key at time [FLT_MAX]. *)
Definition trackMax : CCompoundSplineTrack :=
mkTrack (OtherParam 0) Float
  [ [mkKey 0 1 false; mkKey FLT_MAX 2 false] ]
  ["X"%string; "Y"%string; "Z"%string; "W"%string] 0.

(** One sub-track with two keys 2^-11 apart, less than half a
    millisecond. *)
Definition trackNear : CCompoundSplineTrack :=
mkTrack (OtherParam 0) Float
  [ [mkKey 1 5 false; mkKey (2049 # 2048) 6 false] ]
  ["X"%string; "Y"%string; "Z"%string; "W"%string] 0.

(** Two sub-tracks with one key each, at 7 * 2^-37 and at 0.001f: less than
    1/1000 apart, while their float difference is 0.001f. *)
Definition trackRounded : CCompoundSplineTrack :=
mkTrack (OtherParam 0) Vector
  [ [mkKey (7 # 137438953472) 1 false];
    [mkKey timeEpsilon 2 false] ]
  ["X"%string; "Y"%string; "Z"%string; "W"%string] 0.

(** A position track whose X sub-track stores two keys at the same time. *)
Definition trackTwin : CCompoundSplineTrack :=
mkTrack Position Vector
  [ [mkKey 1 10 false; mkKey 1 20 false];
    [mkKey 1 0 false];
    [mkKey 1 0 false] ]
  ["X"%string; "Y"%string; "Z"%string; "W"%string] 0.

(** A position track with keys at times 0 and 1 on X and at time 1 on Y
    and Z. *)
Definition trackXYZ : CCompoundSplineTrack :=
mkTrack Position Vector
  [ [mkKey 0 1 false; mkKey 1 2 true];
    [mkKey 1 3 false];
    [mkKey 1 4 false] ]
  ["X"%string; "Y"%string; "Z"%string; "W"%string] 0.

(** A rotation track with a key at time 0 on every axis and one more key at
    time 1 on Z. *)
Definition trackRot : CCompoundSplineTrack :=
mkTrack Rotation QuatValue
  [ [mkKey 0 10 false];
    [mkKey 0 20 false];
    [mkKey 0 30 false; mkKey 1 350 false] ]
  ["X"%string; "Y"%string; "Z"%string; "W"%string] 0.

(** Half a turn about Z; it is its own inverse. *)
Definition halfTurnZ : Concrete.Matrix3x4 :=
Concrete.mkMatrix (-1) 0 0 0
                  0 (-1) 0 0
                  0 0 1 0.

(** Half a turn about the diagonal of the XY plane: it swaps X and Y and
    reverses Z, and is its own inverse. *)
Definition halfTurnXY : Concrete.Matrix3x4 :=
Concrete.mkMatrix 0 1 0 0
                  1 0 0 0
                  0 0 (-1) 0.

(** A quarter turn about Z and a translation. *)
Definition quarterTurnZ : Concrete.Matrix3x4 :=
Concrete.mkMatrix 0 (-1) 0 5
                  1 0 0 6
                  0 0 1 7.

(** A stretch by 7 along the diagonal of the XY plane (a rotated non-uniform
    scale), symmetric, determinant 7: basis lengths 5, 5, 1, and 5/7, 5/7, 1
    for its inverse. *)
Definition stretched : Concrete.Matrix3x4 :=
Concrete.mkMatrix 4 3 0 0
                  3 4 0 0
                  0 0 1 0.

(** A scale by 2, 3, 4 along the axes, and a translation. *)
Definition scaled : Concrete.Matrix3x4 :=
Concrete.mkMatrix 2 0 0 1
                  0 3 0 1
                  0 0 4 1.

(** A scale track with a key at time 0 on every axis. *)
Definition trackScale : CCompoundSplineTrack :=
mkTrack Scale Vector
  [ [mkKey 0 1 false];
    [mkKey 0 1 false];
    [mkKey 0 1 false] ]
  ["X"%string; "Y"%string; "Z"%string; "W"%string] 0.

End Examples.

(** ** Time order, for the statements *)

(** The keys of a sub-track are in ascending time order (equal times are
    allowed). *)
Definition sortedByTime (st : SubTrack.t) : Prop :=
  forall (i j : nat) (ki kj : IKey),
    (i <= j)%nat -> nth_error st i = Some ki -> nth_error st j = Some kj ->
    keyTime ki <= keyTime kj.

(** Every key time of the sub-track is below [FLT_MAX]. *)
Definition belowFltMax (st : SubTrack.t) : Prop :=
  forall k : IKey, In k st -> keyTime k < FLT_MAX.

(** The state of the outer loop of [NextKeyByTime] once the keys [P] of the
    sub-tracks visited so far are behind it: either nothing later than [time]
    was seen and the state is the initial one, or [result] is the first
    position in [P] of the earliest key later than [time]. *)
Definition nextKeyInvariant (time : Q) (P : list IKey) (result : Z) (timeNext : Q)
  : Prop :=
  (result = (-1)%Z /\ timeNext = FLT_MAX /\
   forall (j : nat) (kj : IKey), nth_error P j = Some kj -> ~ time < keyTime kj)
  \/
  (exists (m : nat) (km : IKey),
      result = Z.of_nat m /\ nth_error P m = Some km /\
      keyTime km = timeNext /\ time < timeNext /\
      forall (j : nat) (kj : IKey),
        nth_error P j = Some kj -> time < keyTime kj ->
        timeNext < keyTime kj \/ (timeNext == keyTime kj /\ (m <= j)%nat)).

(** [r] answers "the next key after time [T]" on track [c]: -1 when no key
    is later than [T]; otherwise the flat index of a key with the earliest
    time later than [T], the lowest flat index (hence the lowest sub-track
    index) among the keys with that time. *)
Definition earliestLaterKey (c : CCompoundSplineTrack) (T : Q) (r : Z) : Prop :=
  ((forall j, (0 <= j < GetNumKeys c)%Z -> ~ T < GetKeyTime c j) ->
   r = (-1)%Z) /\
  ((exists j, (0 <= j < GetNumKeys c)%Z /\ T < GetKeyTime c j) ->
   (0 <= r < GetNumKeys c)%Z /\ T < GetKeyTime c r /\
   forall j, (0 <= j < GetNumKeys c)%Z -> T < GetKeyTime c j ->
     GetKeyTime c r < GetKeyTime c j \/
     (GetKeyTime c r == GetKeyTime c j /\ (r <= j)%Z /\
      (fst (GetSubTrackIndex c r) <= fst (GetSubTrackIndex c j))%Z)).

(** ** Selection, for the statements *)

(** The key's time lies within 1/1000 of [T], the difference being the
    exact one. *)
Definition nearTime (T : Q) (k : IKey) : Prop :=
  Qabs (keyTime k - T) < 1 # 1000.

(** The test of [SelectKey] as the code computes it: the float difference of
    the key's time and [T] is below [0.001f] in magnitude. *)
Definition roundedNear (T : Q) (k : IKey) : Prop :=
  fabs (fsub (keyTime k) T) < timeEpsilon.

(** Local index [m] holds the first key of the sub-track that passes the
    test of [SelectKey] against [T]. *)
Definition firstNear (st : SubTrack.t) (T : Q) (m : nat) : Prop :=
  exists km,
    nth_error st m = Some km /\ roundedNear T km /\
    forall (j : nat) (kj : IKey),
      (j < m)%nat -> nth_error st j = Some kj -> ~ roundedNear T kj.

(** ** Key values, for the statements *)

(** No two keys of the sub-track are stored at the same time. *)
Definition distinctTimes (st : SubTrack.t) : Prop :=
  forall (i j : nat) (ki kj : IKey),
    nth_error st i = Some ki -> nth_error st j = Some kj ->
    keyTime ki == keyTime kj -> i = j.

(** [st'] is [st] with [d] added to the stored value of every key, times and
    selection flags as they were, no key added or removed. *)
Definition keysOffsetBy (d : Q) (st st' : SubTrack.t) : Prop :=
  length st' = length st /\
  forall (m : nat) (km : IKey),
    nth_error st m = Some km ->
    nth_error st' m = Some (mkKey (keyTime km) (keyValue km + d) (keySelected km)).

(** State of the inner loop of [OffsetKeyPosition] before local index [a]:
    the keys in front of [a] are offset, the others untouched. *)
Definition offsetUpTo (d : Q) (a : nat) (st s : SubTrack.t) : Prop :=
  length s = length st /\
  forall (m : nat) (km : IKey),
    nth_error st m = Some km ->
    nth_error s m
    = Some (if (m <? a)%nat then withValue km (keyValue km + d) else km).

(** ** Stored values, for the statements *)

(** The value a sub-track stores at exactly time [t]: that of the first key
    there, if any. *)
Definition storedValue (st : SubTrack.t) (t : Q) : option Q :=
  option_map keyValue (SubTrack.findKeyAt st t).

(** The vector three sub-tracks store at time [t], when each of them holds a
    key there. *)
Definition storedTriple (s : SubTrack.t * SubTrack.t * SubTrack.t) (t : Q)
  : option Vec3 :=
  let '(s0, s1, s2) := s in
  match storedValue s0 t, storedValue s1 t, storedValue s2 t with
  | Some a, Some b, Some c => Some (mkVec3 a b c)
  | _, _, _ => None
  end.

Definition storedVector (c : CCompoundSplineTrack) (t : Q) : option Vec3 :=
  match m_subTracks c with
  | s0 :: s1 :: s2 :: _ => storedTriple (s0, s1, s2) t
  | _ => None
  end.

(** The first three sub-tracks of a track. *)
Definition firstThree (c : CCompoundSplineTrack)
  : option (SubTrack.t * SubTrack.t * SubTrack.t) :=
  match m_subTracks c with
  | s0 :: s1 :: s2 :: _ => Some (s0, s1, s2)
  | _ => None
  end.

(** One sub-track of a triple. *)
Definition pick (i : Z) (s : SubTrack.t * SubTrack.t * SubTrack.t) : SubTrack.t :=
  let '(s0, s1, s2) := s in
  if (i =? 0)%Z then s0 else if (i =? 1)%Z then s1 else s2.

Section RewriteAt.
Context {spline : SplineInternals}.

(** One turn of the rebase loop with the vector map left open: read the
    three sub-tracks at [time], map the vector, write it back at [time]. *)
Definition rewriteAt (f : Vec3 -> Vec3)
  (s : SubTrack.t * SubTrack.t * SubTrack.t) (time : Q)
  : SubTrack.t * SubTrack.t * SubTrack.t :=
  let vector := f (readVector s time) in
  let '(s0, s1, s2) := s in
  (SubTrack.SetValue s0 time (Vec3_get vector 0%Z) false false,
   SubTrack.SetValue s1 time (Vec3_get vector 1%Z) false false,
   SubTrack.SetValue s2 time (Vec3_get vector 2%Z) false false).

End RewriteAt.

(** The collected key times of a triple of sub-tracks. *)
Definition tripleTimes (s : SubTrack.t * SubTrack.t * SubTrack.t) : list Q :=
  let '(s0, s1, s2) := s in allKeyTimes s0 s1 s2.

(** ** Parent rebase, for the statements *)

Section RebaseNotions.
Context {az : AzTransform}.

(** The scale extracted from the inverse is, axis by axis, the reciprocal of
    the scale extracted from the transform. *)
Definition reciprocalScale (M : Transform) : Prop :=
  Vec3_eq (Vec3_mul (RetrieveScaleExact (InvertFull M)) (RetrieveScaleExact M))
          (mkVec3 1 1 1).

(** [InvertFull M] is the inverse of [M] on points, from either side, in
    exact arithmetic, and maps equal points to equal points. *)
Definition invertible (M : Transform) : Prop :=
  (forall v w : Vec3,
      Vec3_eq v w ->
      Vec3_eq (transformPoint (InvertFull M) v) (transformPoint (InvertFull M) w)) /\
  (forall v : Vec3,
      Vec3_eq (transformPoint (InvertFull M) (transformPoint M v)) v) /\
  (forall v : Vec3,
      Vec3_eq (transformPoint M (transformPoint (InvertFull M) v)) v).

(** On every vector, the map of the rebase from [B] back to [A] undoes the
    map of the rebase from [A] to [B]. *)
Definition rebaseUndoes (p : AnimParamType) (A B : Transform) : Prop :=
  forall v : Vec3,
    Vec3_eq (rebaseVector p B (InvertFull A) (rebaseVector p A (InvertFull B) v)) v.

End RebaseNotions.

(** Rebase from parent [A] to parent [B] and back, on the concrete
    collaborators. *)
Definition rebaseThereAndBack (c : CCompoundSplineTrack)
  (A B : Concrete.Matrix3x4) : CCompoundSplineTrack :=
  UpdateKeyDataAfterParentChanged (spline := Concrete.stepSpline)
    (az := Concrete.matrices)
    (UpdateKeyDataAfterParentChanged (spline := Concrete.stepSpline)
       (az := Concrete.matrices) c A B) B A.

(** ** Rotation continuity in IEEE binary32

    A second rendering of [PreferShortestRotPath], on the bit-level
    specification of single-precision floats, to compare the rendering by
    [round32] with on examples. *)

Module Binary32.

Definition prec : Z := 24%Z.
Definition emax : Z := 128%Z.

(** The float nearest to the integer [n]. *)
Definition ofZ (n : Z) : spec_float := binary_normalize prec emax n 0%Z false.

(** The float nearest to [m * 2^e]. *)
Definition ofScaled (m e : Z) : spec_float := binary_normalize prec emax m e false.

(** The rational a finite float denotes. *)
Definition toQ (f : spec_float) : Q :=
  match f with
  | S754_finite s m e =>
      (if s then - inject_Z (Z.pos m) else inject_Z (Z.pos m)) * pow2 e
  | _ => 0
  end.

(** Modelled from the spec: [fmod_tpl] (CryCommon, not in the translated
    file) is [fmodf]: the remainder of the truncated quotient, computed
    exactly, with the sign of [x]. *)
Definition fmodf (x y : spec_float) : spec_float :=
  match x, y with
  | S754_nan, _ => S754_nan
  | _, S754_nan => S754_nan
  | S754_infinity _, _ => S754_nan
  | _, S754_zero _ => S754_nan
  | S754_zero s, _ => S754_zero s
  | S754_finite _ _ _, S754_infinity _ => x
  | S754_finite sx mx ex, S754_finite _ my ey =>
      let e := Z.min ex ey in
      let r := Z.rem (Z.pos mx * 2 ^ (ex - e)) (Z.pos my * 2 ^ (ey - e)) in
      binary_normalize prec emax (if sx then (- r)%Z else r) e sx
  end.

Definition PreferShortestRotPath (degree degree0 : spec_float) : spec_float :=
  let degree00 := degree0 in
  let degree0 := fmodf degree0 (ofZ 360) in
  let n := SFdiv prec emax (SFsub prec emax degree00 degree0) (ofZ 360) in
  let degreeAlt :=
    if SFleb (ofZ 0) degree then SFsub prec emax degree (ofZ 360)
    else SFadd prec emax degree (ofZ 360) in
  if SFltb (SFabs (SFsub prec emax degreeAlt degree0))
           (SFabs (SFsub prec emax degree degree0))
  then SFadd prec emax degreeAlt (SFmul prec emax n (ofZ 360))
  else SFadd prec emax degree (SFmul prec emax n (ofZ 360)).

End Binary32.

(** ** Sub-track names *)

Fixpoint setNth {A : Type} (l : list A) (n : nat) (x : A) : list A :=
  match l, n with
  | [], _ => []
  | _ :: r, O => x :: r
  | y :: r, S n' => y :: setNth r n' x
  end.

(** [m_subTrackNames[nIndex].c_str()]; the assertion bounds [nIndex] by the
    dimension count, and an index outside the name table reads as the empty
    string here. *)
Definition GetSubTrackName (c : CCompoundSplineTrack) (nIndex : Z) : string :=
  if (nIndex <? 0)%Z then EmptyString
  else nth (Z.to_nat nIndex) (m_subTrackNames c) EmptyString.

(** [m_subTrackNames[nIndex] = name]; an index outside the name table writes
    nothing here. *)
Definition SetSubTrackName (c : CCompoundSplineTrack) (nIndex : Z) (name : string)
  : CCompoundSplineTrack :=
  if (nIndex <? 0)%Z then c
  else mkTrack (m_nParamType c) (m_valueType c) (m_subTracks c)
         (setNth (m_subTrackNames c) (Z.to_nat nIndex) name) (m_flags c).

(** The keys of the active sub-tracks laid end to end: the order the flat key
    index runs through. *)
Definition flatKeys (c : CCompoundSplineTrack) : list IKey :=
  concat (m_subTracks c).

(** A three-dimensional track of a parameter type that is neither position,
    rotation nor scale, with keys at times 0 and 1 on the first sub-track and
    at time 1 on the others. *)
Definition trackOther : CCompoundSplineTrack :=
mkTrack (OtherParam 0) Vector
  [ [mkKey 0 1 false; mkKey 1 2 true];
    [mkKey 1 3 false];
    [mkKey 1 4 false] ]
  ["X"%string; "Y"%string; "Z"%string; "W"%string] 0.

(** * Properties *)

(** ** Comparisons on floats *)

Lemma Qltb_lt (a b : Q) : Qltb a b = true <-> a < b.
Proof.
  unfold Qltb. rewrite negb_true_iff. split; intro Hab.
  - apply Qnot_le_lt. intro Hle. apply Qle_bool_iff in Hle. congruence.
  - destruct (Qle_bool b a) eqn:E; [|reflexivity].
    apply Qle_bool_iff in E. exfalso. apply (Qlt_not_le _ _ Hab E).
Qed.

Lemma Qltb_ge (a b : Q) : Qltb a b = false <-> b <= a.
Proof.
  unfold Qltb. rewrite negb_false_iff. apply Qle_bool_iff.
Qed.

(** ** Rounding to binary32 *)

Lemma pow2_pos (e : Z) : 0 < pow2 e.
Proof. apply Qpower_0_lt. reflexivity. Qed.

Lemma pow2_plus (a b : Z) : pow2 (a + b) == pow2 a * pow2 b.
Proof. apply Qpower_plus. discriminate. Qed.

Lemma pow2_Z (e : Z) : (0 <= e)%Z -> pow2 e == inject_Z (2 ^ e).
Proof. intro He. unfold pow2. rewrite (Zpower_Qpower 2 e He). reflexivity. Qed.

Lemma pow2_lt (a b : Z) : (a < b)%Z -> pow2 a < pow2 b.
Proof. intro H. apply Qpower_lt_compat_l; [exact H | reflexivity]. Qed.

Lemma pow2_le (a b : Z) : (a <= b)%Z -> pow2 a <= pow2 b.
Proof. intro H. apply Qpower_le_compat_l; [exact H | discriminate]. Qed.

Lemma pow2_lt_inv (a b : Z) : pow2 a < pow2 b -> (a < b)%Z.
Proof. intro H. apply (Qpower_lt_compat_l_inv 2); [exact H | reflexivity]. Qed.

Lemma pow2_minus (a b : Z) : pow2 (a - b) == pow2 a / pow2 b.
Proof.
  unfold Z.sub. rewrite pow2_plus. unfold pow2 at 2. rewrite Qpower_opp.
  reflexivity.
Qed.

Lemma pow2_succ (a : Z) : pow2 (a + 1) == 2 * pow2 a.
Proof. rewrite pow2_plus. change (pow2 1) with 2. ring. Qed.

Lemma Qabs_as_quotient (x : Q) :
  Qabs x == inject_Z (Z.abs (Qnum x)) / inject_Z (Z.pos (Qden x)).
Proof. destruct x as [n d]. unfold Qabs. cbn [Qnum Qden]. apply Qmake_Qdiv. Qed.

(** Rough position of a quotient of two positive integers between powers of
    two, from the positions of numerator and denominator. *)
Lemma log2_quotient (n d : Z) :
  (0 < n)%Z -> (0 < d)%Z ->
  pow2 (Z.log2 n - Z.log2 d - 1) <= inject_Z n / inject_Z d /\
  inject_Z n / inject_Z d < pow2 (Z.log2 n - Z.log2 d + 1).
Proof.
  intros Hn Hd.
  destruct (Z.log2_spec n Hn) as [Hn1 Hn2].
  destruct (Z.log2_spec d Hd) as [Hd1 Hd2].
  pose proof (Z.log2_nonneg n) as Ha. pose proof (Z.log2_nonneg d) as Hb.
  rewrite Z.pow_succ_r in Hn2, Hd2 by assumption.
  assert (HD : 0 < inject_Z d) by (change 0 with (inject_Z 0); rewrite <- Zlt_Qlt; exact Hd).
  assert (EA : pow2 (Z.log2 n) == inject_Z (2 ^ Z.log2 n)) by (apply pow2_Z; exact Ha).
  assert (EB : pow2 (Z.log2 d) == inject_Z (2 ^ Z.log2 d)) by (apply pow2_Z; exact Hb).
  pose proof (pow2_pos (Z.log2 d)) as HB.
  rewrite Zle_Qle in Hn1, Hd1. rewrite Zlt_Qlt in Hn2, Hd2.
  rewrite inject_Z_mult in Hn2, Hd2.
  rewrite <- EA in Hn1, Hn2. rewrite <- EB in Hd1, Hd2.
  change (inject_Z 2) with 2 in Hn2, Hd2.
  set (A := pow2 (Z.log2 n)) in *. set (B := pow2 (Z.log2 d)) in *.
  set (N := inject_Z n) in *. set (D := inject_Z d) in *.
  assert (HA : 0 < A) by apply pow2_pos.
  split.
  - replace (Z.log2 n - Z.log2 d - 1)%Z with (Z.log2 n - (Z.log2 d + 1))%Z by ring.
    rewrite pow2_minus, pow2_succ. fold A. fold B.
    apply Qle_shift_div_l; [exact HD|].
    assert (E : A / (2 * B) * D == (A * D) / (2 * B)) by (field; lra).
    rewrite E. apply Qle_shift_div_r; [lra|].
    apply Qle_trans with (A * (2 * B)).
    + apply Qmult_le_l; [exact HA | lra].
    + apply Qmult_le_r; lra.
  - replace (Z.log2 n - Z.log2 d + 1)%Z with (Z.log2 n + 1 - Z.log2 d)%Z by ring.
    rewrite pow2_minus, pow2_succ. fold A. fold B.
    apply Qlt_shift_div_r; [exact HD|].
    assert (E : 2 * A / B * D == (2 * A * D) / B) by (field; lra).
    rewrite E. apply Qlt_shift_div_l; [lra|].
    apply Qlt_le_trans with (2 * A * B).
    + apply Qmult_lt_r; lra.
    + apply Qmult_le_l; lra.
Qed.

Lemma ilog2_spec (x : Q) :
  ~ x == 0 -> pow2 (ilog2 x) <= Qabs x /\ Qabs x < pow2 (ilog2 x + 1).
Proof.
  intro Hx.
  assert (Hn : (0 < Z.abs (Qnum x))%Z).
  { destruct x as [n d]. cbn [Qnum]. unfold Qeq in Hx. cbn in Hx. lia. }
  destruct (log2_quotient (Z.abs (Qnum x)) (Z.pos (Qden x)) Hn eq_refl) as [Hlo Hhi].
  rewrite <- Qabs_as_quotient in Hlo, Hhi.
  unfold ilog2.
  set (k := (Z.log2 (Z.abs (Qnum x)) - Z.log2 (Z.pos (Qden x)))%Z) in *.
  destruct (Qle_bool (pow2 k) (Qabs x)) eqn:E.
  - apply Qle_bool_iff in E. split; assumption.
  - split; [exact Hlo|].
    replace (k - 1 + 1)%Z with k by ring.
    apply Qnot_le_lt. intro Hle. apply Qle_bool_iff in Hle. congruence.
Qed.

Lemma ilog2_below (x : Q) (k : Z) : ~ x == 0 -> Qabs x < pow2 k -> (ilog2 x < k)%Z.
Proof.
  intros Hx Hlt. destruct (ilog2_spec x Hx) as [Hlo _].
  apply pow2_lt_inv. apply Qle_lt_trans with (Qabs x); assumption.
Qed.

Lemma ilog2_above (x : Q) (k : Z) : ~ x == 0 -> pow2 k <= Qabs x -> (k <= ilog2 x)%Z.
Proof.
  intros Hx Hle. destruct (ilog2_spec x Hx) as [_ Hhi].
  assert (H : (k < ilog2 x + 1)%Z).
  { apply pow2_lt_inv. apply Qle_lt_trans with (Qabs x); assumption. }
  lia.
Qed.

(** *** Rounding to the nearest integer *)

Lemma nearestEven_int (x : Q) (z : Z) : x == inject_Z z -> nearestEven x = z.
Proof.
  intro E. unfold nearestEven.
  assert (Hf : Qfloor x = z) by (rewrite (Qfloor_comp x (inject_Z z) E); apply Qfloor_Z).
  rewrite Hf.
  assert (H : (x - inject_Z z ?= 1 # 2) = Lt) by (rewrite <- Qlt_alt; lra).
  rewrite H. reflexivity.
Qed.

Lemma nearestEven_bounds (x : Q) :
  (Qfloor x <= nearestEven x <= Qfloor x + 1)%Z /\
  (x - inject_Z (Qfloor x) < 1 # 2 -> nearestEven x = Qfloor x) /\
  (1 # 2 < x - inject_Z (Qfloor x) -> nearestEven x = (Qfloor x + 1)%Z).
Proof.
  unfold nearestEven.
  destruct (x - inject_Z (Qfloor x) ?= 1 # 2) eqn:E.
  - apply Qeq_alt in E. split; [destruct (Z.even (Qfloor x)); lia|].
    split; intro H; rewrite E in H; exfalso; revert H; apply Qlt_irrefl.
  - apply Qlt_alt in E. split; [lia|]. split; [reflexivity|].
    intro H. exfalso. apply (Qlt_irrefl (1 # 2)).
    apply Qlt_trans with (x - inject_Z (Qfloor x)); assumption.
  - apply Qgt_alt in E. split; [lia|]. split; [|reflexivity].
    intro H. exfalso. apply (Qlt_irrefl (1 # 2)).
    apply Qlt_trans with (x - inject_Z (Qfloor x)); assumption.
Qed.

Lemma nearestEven_mono (x y : Q) : x <= y -> (nearestEven x <= nearestEven y)%Z.
Proof.
  intro Hxy. pose proof (Qfloor_resp_le x y Hxy) as Hf.
  destruct (nearestEven_bounds x) as (Bx & Lx & Ux).
  destruct (nearestEven_bounds y) as (By & Ly & Uy).
  destruct (Z_lt_le_dec (Qfloor x) (Qfloor y)) as [Hlt|Hge]; [lia|].
  assert (Ef : Qfloor y = Qfloor x) by lia.
  destruct (Qlt_le_dec (x - inject_Z (Qfloor x)) (1 # 2)) as [Hx|Hx].
  - rewrite (Lx Hx). lia.
  - destruct (Qlt_le_dec (1 # 2) (y - inject_Z (Qfloor y))) as [Hy|Hy].
    + rewrite (Uy Hy). lia.
    + (* both at the tie *)
      rewrite Ef in Hy.
      assert (Ex : x - inject_Z (Qfloor x) == 1 # 2) by lra.
      assert (Ey : y - inject_Z (Qfloor x) == 1 # 2) by lra.
      unfold nearestEven. rewrite Ef.
      apply Qeq_alt in Ex, Ey. rewrite Ex, Ey. lia.
Qed.

Lemma nearestEven_close (x : Q) :
  Qabs (inject_Z (nearestEven x) - x) <= 1 # 2.
Proof.
  pose proof (Qfloor_le x) as Hlo. pose proof (Qlt_floor x) as Hhi.
  rewrite inject_Z_plus in Hhi. change (inject_Z 1) with 1 in Hhi.
  destruct (nearestEven_bounds x) as (_ & L & U).
  apply Qabs_Qle_condition.
  destruct (Qlt_le_dec (x - inject_Z (Qfloor x)) (1 # 2)) as [Hx|Hx].
  - rewrite (L Hx). lra.
  - destruct (Qlt_le_dec (1 # 2) (x - inject_Z (Qfloor x))) as [Hy|Hy].
    + rewrite (U Hy). rewrite inject_Z_plus. change (inject_Z 1) with 1. lra.
    + assert (Ex : x - inject_Z (Qfloor x) == 1 # 2) by lra.
      unfold nearestEven. apply Qeq_alt in Ex. rewrite Ex.
      destruct (Z.even (Qfloor x)).
      * apply Qeq_alt in Ex. lra.
      * apply Qeq_alt in Ex. rewrite inject_Z_plus. change (inject_Z 1) with 1. lra.
Qed.

(** *** Numbers that round to themselves *)

Lemma round32_zero (x : Q) : x == 0 -> round32 x = 0.
Proof.
  intro E. unfold round32. apply Qeq_bool_iff in E. rewrite E. reflexivity.
Qed.

Lemma round32_nonzero (x : Q) :
  ~ x == 0 ->
  round32 x = inject_Z (nearestEven (x / pow2 (quantum x))) * pow2 (quantum x).
Proof.
  intro Hx. unfold round32.
  destruct (Qeq_bool x 0) eqn:E; [apply Qeq_bool_iff in E; contradiction | reflexivity].
Qed.

(** A multiple of [2^e], [e >= -149], of magnitude below [2^(e+24)] is a
    binary32 number: rounding leaves it as it is. *)
Lemma round32_grid (e : Z) (x : Q) :
  (-149 <= e)%Z -> multipleOfPow2 e x -> Qabs x < pow2 (e + 24) -> round32 x == x.
Proof.
  intros He [m Hm] Hb.
  destruct (Qeq_dec x 0) as [Hz|Hnz].
  - rewrite (round32_zero x Hz). symmetry. exact Hz.
  - rewrite (round32_nonzero x Hnz).
    pose proof (ilog2_below x (e + 24) Hnz Hb) as Hlog.
    assert (Hq : (quantum x <= e)%Z) by (unfold quantum; lia).
    set (q := quantum x) in *.
    assert (Hint : x / pow2 q == inject_Z (m * 2 ^ (e - q))).
    { rewrite inject_Z_mult, <- pow2_Z by lia. rewrite pow2_minus, Hm.
      field. pose proof (pow2_pos q). lra. }
    rewrite (nearestEven_int _ _ Hint), inject_Z_mult, <- pow2_Z by lia.
    rewrite pow2_minus, Hm. field. pose proof (pow2_pos q). lra.
Qed.

Lemma round32_Z (z : Z) : (Z.abs z < 2 ^ 24)%Z -> round32 (inject_Z z) == inject_Z z.
Proof.
  intro Hz. apply (round32_grid 0); [lia | exists z; change (pow2 0) with 1; ring |].
  change (pow2 (0 + 24)) with (inject_Z (2 ^ 24)).
  change (Qabs (inject_Z z)) with (inject_Z (Z.abs z)). rewrite <- Zlt_Qlt. exact Hz.
Qed.

(** *** The epsilon of SelectKey *)

Lemma timeEpsilon_is_rounded : round32 (1 # 1000) == timeEpsilon.
Proof. vm_compute. reflexivity. Qed.

Lemma round32_above_epsilon (x : Q) : 1 # 1000 <= x -> timeEpsilon <= round32 x.
Proof.
  intro Hx.
  assert (Hnz : ~ x == 0) by (intro E; rewrite E in Hx; lra).
  assert (Habs : Qabs x == x) by (apply Qabs_pos; lra).
  destruct (ilog2_spec x Hnz) as [Hlo Hhi]. rewrite Habs in Hlo, Hhi.
  assert (Hk : (-10 <= ilog2 x)%Z).
  { apply (ilog2_above x (-10) Hnz). rewrite Habs.
    change (pow2 (-10)) with (1 # 1024). lra. }
  rewrite (round32_nonzero x Hnz).
  assert (Hq : quantum x = (ilog2 x - 23)%Z) by (unfold quantum; lia).
  rewrite Hq. set (k := ilog2 x) in *.
  pose proof (pow2_pos (k - 23)) as Hp.
  destruct (Z.eq_dec k (-10)) as [E|NE].
  - rewrite E. change (pow2 (-10 - 23)) with (1 # 8589934592).
    assert (Hm : (8589935 <= nearestEven (x / (1 # 8589934592)))%Z).
    { change 8589935%Z with (nearestEven ((1 # 1000) / (1 # 8589934592))).
      apply nearestEven_mono.
      apply Qmult_le_compat_r; [exact Hx | discriminate]. }
    rewrite Zle_Qle in Hm. unfold timeEpsilon.
    set (M := inject_Z (nearestEven (x / (1 # 8589934592)))) in *.
    change (inject_Z 8589935) with (8589935 # 1) in Hm.
    assert (E' : 8589935 # 8589934592 == (8589935 # 1) * (1 # 8589934592)) by reflexivity.
    rewrite E'. apply Qmult_le_compat_r; [exact Hm | discriminate].
  - assert (Hk' : (-9 <= k)%Z) by lia.
    assert (Hm : (2 ^ 23 <= nearestEven (x / pow2 (k - 23)))%Z).
    { rewrite <- (nearestEven_int (inject_Z (2 ^ 23)) (2 ^ 23)) at 1 by reflexivity.
      apply nearestEven_mono.
      apply Qle_shift_div_l; [exact Hp|].
      change (inject_Z (2 ^ 23)) with (pow2 23).
      rewrite <- pow2_plus. replace (23 + (k - 23))%Z with k by ring. exact Hlo. }
    rewrite Zle_Qle in Hm.
    apply Qle_trans with (pow2 23 * pow2 (k - 23)).
    + rewrite <- pow2_plus. replace (23 + (k - 23))%Z with k by ring.
      apply Qle_trans with (pow2 (-9)); [vm_compute; discriminate | apply pow2_le; exact Hk'].
    + apply Qmult_le_compat_r; [exact Hm | apply Qlt_le_weak; exact Hp].
Qed.

Lemma round32_below_epsilon (x : Q) : x <= - (1 # 1000) -> round32 x <= - timeEpsilon.
Proof.
  intro Hx.
  assert (Hnz : ~ x == 0) by (intro E; rewrite E in Hx; lra).
  assert (Habs : Qabs x == - x) by (apply Qabs_neg; lra).
  destruct (ilog2_spec x Hnz) as [Hlo Hhi]. rewrite Habs in Hlo, Hhi.
  assert (Hk : (-10 <= ilog2 x)%Z).
  { apply (ilog2_above x (-10) Hnz). rewrite Habs.
    change (pow2 (-10)) with (1 # 1024). lra. }
  rewrite (round32_nonzero x Hnz).
  assert (Hq : quantum x = (ilog2 x - 23)%Z) by (unfold quantum; lia).
  rewrite Hq. set (k := ilog2 x) in *.
  pose proof (pow2_pos (k - 23)) as Hp.
  destruct (Z.eq_dec k (-10)) as [E|NE].
  - rewrite E. change (pow2 (-10 - 23)) with (1 # 8589934592).
    assert (Hm : (nearestEven (x / (1 # 8589934592)) <= -8589935)%Z).
    { change (-8589935)%Z with (nearestEven ((- (1 # 1000)) / (1 # 8589934592))).
      apply nearestEven_mono.
      apply Qmult_le_compat_r; [exact Hx | discriminate]. }
    rewrite Zle_Qle in Hm. unfold timeEpsilon.
    set (M := inject_Z (nearestEven (x / (1 # 8589934592)))) in *.
    change (inject_Z (-8589935)) with (-8589935 # 1) in Hm.
    assert (E' : - (8589935 # 8589934592) == (-8589935 # 1) * (1 # 8589934592)) by reflexivity.
    rewrite E'. apply Qmult_le_compat_r; [exact Hm | discriminate].
  - assert (Hk' : (-9 <= k)%Z) by lia.
    assert (Hm : (nearestEven (x / pow2 (k - 23)) <= - 2 ^ 23)%Z).
    { rewrite <- (nearestEven_int (inject_Z (- 2 ^ 23)) (- 2 ^ 23)) by reflexivity.
      apply nearestEven_mono.
      apply Qle_shift_div_r; [exact Hp|].
      change (inject_Z (- 2 ^ 23)) with (- pow2 23).
      assert (Ek : pow2 k == pow2 23 * pow2 (k - 23)).
      { rewrite <- pow2_plus. replace (23 + (k - 23))%Z with k by ring. reflexivity. }
      lra. }
    rewrite Zle_Qle in Hm.
    apply Qle_trans with (- pow2 23 * pow2 (k - 23)).
    + apply Qmult_le_compat_r; [exact Hm | apply Qlt_le_weak; exact Hp].
    + assert (Ek : pow2 k == pow2 23 * pow2 (k - 23)).
      { rewrite <- pow2_plus. replace (23 + (k - 23))%Z with k by ring. reflexivity. }
      assert (H9 : pow2 (-9) <= pow2 k) by (apply pow2_le; exact Hk').
      change (pow2 (-9)) with (1 # 512) in H9. unfold timeEpsilon. lra.
Qed.

(** A rounded difference below [0.001f] in magnitude comes from an exact
    difference below 1/1000. *)
Lemma rounded_near_is_near (x : Q) :
  Qabs (round32 x) < timeEpsilon -> Qabs x < 1 # 1000.
Proof.
  intro H. apply Qabs_Qlt_condition in H. destruct H as [H1 H2].
  apply Qabs_Qlt_condition. split.
  - apply Qnot_le_lt. intro Hx. pose proof (round32_below_epsilon x Hx). lra.
  - apply Qnot_le_lt. intro Hx. pose proof (round32_above_epsilon x Hx). lra.
Qed.

(** ** Rotation continuity *)

Lemma truncate_close (q : Q) :
  -1 < q - inject_Z (truncate q) /\ q - inject_Z (truncate q) < 1.
Proof.
  destruct q as [a b]. unfold truncate, Qlt, Qminus, Qplus, Qopp, inject_Z. simpl.
  pose proof (Z.quot_rem' a (Z.pos b)) as Hqr.
  pose proof (Z.rem_bound_abs a (Z.pos b) ltac:(lia)) as Hrem.
  split; nia.
Qed.
Lemma fmod_tpl_360 (x : Q) :
  fmod_tpl x 360 == x - inject_Z (truncate (x / 360)) * 360 /\
  -360 < fmod_tpl x 360 /\ fmod_tpl x 360 < 360.
Proof.
  unfold fmod_tpl.
  destruct (truncate_close (x / 360)) as [Hlo Hhi].
  assert (Hx : x == (x / 360) * 360) by field.
  set (q := x / 360) in *. set (N := inject_Z (truncate q)) in *.
  split; [reflexivity|]. split; lra.
Qed.
Lemma alternateWrap_cases (target : Q) :
  (0 <= target /\ RotationSpec.alternateWrap target = target - 360) \/
  (target < 0 /\ RotationSpec.alternateWrap target = target + 360).
Proof.
  unfold RotationSpec.alternateWrap.
  destruct (Qle_bool 0 target) eqn:E.
  - left. split; [apply Qle_bool_iff; exact E | reflexivity].
  - right. split; [|reflexivity].
    apply Qnot_le_lt. intro Hle. apply Qle_bool_iff in Hle. congruence.
Qed.
Lemma turns_is_truncate (previous : Q) :
  RotationSpec.turns previous == inject_Z (truncate (previous / 360)).
Proof.
  unfold RotationSpec.turns, RotationSpec.principal, fmod_tpl. field.
Qed.


Lemma Qltb_proper (a a' b b' : Q) : a == a' -> b == b' -> Qltb a b = Qltb a' b'.
Proof.
  intros Ea Eb.
  destruct (Qltb a b) eqn:E1; destruct (Qltb a' b') eqn:E2; try reflexivity.
  - apply Qltb_lt in E1. rewrite Ea, Eb in E1. apply Qltb_lt in E1. congruence.
  - apply Qltb_lt in E2. rewrite <- Ea, <- Eb in E2. apply Qltb_lt in E2. congruence.
Qed.

Lemma truncate_toward_zero (q : Q) :
  (0 <= q -> 0 <= inject_Z (truncate q) /\ inject_Z (truncate q) <= q) /\
  (q <= 0 -> q <= inject_Z (truncate q) /\ inject_Z (truncate q) <= 0).
Proof.
  destruct q as [a b]. unfold truncate, Qle, inject_Z. simpl.
  pose proof (Z.quot_rem' a (Z.pos b)) as Hqr.
  pose proof (Z.rem_bound_abs a (Z.pos b) ltac:(lia)) as Hrem.
  split; intro Ha.
  - pose proof (Z.rem_nonneg a (Z.pos b) ltac:(lia) ltac:(lia)). split; nia.
  - pose proof (Z.rem_nonpos a (Z.pos b) ltac:(lia) ltac:(lia)). split; nia.
Qed.

(** *** Angles on a binary grid *)

Lemma multipleOfPow2_Qeq (e : Z) (x y : Q) :
  x == y -> multipleOfPow2 e y -> multipleOfPow2 e x.
Proof. intros E [m Hm]. exists m. rewrite E. exact Hm. Qed.

Lemma multipleOfPow2_plus (e : Z) (x y : Q) :
  multipleOfPow2 e x -> multipleOfPow2 e y -> multipleOfPow2 e (x + y).
Proof.
  intros [m Hm] [n Hn]. exists (m + n)%Z. rewrite inject_Z_plus, Hm, Hn. ring.
Qed.

Lemma multipleOfPow2_minus (e : Z) (x y : Q) :
  multipleOfPow2 e x -> multipleOfPow2 e y -> multipleOfPow2 e (x - y).
Proof.
  intros [m Hm] [n Hn]. exists (m - n)%Z.
  unfold Z.sub. rewrite inject_Z_plus, inject_Z_opp, Hm, Hn. ring.
Qed.

Lemma multipleOfPow2_Z (g z : Z) : (0 <= g)%Z -> multipleOfPow2 (- g) (inject_Z z).
Proof.
  intro Hg. exists (z * 2 ^ g)%Z.
  rewrite inject_Z_mult, <- pow2_Z by exact Hg.
  rewrite <- Qmult_assoc, <- pow2_plus. replace (g + - g)%Z with 0%Z by ring.
  change (pow2 0) with 1. ring.
Qed.

Lemma round32_on_grid (g : Z) (x y : Q) :
  (0 <= g <= 14)%Z -> x == y -> multipleOfPow2 (- g) y ->
  Qabs y < pow2 (24 - g) -> round32 x == y.
Proof.
  intros Hg E Hy Hb. rewrite <- E.
  apply (round32_grid (- g)); [lia | apply (multipleOfPow2_Qeq _ _ _ E Hy) |].
  rewrite E. replace (- g + 24)%Z with (24 - g)%Z by ring. exact Hb.
Qed.

(** On the grid of the multiples of [2^-g], and below the magnitude at
    which a sum leaves the 24 bits of a binary32 number, no operation of
    [PreferShortestRotPath] rounds. *)
Lemma PreferShortestRotPath_unrounded (g : Z) (target previous : Q) :
  (0 <= g <= 14)%Z ->
  multipleOfPow2 (- g) target -> multipleOfPow2 (- g) previous ->
  Qabs previous + 541 < pow2 (24 - g) ->
  -181 < target -> target < 181 ->
  PreferShortestRotPath target previous == RotationSpec.unrounded target previous.
Proof.
  intros Hg Gt Gp Hbound Hlo Hhi.
  assert (HB : 1024 <= pow2 (24 - g)).
  { change 1024 with (pow2 10). apply pow2_le. lia. }
  assert (R : forall x y, x == y -> multipleOfPow2 (- g) y ->
                          - pow2 (24 - g) < y -> y < pow2 (24 - g) -> round32 x == y).
  { intros x y E Gy Hy1 Hy2. apply (round32_on_grid g); try assumption.
    apply Qabs_Qlt_condition. split; assumption. }
  set (B := pow2 (24 - g)) in *.
  assert (Hprev : Qabs previous < B - 541) by lra.
  apply Qabs_Qlt_condition in Hprev.
  destruct (fmod_tpl_360 previous) as (Hp & Hplo & Hphi).
  pose proof (turns_is_truncate previous) as Hn.
  destruct (truncate_toward_zero (previous / 360)) as [Tpos Tneg].
  assert (Hq : previous / 360 == previous * (1 # 360)) by field.
  set (k := truncate (previous / 360)) in *.
  set (N := inject_Z k) in *.
  assert (HN : (0 <= N * 360 /\ N * 360 <= previous) \/
               (previous <= N * 360 /\ N * 360 <= 0)).
  { destruct (Qlt_le_dec previous 0) as [Hneg|Hpos].
    - right. destruct Tneg as [T1 T2]; [rewrite Hq; lra|]. rewrite Hq in T1. lra.
    - left. destruct Tpos as [T1 T2]; [rewrite Hq; lra|]. rewrite Hq in T2. lra. }
  assert (HN' : - (B - 541) < N * 360 /\ N * 360 < B - 541) by (destruct HN; lra).
  clear HN. destruct HN' as [HN1 HN2].
  assert (G360 : multipleOfPow2 (- g) (N * 360)).
  { apply (multipleOfPow2_Qeq _ _ (inject_Z (k * 360))).
    - rewrite inject_Z_mult. reflexivity.
    - apply multipleOfPow2_Z. lia. }
  assert (GN : multipleOfPow2 (- g) N) by (apply multipleOfPow2_Z; lia).
  assert (Gc : multipleOfPow2 (- g) 360) by (apply (multipleOfPow2_Z g 360); lia).
  set (p := fmod_tpl previous 360) in *.
  assert (Gpr : multipleOfPow2 (- g) p).
  { apply (multipleOfPow2_Qeq _ _ _ Hp). apply multipleOfPow2_minus; assumption. }
  (* the operations, one by one *)
  assert (E1 : fsub previous p == N * 360).
  { apply R; [lra | exact G360 | lra | lra]. }
  assert (E2 : fdiv (fsub previous p) 360 == N).
  { apply R; [rewrite E1; field | exact GN | lra | lra]. }
  assert (E3 : fmul (fdiv (fsub previous p) 360) 360 == N * 360).
  { apply R; [rewrite E2; reflexivity | exact G360 | lra | lra]. }
  set (alt := RotationSpec.alternateWrap target).
  assert (Halt : -361 < alt /\ alt < 361 /\ multipleOfPow2 (- g) alt /\
                 (if Qle_bool 0 target then fsub target 360 else fadd target 360) == alt).
  { unfold alt, RotationSpec.alternateWrap.
    destruct (Qle_bool 0 target) eqn:Es.
    - apply Qle_bool_iff in Es. split; [lra|]. split; [lra|].
      split; [apply multipleOfPow2_minus; assumption|].
      apply R; [reflexivity | apply multipleOfPow2_minus; assumption | lra | lra].
    - assert (Hneg : target < 0).
      { apply Qnot_le_lt. intro Hle. apply Qle_bool_iff in Hle. congruence. }
      split; [lra|]. split; [lra|].
      split; [apply multipleOfPow2_plus; assumption|].
      apply R; [reflexivity | apply multipleOfPow2_plus; assumption | lra | lra]. }
  destruct Halt as (Ha1 & Ha2 & Ga & E4).
  unfold PreferShortestRotPath. fold p.
  set (altf := if Qle_bool 0 target then fsub target 360 else fadd target 360) in *.
  assert (E5 : fsub altf p == alt - p).
  { apply R; [rewrite E4; reflexivity | apply multipleOfPow2_minus; assumption
             | lra | lra]. }
  assert (E6 : fsub target p == target - p).
  { apply R; [reflexivity | apply multipleOfPow2_minus; assumption | lra | lra]. }
  unfold RotationSpec.unrounded. fold alt. unfold RotationSpec.principal. fold p.
  rewrite (Qltb_proper (fabs (fsub altf p)) (Qabs (alt - p))
                       (fabs (fsub target p)) (Qabs (target - p)))
    by (unfold fabs; first [rewrite E5 | rewrite E6]; reflexivity).
  destruct (Qltb (Qabs (alt - p)) (Qabs (target - p))).
  - apply R; [rewrite E4, E3, Hn; reflexivity | | rewrite Hn; lra | rewrite Hn; lra].
    apply multipleOfPow2_Qeq with (alt + N * 360);
      [rewrite Hn; reflexivity | apply multipleOfPow2_plus; assumption].
  - apply R; [rewrite E3, Hn; reflexivity | | rewrite Hn; lra | rewrite Hn; lra].
    apply multipleOfPow2_Qeq with (target + N * 360);
      [rewrite Hn; reflexivity | apply multipleOfPow2_plus; assumption].
Qed.

Lemma unrounded_cases (degree degree0 : Q) :
  let p := RotationSpec.principal degree0 in
  let alt := RotationSpec.alternateWrap degree in
  let n := RotationSpec.turns degree0 in
  (Qabs (alt - p) < Qabs (degree - p) /\
   RotationSpec.unrounded degree degree0 = alt + n * 360) \/
  (Qabs (degree - p) <= Qabs (alt - p) /\
   RotationSpec.unrounded degree degree0 = degree + n * 360).
Proof.
  cbv zeta. unfold RotationSpec.unrounded.
  destruct (Qltb _ _) eqn:E.
  - left. apply Qltb_lt in E. split; [exact E | reflexivity].
  - right. apply Qltb_ge in E. split; [exact E | reflexivity].
Qed.





(** What the code returns where an operation rounds: the farther candidate
    at a near tie, and an angle 14 degrees off every whole turn from the
    target once the previous angle is beyond 2^27. *)
Example PreferShortestRotPath_rounded_values :
  PreferShortestRotPath (1 # 262144) (-180) == 1 # 262144 /\
  RotationSpec.unrounded (1 # 262144) (-180) == (1 # 262144) - 360 /\
  PreferShortestRotPath 10 1000000000 == 999999744 /\
  RotationSpec.unrounded 10 1000000000 == 999999730.
Proof. vm_compute. repeat split; congruence. Qed.

(** ** Key counts and index translation *)

Lemma GetNumKeys_nonneg (st : SubTrack.t) : (0 <= SubTrack.GetNumKeys st)%Z.
Proof. unfold SubTrack.GetNumKeys. lia. Qed.

Lemma fold_count_shift (sts : list SubTrack.t) (a : Z) :
  fold_left (fun nKeys st => (nKeys + SubTrack.GetNumKeys st)%Z) sts a
  = (a + fold_right Z.add 0 (map SubTrack.GetNumKeys sts))%Z.
Proof.
  revert a. induction sts as [|st r IH]; intro a; simpl.
  - lia.
  - rewrite IH. lia.
Qed.

Lemma GetNumKeys_sum (c : CCompoundSplineTrack) :
  GetNumKeys c = fold_right Z.add 0%Z (map SubTrack.GetNumKeys (m_subTracks c)).
Proof. unfold GetNumKeys. rewrite fold_count_shift. lia. Qed.

Lemma GetSubTrackIndex_from_found (sts : list SubTrack.t) :
  forall i count key,
    (count <= key < count + fold_right Z.add 0 (map SubTrack.GetNumKeys sts))%Z ->
    exists (n : nat) (st : SubTrack.t),
      GetSubTrackIndex_from sts i count key
      = ((i + Z.of_nat n)%Z,
         (key - count - fold_right Z.add 0 (map SubTrack.GetNumKeys (firstn n sts)))%Z)
      /\ nth_error sts n = Some st
      /\ (0 <= key - count
               - fold_right Z.add 0 (map SubTrack.GetNumKeys (firstn n sts))
          < SubTrack.GetNumKeys st)%Z.
Proof.
  induction sts as [|st r IH]; intros i count key Hkey; simpl in *.
  - lia.
  - destruct (key <? count + SubTrack.GetNumKeys st)%Z eqn:E.
    + apply Z.ltb_lt in E. exists O, st. simpl.
      split; [f_equal; lia|]. split; [reflexivity|lia].
    + apply Z.ltb_ge in E.
      destruct (IH (i + 1)%Z (count + SubTrack.GetNumKeys st)%Z key) as (n & st' & Hr & Hn & Hl);
        [lia|].
      exists (S n), st'. simpl. rewrite Hr.
      split; [f_equal; lia|]. split; [exact Hn|lia].
Qed.

Lemma GetSubTrackIndex_from_none (sts : list SubTrack.t) :
  forall i count key,
    (count + fold_right Z.add 0 (map SubTrack.GetNumKeys sts) <= key)%Z ->
    GetSubTrackIndex_from sts i count key = ((-1)%Z, key).
Proof.
  induction sts as [|st r IH]; intros i count key Hkey; simpl in *.
  - reflexivity.
  - pose proof (GetNumKeys_nonneg st).
    assert (Hr : (0 <= fold_right Z.add 0 (map SubTrack.GetNumKeys r))%Z).
    { clear. induction r as [|x r IHr]; simpl; [lia|].
      pose proof (GetNumKeys_nonneg x). lia. }
    destruct (key <? count + SubTrack.GetNumKeys st)%Z eqn:E.
    + apply Z.ltb_lt in E. lia.
    + apply IH. lia.
Qed.

(** C4.  A flat index in [0, GetNumKeys) translates to a sub-track and a
    local index inside that sub-track's keys, and the key counts of the
    sub-tracks in front plus the local index give the flat index back. *)
Theorem GetSubTrackIndex_roundtrip (c : CCompoundSplineTrack) (f : Z) :
  (0 <= f < GetNumKeys c)%Z ->
  exists st,
    subTrackAt c (fst (GetSubTrackIndex c f)) = Some st /\
    (0 <= snd (GetSubTrackIndex c f) < SubTrack.GetNumKeys st)%Z /\
    (keyCountBefore c (fst (GetSubTrackIndex c f)) + snd (GetSubTrackIndex c f))%Z = f.
Proof.
  intro Hf. rewrite GetNumKeys_sum in Hf.
  destruct (GetSubTrackIndex_from_found (m_subTracks c) 0%Z 0%Z f) as (n & st & Hr & Hn & Hl);
    [lia|].
  unfold GetSubTrackIndex. rewrite Hr. simpl fst. simpl snd.
  exists st. unfold subTrackAt, keyCountBefore.
  replace (0 + Z.of_nat n)%Z with (Z.of_nat n) by lia.
  destruct (Z.of_nat n <? 0)%Z eqn:E; [apply Z.ltb_lt in E; lia|].
  rewrite Nat2Z.id. split; [exact Hn|]. split; lia.
Qed.

Lemma GetSubTrackIndex_roundtrip_witness :
  (0 <= 2 < GetNumKeys Examples.trackAB)%Z /\
  exists st,
    subTrackAt Examples.trackAB (fst (GetSubTrackIndex Examples.trackAB 2)) = Some st /\
    (0 <= snd (GetSubTrackIndex Examples.trackAB 2) < SubTrack.GetNumKeys st)%Z /\
    (keyCountBefore Examples.trackAB (fst (GetSubTrackIndex Examples.trackAB 2))
     + snd (GetSubTrackIndex Examples.trackAB 2))%Z = 2%Z.
Proof.
  split.
  - vm_compute. split; [discriminate | reflexivity].
  - apply (GetSubTrackIndex_roundtrip Examples.trackAB 2).
    vm_compute. split; [discriminate | reflexivity].
Defined.

Example GetSubTrackIndex_trackAB :
  map (GetSubTrackIndex Examples.trackAB) [0; 1; 2; 3; 4]%Z
  = [(0, 0); (0, 1); (1, 0); (1, 1); (-1, 4)]%Z.
Proof. reflexivity. Qed.

(** ** Failed index translation *)

(** C9.  At a flat index for which [GetSubTrackIndex] reports -1, [RemoveKey],
    [SetKeyTime] and [SelectKey] return the track as it was, [GetKeyTime]
    returns 0 and [IsKeySelected] returns false. *)
Theorem failed_translation_touches_nothing (c : CCompoundSplineTrack) (key : Z) :
  fst (GetSubTrackIndex c key) = (-1)%Z ->
  RemoveKey c key = c /\
  (forall time, SetKeyTime c key time = c) /\
  (forall select, SelectKey c key select = c) /\
  GetKeyTime c key = 0 /\
  IsKeySelected c key = false.
Proof.
  intro Hi.
  unfold RemoveKey, SetKeyTime, SelectKey, GetKeyTime, IsKeySelected.
  destruct (GetSubTrackIndex c key) as [i l]. simpl in Hi. subst i.
  simpl. repeat split; reflexivity.
Qed.

Lemma failed_translation_touches_nothing_witness :
  fst (GetSubTrackIndex Examples.trackAB 4) = (-1)%Z /\
  RemoveKey Examples.trackAB 4 = Examples.trackAB /\
  (forall time, SetKeyTime Examples.trackAB 4 time = Examples.trackAB) /\
  (forall select, SelectKey Examples.trackAB 4 select = Examples.trackAB) /\
  GetKeyTime Examples.trackAB 4 = 0 /\
  IsKeySelected Examples.trackAB 4 = false.
Proof.
  split; [reflexivity|].
  apply (failed_translation_touches_nothing Examples.trackAB 4). reflexivity.
Defined.

(** The translation fails exactly from [GetNumKeys] on; a negative index is
    not reported as failed. *)
Lemma GetSubTrackIndex_fails_beyond (c : CCompoundSplineTrack) (key : Z) :
  (GetNumKeys c <= key)%Z -> GetSubTrackIndex c key = ((-1)%Z, key).
Proof.
  intro Hk. rewrite GetNumKeys_sum in Hk.
  apply GetSubTrackIndex_from_none. lia.
Qed.

(** ** Quaternion shapes on a track that is not 3-dimensional *)

Section QuatFallback.
Context {spline : SplineInternals} {cryMath : CryMath}.

(** C10.  On a track whose dimension count is not 3, [GetValue] for a
    quaternion yields the identity rotation and [SetValue] for a quaternion
    returns the track as it was. *)
Theorem Quat_dimension_mismatch (c : CCompoundSplineTrack) (time : Q)
  (value : Quat) (bDefault : bool) :
  m_nDimensions c <> 3%Z ->
  GetValue_Quat c time = Quat_identity /\
  SetValue_Quat c time value bDefault = c.
Proof.
  unfold m_nDimensions, GetValue_Quat, SetValue_Quat.
  destruct (m_subTracks c) as [|s0 [|s1 [|s2 [|s3 r]]]]; simpl; intro Hd;
    try (split; reflexivity).
  exfalso. apply Hd. reflexivity.
Qed.
End QuatFallback.

Lemma Quat_dimension_mismatch_witness :
  m_nDimensions Examples.trackAB <> 3%Z /\
  GetValue_Quat (spline := Concrete.stepSpline) (cryMath := Concrete.smallAngles)
    Examples.trackAB 1 = Quat_identity /\
  SetValue_Quat (spline := Concrete.stepSpline) (cryMath := Concrete.smallAngles)
    Examples.trackAB 1 (mkQuat (mkVec3 0 0 (1 # 2)) 1) false = Examples.trackAB.
Proof.
  split; [vm_compute; discriminate|].
  apply (@Quat_dimension_mismatch Concrete.stepSpline Concrete.smallAngles).
  vm_compute. discriminate.
Defined.

(** ** The call shapes of GetValue and SetValue *)

Lemma Vec3_get_set (v : Vec3) (i k : Z) (a : Q) :
  (0 <= k < 3)%Z ->
  Vec3_get (Vec3_set v i a) k = if (i =? k)%Z then a else Vec3_get v k.
Proof.
  intro Hk. unfold Vec3_get, Vec3_set.
  destruct (i =? 0)%Z eqn:E0; destruct (i =? 1)%Z eqn:E1; destruct (i =? 2)%Z eqn:E2;
    destruct (k =? 0)%Z eqn:K0; destruct (k =? 1)%Z eqn:K1;
    destruct (i =? k)%Z eqn:Eik; simpl; try reflexivity; lia.
Qed.

Lemma Vec4_get_set (v : Vec4) (i k : Z) (a : Q) :
  (0 <= k < 4)%Z ->
  Vec4_get (Vec4_set v i a) k = if (i =? k)%Z then a else Vec4_get v k.
Proof.
  intro Hk. unfold Vec4_get, Vec4_set.
  destruct (i =? 0)%Z eqn:E0; destruct (i =? 1)%Z eqn:E1; destruct (i =? 2)%Z eqn:E2;
    destruct (i =? 3)%Z eqn:E3;
    destruct (k =? 0)%Z eqn:K0; destruct (k =? 1)%Z eqn:K1; destruct (k =? 2)%Z eqn:K2;
    destruct (i =? k)%Z eqn:Eik; simpl; try reflexivity; lia.
Qed.

Section CallShapes.
Context {spline : SplineInternals}.

Lemma nth_error_SetValue_components (component : Z -> Q) (time : Q)
  (bDefault applyMultiplier : bool) (sts : list SubTrack.t) :
  forall (j : Z) (i : nat) (st : SubTrack.t),
    nth_error sts i = Some st ->
    nth_error (SetValue_components sts j component time bDefault applyMultiplier) i
    = Some (SubTrack.SetValue st time (component (j + Z.of_nat i)%Z)
              bDefault applyMultiplier).
Proof.
  induction sts as [|s r IH]; intros j i st Hi.
  - destruct i; discriminate.
  - destruct i as [|i]; simpl in *.
    + injection Hi as ->. do 3 f_equal. lia.
    + rewrite (IH (j + 1)%Z i st Hi). do 3 f_equal. lia.
Qed.

Lemma GetValue_Vec3_from_skip (time : Q) (applyMultiplier : bool)
  (sts : list SubTrack.t) :
  forall (j k : Z) (v : Vec3),
    (0 <= k < j)%Z ->
    Vec3_get (GetValue_Vec3_from sts j time v applyMultiplier) k = Vec3_get v k.
Proof.
  induction sts as [|s r IH]; intros j k v Hk; simpl.
  - reflexivity.
  - rewrite IH by lia.
    destruct (Z_lt_dec k 3) as [Hk3|Hk3].
    + rewrite Vec3_get_set by lia.
      destruct (j =? k)%Z eqn:E; [apply Z.eqb_eq in E; lia | reflexivity].
    + unfold Vec3_get, Vec3_set.
      destruct (j =? 0)%Z eqn:E0; [apply Z.eqb_eq in E0; lia|].
      destruct (j =? 1)%Z eqn:E1; [apply Z.eqb_eq in E1; lia|].
      destruct (k =? 0)%Z eqn:K0; [apply Z.eqb_eq in K0; lia|].
      destruct (k =? 1)%Z eqn:K1; [apply Z.eqb_eq in K1; lia|].
      destruct (j =? 2)%Z eqn:E2; [apply Z.eqb_eq in E2; lia | reflexivity].
Qed.

Lemma GetValue_Vec3_from_component (time : Q) (applyMultiplier : bool)
  (sts : list SubTrack.t) :
  forall (j : Z) (i : nat) (v : Vec3) (st : SubTrack.t),
    (0 <= j)%Z -> (j + Z.of_nat i < 3)%Z ->
    nth_error sts i = Some st ->
    Vec3_get (GetValue_Vec3_from sts j time v applyMultiplier) (j + Z.of_nat i)
    = SubTrack.GetValue st time applyMultiplier.
Proof.
  induction sts as [|s r IH]; intros j i v st Hj Hi Hn.
  - destruct i; discriminate.
  - destruct i as [|i]; simpl in *.
    + injection Hn as ->. replace (j + 0)%Z with j by lia.
      rewrite GetValue_Vec3_from_skip by lia.
      rewrite Vec3_get_set by lia. rewrite Z.eqb_refl. reflexivity.
    + replace (j + Z.pos (Pos.of_succ_nat i))%Z with (j + 1 + Z.of_nat i)%Z by lia.
      apply IH; [lia | lia | exact Hn].
Qed.

Lemma GetValue_Vec4_from_skip (time : Q) (applyMultiplier : bool)
  (sts : list SubTrack.t) :
  forall (j k : Z) (v : Vec4),
    (0 <= k < j)%Z -> (k < 4)%Z ->
    Vec4_get (GetValue_Vec4_from sts j time v applyMultiplier) k = Vec4_get v k.
Proof.
  induction sts as [|s r IH]; intros j k v Hk Hk4; simpl.
  - reflexivity.
  - rewrite IH by lia. rewrite Vec4_get_set by lia.
    destruct (j =? k)%Z eqn:E; [apply Z.eqb_eq in E; lia | reflexivity].
Qed.

Lemma GetValue_Vec4_from_component (time : Q) (applyMultiplier : bool)
  (sts : list SubTrack.t) :
  forall (j : Z) (i : nat) (v : Vec4) (st : SubTrack.t),
    (0 <= j)%Z -> (j + Z.of_nat i < 4)%Z ->
    nth_error sts i = Some st ->
    Vec4_get (GetValue_Vec4_from sts j time v applyMultiplier) (j + Z.of_nat i)
    = SubTrack.GetValue st time applyMultiplier.
Proof.
  induction sts as [|s r IH]; intros j i v st Hj Hi Hn.
  - destruct i; discriminate.
  - destruct i as [|i]; simpl in *.
    + injection Hn as ->. replace (j + 0)%Z with j by lia.
      rewrite GetValue_Vec4_from_skip by lia.
      rewrite Vec4_get_set by lia. rewrite Z.eqb_refl. reflexivity.
    + replace (j + Z.pos (Pos.of_succ_nat i))%Z with (j + 1 + Z.of_nat i)%Z by lia.
      apply IH; [lia | lia | exact Hn].
Qed.

(** C8, as the code has it.  The vector shapes mirror each other: component
    [i] is written to sub-track [i] and read back from sub-track [i].  The
    float shape does not: [GetValue] reads the first active sub-track only,
    [SetValue] writes the value to every active sub-track. *)
Theorem SetValue_float_writes_every_subtrack (c : CCompoundSplineTrack)
  (time : Q) (bDefault applyMultiplier : bool) (i : nat) (st : SubTrack.t) :
  nth_error (m_subTracks c) i = Some st ->
  (forall value : Q,
      nth_error (m_subTracks (SetValue_float c time value bDefault applyMultiplier)) i
      = Some (SubTrack.SetValue st time value bDefault applyMultiplier)) /\
  (forall value : Q,
      i = O ->
      GetValue_float c time value applyMultiplier
      = SubTrack.GetValue st time applyMultiplier) /\
  (forall value : Vec3,
      nth_error (m_subTracks (SetValue_Vec3 c time value bDefault applyMultiplier)) i
      = Some (SubTrack.SetValue st time (Vec3_get value (Z.of_nat i))
                bDefault applyMultiplier)) /\
  (forall value : Vec3,
      (i < 3)%nat ->
      Vec3_get (GetValue_Vec3 c time value applyMultiplier) (Z.of_nat i)
      = SubTrack.GetValue st time applyMultiplier) /\
  (forall value : Vec4,
      nth_error (m_subTracks (SetValue_Vec4 c time value bDefault applyMultiplier)) i
      = Some (SubTrack.SetValue st time (Vec4_get value (Z.of_nat i))
                bDefault applyMultiplier)) /\
  (forall value : Vec4,
      (i < 4)%nat ->
      Vec4_get (GetValue_Vec4 c time value applyMultiplier) (Z.of_nat i)
      = SubTrack.GetValue st time applyMultiplier).
Proof.
  intro Hi. repeat split.
  - intro value. unfold SetValue_float. simpl.
    rewrite nth_error_map, Hi. reflexivity.
  - intros value ->. unfold GetValue_float.
    destruct (m_subTracks c) as [|s r]; [discriminate|].
    simpl in Hi. injection Hi as ->. reflexivity.
  - intro value. unfold SetValue_Vec3. simpl.
    apply (nth_error_SetValue_components _ _ _ _ _ 0%Z i st Hi).
  - intros value Hi3. unfold GetValue_Vec3.
    apply (GetValue_Vec3_from_component _ _ _ 0%Z i value st); [lia | lia | exact Hi].
  - intro value. unfold SetValue_Vec4. simpl.
    apply (nth_error_SetValue_components _ _ _ _ _ 0%Z i st Hi).
  - intros value Hi4. unfold GetValue_Vec4.
    apply (GetValue_Vec4_from_component _ _ _ 0%Z i value st); [lia | lia | exact Hi].
Qed.
End CallShapes.

Example SetValue_float_trackAB :
  m_subTracks (SetValue_float (spline := Concrete.stepSpline)
                 Examples.trackAB 0 5 false false)
  = [ [mkKey 0 5 false; mkKey 2 12 false];
      [mkKey 0 5 false; mkKey 1 21 false; mkKey 3 23 false] ].
Proof. reflexivity. Qed.

(** The float shape of [SetValue] does not stop at the first sub-track: on
    the two-dimensional example it creates a key on the second one. *)
Lemma SetValue_float_first_only_fails :
  ~ (forall (c : CCompoundSplineTrack) (time value : Q)
            (bDefault applyMultiplier : bool) (i : nat),
        (1 <= i)%nat ->
        nth_error (m_subTracks (SetValue_float (spline := Concrete.stepSpline)
                                  c time value bDefault applyMultiplier)) i
        = nth_error (m_subTracks c) i).
Proof.
  intro Hclaim.
  specialize (Hclaim Examples.trackAB 0 5 false false 1%nat (le_n 1)).
  vm_compute in Hclaim. discriminate Hclaim.
Qed.

Lemma SetValue_float_writes_every_subtrack_witness :
  nth_error (m_subTracks Examples.trackAB) 1
  = Some [mkKey 1 21 false; mkKey 3 23 false] /\
  nth_error (m_subTracks (SetValue_float (spline := Concrete.stepSpline)
                            Examples.trackAB 0 5 false false)) 1
  = Some (SubTrack.SetValue (spline := Concrete.stepSpline)
            [mkKey 1 21 false; mkKey 3 23 false] 0 5 false false).
Proof.
  split; [reflexivity|].
  apply (SetValue_float_writes_every_subtrack (spline := Concrete.stepSpline)
           Examples.trackAB 0 false false 1
           [mkKey 1 21 false; mkKey 3 23 false]).
  reflexivity.
Defined.

(** ** Sub-track keys by local index *)

Lemma keyAt_of_nat (st : SubTrack.t) (n : nat) :
  SubTrack.keyAt st (Z.of_nat n) = nth_error st n.
Proof.
  unfold SubTrack.keyAt.
  destruct (Z.of_nat n <? 0)%Z eqn:E; [apply Z.ltb_lt in E; lia|].
  rewrite Nat2Z.id. reflexivity.
Qed.

Lemma GetKeyTime_nth (st : SubTrack.t) (n : nat) (k : IKey) :
  nth_error st n = Some k -> SubTrack.GetKeyTime st (Z.of_nat n) = keyTime k.
Proof.
  intro Hn. unfold SubTrack.GetKeyTime. rewrite keyAt_of_nat, Hn. reflexivity.
Qed.

Lemma nth_error_in_range {A : Type} (l : list A) (n : nat) :
  (n < length l)%nat -> exists x, nth_error l n = Some x.
Proof.
  intro Hn. destruct (nth_error l n) as [x|] eqn:E; [exists x; reflexivity|].
  apply nth_error_None in E. lia.
Qed.

(** ** The flat key order *)

Lemma length_concat_counts (sts : list SubTrack.t) :
  Z.of_nat (length (concat sts))
  = fold_right Z.add 0%Z (map SubTrack.GetNumKeys sts).
Proof.
  induction sts as [|st r IH]; simpl; [reflexivity|].
  rewrite length_app, Nat2Z.inj_add, IH. reflexivity.
Qed.

Lemma nth_error_concat_at (sts : list SubTrack.t) :
  forall (n l : nat) (st : SubTrack.t),
    nth_error sts n = Some st -> (l < length st)%nat ->
    nth_error (concat sts) (length (concat (firstn n sts)) + l) = nth_error st l.
Proof.
  induction sts as [|s r IH]; intros n l st Hn Hl.
  - destruct n; discriminate.
  - destruct n as [|n]; simpl in *.
    + injection Hn as ->. rewrite nth_error_app1 by exact Hl. reflexivity.
    + rewrite length_app, <- Nat.add_assoc.
      rewrite nth_error_app2 by lia.
      replace (length s + (length (concat (firstn n r)) + l) - length s)%nat
        with (length (concat (firstn n r)) + l)%nat by lia.
      apply IH; assumption.
Qed.

(** The time [GetKeyTime] reports at a valid flat index is the time of the
    key at that position of the sub-tracks' keys laid end to end. *)
Lemma GetKeyTime_flat (c : CCompoundSplineTrack) (j : Z) :
  (0 <= j < GetNumKeys c)%Z ->
  exists k, nth_error (concat (m_subTracks c)) (Z.to_nat j) = Some k /\
            GetKeyTime c j = keyTime k.
Proof.
  intro Hj. rewrite GetNumKeys_sum in Hj.
  destruct (GetSubTrackIndex_from_found (m_subTracks c) 0%Z 0%Z j) as (n & st & Hr & Hn & Hl);
    [lia|].
  unfold GetKeyTime, GetSubTrackIndex. rewrite Hr.
  replace (0 + Z.of_nat n)%Z with (Z.of_nat n) by lia.
  destruct (Z.of_nat n <? 0)%Z eqn:E; [apply Z.ltb_lt in E; lia|].
  unfold subTrackAt. rewrite E, Nat2Z.id, Hn.
  rewrite <- length_concat_counts in Hl.
  rewrite <- length_concat_counts.
  set (before := length (concat (firstn n (m_subTracks c)))) in *.
  set (l := (j - 0 - Z.of_nat before)%Z) in *.
  assert (Hll : (Z.to_nat l < length st)%nat).
  { unfold SubTrack.GetNumKeys in Hl. lia. }
  destruct (nth_error_in_range st (Z.to_nat l) Hll) as [k Hk].
  exists k. split.
  - replace (Z.to_nat j) with (before + Z.to_nat l)%nat by lia.
    unfold before. rewrite (nth_error_concat_at _ n (Z.to_nat l) st Hn Hll). exact Hk.
  - replace l with (Z.of_nat (Z.to_nat l)) by lia.
    apply GetKeyTime_nth. exact Hk.
Qed.

(** Flat indices grow with the sub-track index. *)
Lemma GetSubTrackIndex_from_lower (sts : list SubTrack.t) :
  forall i count key,
    (count <= key < count + fold_right Z.add 0 (map SubTrack.GetNumKeys sts))%Z ->
    (i <= fst (GetSubTrackIndex_from sts i count key))%Z.
Proof.
  intros i count key Hk.
  destruct (GetSubTrackIndex_from_found sts i count key Hk) as (n & st & Hr & _).
  rewrite Hr. simpl. lia.
Qed.

Lemma GetSubTrackIndex_from_mono (sts : list SubTrack.t) :
  forall i count a b,
    (count <= a)%Z -> (a <= b)%Z ->
    (b < count + fold_right Z.add 0 (map SubTrack.GetNumKeys sts))%Z ->
    (fst (GetSubTrackIndex_from sts i count a)
     <= fst (GetSubTrackIndex_from sts i count b))%Z.
Proof.
  induction sts as [|st r IH]; intros i count a b Ha Hab Hb; simpl in *.
  - lia.
  - destruct (a <? count + SubTrack.GetNumKeys st)%Z eqn:Ea;
      destruct (b <? count + SubTrack.GetNumKeys st)%Z eqn:Eb; simpl.
    + lia.
    + apply Z.ltb_ge in Eb.
      pose proof (GetSubTrackIndex_from_lower r (i + 1)%Z
                    (count + SubTrack.GetNumKeys st)%Z b) as Hl.
      lia.
    + apply Z.ltb_lt in Eb. apply Z.ltb_ge in Ea. lia.
    + apply Z.ltb_ge in Ea. apply IH; lia.
Qed.

Lemma GetSubTrackIndex_mono (c : CCompoundSplineTrack) (a b : Z) :
  (0 <= a)%Z -> (a <= b)%Z -> (b < GetNumKeys c)%Z ->
  (fst (GetSubTrackIndex c a) <= fst (GetSubTrackIndex c b))%Z.
Proof.
  intros Ha Hab Hb. rewrite GetNumKeys_sum in Hb.
  apply GetSubTrackIndex_from_mono; lia.
Qed.

(** ** NextKeyByTime *)

Section NextKey.
Variable time : Q.

Lemma firstLater_seq (st : SubTrack.t) :
  forall (n a : nat),
    (a + n = length st)%nat ->
    match firstLater st time (map Z.of_nat (seq a n)) with
    | None =>
        forall (j : nat) (kj : IKey),
          (a <= j)%nat -> nth_error st j = Some kj -> ~ time < keyTime kj
    | Some (k, t) =>
        exists (m : nat) (km : IKey),
          k = Z.of_nat m /\ (a <= m)%nat /\ nth_error st m = Some km /\
          keyTime km = t /\ time < t /\
          forall (j : nat) (kj : IKey),
            (a <= j < m)%nat -> nth_error st j = Some kj -> ~ time < keyTime kj
    end.
Proof.
  induction n as [|n IH]; intros a Han; simpl.
  - intros j kj Hj Hn.
    assert (j < length st)%nat by (apply nth_error_Some; congruence). lia.
  - destruct (nth_error_in_range st a) as [ka Hka]; [lia|].
    rewrite (GetKeyTime_nth _ _ _ Hka).
    destruct (Qltb time (keyTime ka)) eqn:E.
    + apply Qltb_lt in E. exists a, ka.
      repeat split; try assumption; try lia.
    + apply Qltb_ge in E.
      specialize (IH (S a)). 
      destruct (firstLater st time (map Z.of_nat (seq (S a) n))) as [[k t]|].
      * destruct IH as (m & km & Hk & Hm & Hnm & Ht & Hlt & Hfirst); [lia|].
        exists m, km. repeat split; try assumption; try lia.
        intros j kj Hj Hnj.
        destruct (Nat.eq_dec j a) as [->|Hne].
        -- rewrite Hka in Hnj. injection Hnj as <-. lra.
        -- apply (Hfirst j kj); [lia | exact Hnj].
      * intros j kj Hj Hnj.
        destruct (Nat.eq_dec j a) as [->|Hne].
        -- rewrite Hka in Hnj. injection Hnj as <-. lra.
        -- apply (IH ltac:(lia) j kj); [lia | exact Hnj].
Qed.

Lemma nextKey_step (P : list IKey) (st : SubTrack.t) (result : Z) (timeNext : Q) :
  sortedByTime st -> belowFltMax st ->
  nextKeyInvariant time P result timeNext ->
  nextKeyInvariant time (P ++ st)
    (fst match firstLater st time (keyIndices st) with
         | Some (k, t) =>
             if Qltb t timeNext then ((Z.of_nat (length P) + k)%Z, t)
             else (result, timeNext)
         | None => (result, timeNext)
         end)
    (snd match firstLater st time (keyIndices st) with
         | Some (k, t) =>
             if Qltb t timeNext then ((Z.of_nat (length P) + k)%Z, t)
             else (result, timeNext)
         | None => (result, timeNext)
         end).
Proof.
  intros Hsorted Hmax Hinv.
  pose proof (firstLater_seq st (length st) 0 eq_refl) as Hfl.
  unfold keyIndices.
  assert (Hsplit : forall (j : nat) (kj : IKey),
             nth_error (P ++ st) j = Some kj ->
             ((j < length P)%nat /\ nth_error P j = Some kj) \/
             ((length P <= j)%nat /\ nth_error st (j - length P) = Some kj)).
  { intros j kj Hj. destruct (Nat.lt_ge_cases j (length P)) as [Hlt|Hge].
    - left. split; [exact Hlt|]. rewrite nth_error_app1 in Hj; assumption.
    - right. split; [exact Hge|]. rewrite nth_error_app2 in Hj; assumption. }
  destruct (firstLater st time (map Z.of_nat (seq 0 (length st)))) as [[k t]|].
  - destruct Hfl as (m & km & Hk & _ & Hnm & Ht & Hlt & Hfirst).
    assert (Hlater : forall (j : nat) (kj : IKey),
               nth_error st j = Some kj -> time < keyTime kj ->
               (m <= j)%nat /\ t <= keyTime kj).
    { intros j kj Hnj Hl.
      assert (Hmj : (m <= j)%nat).
      { destruct (Nat.lt_ge_cases j m) as [Hjm|Hjm]; [|exact Hjm].
        exfalso. apply (Hfirst j kj); [lia | exact Hnj | exact Hl]. }
      split; [exact Hmj|]. rewrite <- Ht.
      apply (Hsorted m j km kj Hmj Hnm Hnj). }
    destruct (Qltb t timeNext) eqn:E; simpl.
    + apply Qltb_lt in E. right. exists (length P + m)%nat, km.
      split; [lia|]. split.
      { rewrite nth_error_app2 by lia.
        replace (length P + m - length P)%nat with m by lia. exact Hnm. }
      split; [exact Ht|]. split; [exact Hlt|].
      intros j kj Hj Hl.
      destruct (Hsplit j kj Hj) as [[HjP HnP] | [HjP Hnst]].
      * left. destruct Hinv as [(_ & _ & Hnone) | (m0 & km0 & _ & _ & _ & _ & Hmin)].
        -- exfalso. apply (Hnone j kj HnP Hl).
        -- destruct (Hmin j kj HnP Hl) as [Hlt0 | [Heq0 _]]; lra.
      * destruct (Hlater _ _ Hnst Hl) as [Hmj Hle].
        destruct (Qlt_le_dec t (keyTime kj)) as [Hlt1|Hge1].
        -- left. exact Hlt1.
        -- right. split; [lra | lia].
    + apply Qltb_ge in E.
      destruct Hinv as [(_ & Htn & _) | (m0 & km0 & Hres & Hn0 & Ht0 & Hlt0 & Hmin)].
      * exfalso. subst timeNext.
        assert (Hin : In km st) by (eapply nth_error_In; exact Hnm).
        specialize (Hmax km Hin). rewrite Ht in Hmax. lra.
      * right. exists m0, km0.
        assert (Hm0 : (m0 < length P)%nat) by (apply nth_error_Some; congruence).
        split; [exact Hres|].
        split; [rewrite nth_error_app1 by exact Hm0; exact Hn0|].
        split; [exact Ht0|]. split; [exact Hlt0|].
        intros j kj Hj Hl.
        destruct (Hsplit j kj Hj) as [[HjP HnP] | [HjP Hnst]].
        -- apply (Hmin j kj HnP Hl).
        -- destruct (Hlater _ _ Hnst Hl) as [Hmj Hle].
           destruct (Qlt_le_dec timeNext (keyTime kj)) as [Hlt1|Hge1].
           ++ left. exact Hlt1.
           ++ right. split; [lra | lia].
  - simpl.
    destruct Hinv as [(Hres & Htn & Hnone) | (m0 & km0 & Hres & Hn0 & Ht0 & Hlt0 & Hmin)].
    + left. split; [exact Hres|]. split; [exact Htn|].
      intros j kj Hj.
      destruct (Hsplit j kj Hj) as [[HjP HnP] | [HjP Hnst]].
      * apply (Hnone j kj HnP).
      * apply (Hfl _ kj (Nat.le_0_l _) Hnst).
    + right. exists m0, km0.
      assert (Hm0 : (m0 < length P)%nat) by (apply nth_error_Some; congruence).
      split; [exact Hres|].
      split; [rewrite nth_error_app1 by exact Hm0; exact Hn0|].
      split; [exact Ht0|]. split; [exact Hlt0|].
      intros j kj Hj Hl.
      destruct (Hsplit j kj Hj) as [[HjP HnP] | [HjP Hnst]].
      * apply (Hmin j kj HnP Hl).
      * exfalso. apply (Hfl _ kj (Nat.le_0_l _) Hnst Hl).
Qed.

Lemma NextKeyByTime_from_invariant (sts : list SubTrack.t) :
  forall (P : list IKey) (result : Z) (timeNext : Q),
    Forall sortedByTime sts -> Forall belowFltMax sts ->
    nextKeyInvariant time P result timeNext ->
    exists tn,
      nextKeyInvariant time (P ++ concat sts)
        (NextKeyByTime_from sts time (Z.of_nat (length P)) result timeNext) tn.
Proof.
  induction sts as [|st r IH]; intros P result timeNext Hs Hm Hinv.
  - simpl. rewrite app_nil_r. exists timeNext. exact Hinv.
  - inversion Hs as [|? ? Hs1 Hs2]; subst. inversion Hm as [|? ? Hm1 Hm2]; subst.
    pose proof (nextKey_step P st result timeNext Hs1 Hm1 Hinv) as Hstep.
    simpl.
    destruct (match firstLater st time (keyIndices st) with
              | Some (k, t) =>
                  if Qltb t timeNext then ((Z.of_nat (length P) + k)%Z, t)
                  else (result, timeNext)
              | None => (result, timeNext)
              end) as [result' timeNext'] eqn:Estep.
    simpl in Hstep.
    destruct (IH (P ++ st) result' timeNext' Hs2 Hm2 Hstep) as [tn Htn].
    exists tn. rewrite <- app_assoc in Htn.
    rewrite length_app, Nat2Z.inj_add in Htn. exact Htn.
Qed.

End NextKey.

Lemma GetKeyTime_flat_at (c : CCompoundSplineTrack) (j : nat) (k : IKey) :
  nth_error (concat (m_subTracks c)) j = Some k ->
  (0 <= Z.of_nat j < GetNumKeys c)%Z /\ GetKeyTime c (Z.of_nat j) = keyTime k.
Proof.
  intro Hj.
  assert (Hlt : (j < length (concat (m_subTracks c)))%nat)
    by (apply nth_error_Some; congruence).
  assert (Hrange : (0 <= Z.of_nat j < GetNumKeys c)%Z).
  { rewrite GetNumKeys_sum, <- length_concat_counts. lia. }
  split; [exact Hrange|].
  destruct (GetKeyTime_flat c (Z.of_nat j) Hrange) as (k' & Hk' & Ht).
  rewrite Nat2Z.id, Hj in Hk'. injection Hk' as <-. exact Ht.
Qed.

Lemma sortedByTime_nil : sortedByTime [].
Proof. intros i j ki kj _ Hi. destruct i; discriminate. Qed.

Lemma sortedByTime_single (x : IKey) : sortedByTime [x].
Proof.
  intros i j ki kj _ Hi Hj.
  destruct i as [|i]; [|destruct i; discriminate].
  destruct j as [|j]; [|destruct j; discriminate].
  simpl in *. injection Hi as <-. injection Hj as <-. apply Qle_refl.
Qed.

Lemma sortedByTime_cons (x y : IKey) (r : list IKey) :
  keyTime x <= keyTime y -> sortedByTime (y :: r) -> sortedByTime (x :: y :: r).
Proof.
  intros Hxy Hs i j ki kj Hij Hi Hj.
  destruct i as [|i].
  - simpl in Hi. injection Hi as <-.
    destruct j as [|j].
    + simpl in Hj. injection Hj as <-. apply Qle_refl.
    + simpl in Hj. apply Qle_trans with (keyTime y); [exact Hxy|].
      apply (Hs O j y kj); [lia | reflexivity | exact Hj].
  - destruct j as [|j]; [lia|].
    simpl in Hi, Hj. apply (Hs i j ki kj); [lia | exact Hi | exact Hj].
Qed.

(** C5, as the code has it.  On sub-tracks in ascending time order whose key
    times are all below [FLT_MAX], [NextKeyByTime] from a valid flat index
    with time T returns -1 when no key is later than T, and otherwise the
    flat index of a key with the earliest time later than T: among the keys
    with that time the one of lowest flat index, hence of lowest sub-track
    index.  With sub-track A at times 0, 2 and B at times 1, 3, from the key
    at time 0 it returns the key at time 1 of B. *)
Theorem NextKeyByTime_earliest_later :
  (forall (c : CCompoundSplineTrack) (key : Z),
      Forall sortedByTime (m_subTracks c) ->
      Forall belowFltMax (m_subTracks c) ->
      (0 <= key < GetNumKeys c)%Z ->
      earliestLaterKey c (GetKeyTime c key) (NextKeyByTime c key)) /\
  (GetKeyTime Examples.trackAB 0 == 0 /\
   NextKeyByTime Examples.trackAB 0 = 2%Z /\
   GetSubTrackIndex Examples.trackAB 2 = (1%Z, 0%Z) /\
   GetKeyTime Examples.trackAB 2 == 1).
Proof.
  split.
  - intros c key Hsorted Hmax _. unfold earliestLaterKey.
    assert (Hinit : nextKeyInvariant (GetKeyTime c key) [] (-1)%Z FLT_MAX).
    { left. split; [reflexivity|]. split; [reflexivity|].
      intros j kj Hj. destruct j; discriminate. }
    destruct (NextKeyByTime_from_invariant (GetKeyTime c key) (m_subTracks c) []
                (-1)%Z FLT_MAX Hsorted Hmax Hinit) as [tn Hinv].
    change (NextKeyByTime_from (m_subTracks c) (GetKeyTime c key)
              (Z.of_nat (length (@nil IKey))) (-1) FLT_MAX)
      with (NextKeyByTime c key) in Hinv.
    simpl app in Hinv.
    revert Hinv. generalize (NextKeyByTime c key). intros r Hinv.
    revert Hinv. generalize (GetKeyTime c key). intros T Hinv.
    split.
    + intro Hnone.
      destruct Hinv as [(Hr & _) | (m & km & Hr & Hm & Htm & Hlt & _)]; [exact Hr|].
      exfalso. destruct (GetKeyTime_flat_at c m km Hm) as [Hrange Ht].
      apply (Hnone (Z.of_nat m) Hrange). rewrite Ht, Htm. exact Hlt.
    + intros (j0 & Hj0 & Hlater0).
      destruct (GetKeyTime_flat c j0 Hj0) as (k0 & Hk0 & Ht0).
      destruct Hinv as [(_ & _ & Hnone) | (m & km & Hr & Hm & Htm & Hlt & Hmin)].
      * exfalso. apply (Hnone _ _ Hk0). rewrite <- Ht0. exact Hlater0.
      * destruct (GetKeyTime_flat_at c m km Hm) as [Hrange Ht].
        rewrite Hr. split; [exact Hrange|].
        split; [rewrite Ht, Htm; exact Hlt|].
        intros j Hj Hlater.
        destruct (GetKeyTime_flat c j Hj) as (kj & Hkj & Htj).
        rewrite Ht, Htm, Htj. rewrite Htj in Hlater.
        destruct (Hmin _ _ Hkj Hlater) as [Hlt1 | [Heq1 Hle1]].
        -- left. exact Hlt1.
        -- right. split; [exact Heq1|].
           assert (Hmj : (Z.of_nat m <= j)%Z) by lia.
           split; [exact Hmj|].
           apply GetSubTrackIndex_mono; lia.
  - vm_compute. repeat split; congruence.
Qed.

Lemma NextKeyByTime_earliest_later_witness :
  Forall sortedByTime (m_subTracks Examples.trackAB) /\
  Forall belowFltMax (m_subTracks Examples.trackAB) /\
  (0 <= 0 < GetNumKeys Examples.trackAB)%Z /\
  earliestLaterKey Examples.trackAB (GetKeyTime Examples.trackAB 0)
    (NextKeyByTime Examples.trackAB 0).
Proof.
  assert (Hs : Forall sortedByTime (m_subTracks Examples.trackAB)).
  { repeat constructor;
      (apply sortedByTime_cons; [vm_compute; discriminate | apply sortedByTime_single]). }
  assert (Hm : Forall belowFltMax (m_subTracks Examples.trackAB)).
  { repeat constructor; intros k [<-|[<-|[]]]; reflexivity. }
  assert (Hk : (0 <= 0 < GetNumKeys Examples.trackAB)%Z).
  { vm_compute. split; [discriminate | reflexivity]. }
  split; [exact Hs|]. split; [exact Hm|]. split; [exact Hk|].
  exact (proj1 NextKeyByTime_earliest_later Examples.trackAB 0%Z Hs Hm Hk).
Defined.

Example NextKeyByTime_trackAB :
  map (NextKeyByTime Examples.trackAB) [0; 1; 2; 3]%Z = [2; 3; 1; -1]%Z.
Proof. reflexivity. Qed.

(** A key stored at time [FLT_MAX] is never returned: the running minimum
    starts at [FLT_MAX] and only a strictly smaller time replaces it.  On the
    example the key at index 1 is later than the key at index 0, yet the
    answer from index 0 is -1. *)
Lemma NextKeyByTime_skips_FLT_MAX :
  ~ (forall (c : CCompoundSplineTrack) (key : Z),
        Forall sortedByTime (m_subTracks c) ->
        (0 <= key < GetNumKeys c)%Z ->
        earliestLaterKey c (GetKeyTime c key) (NextKeyByTime c key)).
Proof.
  intro Hclaim.
  assert (Hs : Forall sortedByTime (m_subTracks Examples.trackMax)).
  { repeat constructor.
    apply sortedByTime_cons; [vm_compute; discriminate | apply sortedByTime_single]. }
  assert (Hk : (0 <= 0 < GetNumKeys Examples.trackMax)%Z).
  { vm_compute. split; [discriminate | reflexivity]. }
  destruct (Hclaim Examples.trackMax 0%Z Hs Hk) as [_ Hsome].
  destruct Hsome as [[Hr _] _].
  - exists 1%Z. split; vm_compute; [split; [discriminate | reflexivity] | reflexivity].
  - vm_compute in Hr. apply Hr. reflexivity.
Qed.

Example NextKeyByTime_trackMax :
  GetKeyTime Examples.trackMax 0 == 0 /\
  GetKeyTime Examples.trackMax 1 == FLT_MAX /\
  NextKeyByTime Examples.trackMax 0 = (-1)%Z.
Proof. vm_compute. repeat split; congruence. Qed.

(** ** SelectKey *)

Lemma nth_error_alterNth (f : IKey -> IKey) (st : SubTrack.t) :
  forall (m j : nat),
    nth_error (SubTrack.alterNth f st m) j
    = if Nat.eqb j m then option_map f (nth_error st j) else nth_error st j.
Proof.
  induction st as [|x r IH]; intros m j.
  - simpl. destruct j; destruct (Nat.eqb _ m); reflexivity.
  - destruct m as [|m]; destruct j as [|j]; simpl; try reflexivity.
    apply IH.
Qed.

Lemma length_alterNth (f : IKey -> IKey) (st : SubTrack.t) (m : nat) :
  length (SubTrack.alterNth f st m) = length st.
Proof.
  revert m. induction st as [|x r IH]; intro m; [reflexivity|].
  destruct m; simpl; [reflexivity | rewrite IH; reflexivity].
Qed.

Lemma SubTrack_SelectKey_of_nat (st : SubTrack.t) (m : nat) (select : bool) :
  SubTrack.SelectKey st (Z.of_nat m) select
  = SubTrack.alterNth (fun x => withSelected x select) st m.
Proof.
  unfold SubTrack.SelectKey, SubTrack.alterKey.
  destruct (Z.of_nat m <? 0)%Z eqn:E; [apply Z.ltb_lt in E; lia|].
  rewrite Nat2Z.id. reflexivity.
Qed.

Lemma firstNear_unique (st : SubTrack.t) (T : Q) (m m' : nat) :
  firstNear st T m -> firstNear st T m' -> m = m'.
Proof.
  intros (km & Hm & Hnear & Hfirst) (km' & Hm' & Hnear' & Hfirst').
  destruct (Nat.lt_trichotomy m m') as [Hlt | [Heq | Hgt]]; [|exact Heq|].
  - exfalso. apply (Hfirst' m km Hlt Hm Hnear).
  - exfalso. apply (Hfirst m' km' Hgt Hm' Hnear').
Qed.

Lemma selectFirstNear_seq (st : SubTrack.t) (T : Q) (select : bool) :
  forall (n a : nat),
    (a + n = length st)%nat ->
    (forall (j : nat) (kj : IKey),
        (j < a)%nat -> nth_error st j = Some kj -> ~ roundedNear T kj) ->
    (exists m,
        firstNear st T m /\
        selectFirstNear st T select (map Z.of_nat (seq a n))
        = SubTrack.alterNth (fun x => withSelected x select) st m)
    \/
    ((forall (j : nat) (kj : IKey), nth_error st j = Some kj -> ~ roundedNear T kj) /\
     selectFirstNear st T select (map Z.of_nat (seq a n)) = st).
Proof.
  induction n as [|n IH]; intros a Han Hbefore; cbn [seq map selectFirstNear].
  - right. split; [|reflexivity].
    intros j kj Hj. apply (Hbefore j kj); [|exact Hj].
    assert (j < length st)%nat by (apply nth_error_Some; congruence). lia.
  - destruct (nth_error_in_range st a) as [ka Hka]; [lia|].
    rewrite (GetKeyTime_nth _ _ _ Hka).
    destruct (Qltb (fabs (fsub (keyTime ka) T)) timeEpsilon) eqn:E.
    + apply Qltb_lt in E. left. exists a. split.
      * exists ka. split; [exact Hka|]. split; [exact E | exact Hbefore].
      * apply SubTrack_SelectKey_of_nat.
    + apply Qltb_ge in E. apply (IH (S a)); [lia|].
      intros j kj Hj Hnj.
      destruct (Nat.eq_dec j a) as [->|Hne].
      * rewrite Hka in Hnj. injection Hnj as <-.
        unfold roundedNear. apply Qle_not_lt. exact E.
      * apply (Hbefore j kj); [lia | exact Hnj].
Qed.

Lemma selectFirstNear_keys (st : SubTrack.t) (T : Q) (select : bool) :
  length (selectFirstNear st T select (keyIndices st)) = length st /\
  forall (m : nat) (km : IKey),
    nth_error st m = Some km ->
    (firstNear st T m ->
     nth_error (selectFirstNear st T select (keyIndices st)) m
     = Some (withSelected km select)) /\
    (~ firstNear st T m ->
     nth_error (selectFirstNear st T select (keyIndices st)) m = Some km).
Proof.
  unfold keyIndices.
  destruct (selectFirstNear_seq st T select (length st) 0 eq_refl) as
    [(m0 & Hfirst0 & ->) | (Hnone & ->)].
  - intros j kj Hj. lia.
  - split; [apply length_alterNth|].
    intros m km Hm. rewrite nth_error_alterNth. split.
    + intro Hfirst.
      assert (Heq : m = m0) by (eapply firstNear_unique; eassumption).
      subst m0. rewrite Nat.eqb_refl, Hm. reflexivity.
    + intro Hnot. destruct (Nat.eqb m m0) eqn:E; [|exact Hm].
      apply Nat.eqb_eq in E. subst m0. contradiction.
  - split; [reflexivity|].
    intros m km Hm. split; [|intros _; exact Hm].
    intros (k & Hk & Hnear & _). exfalso. apply (Hnone m k Hk Hnear).
Qed.

Lemma SelectKey_valid (c : CCompoundSplineTrack) (key : Z) (select : bool) :
  (0 <= key < GetNumKeys c)%Z ->
  SelectKey c key select
  = withSubTracks c
      (map (fun sk => selectFirstNear sk (GetKeyTime c key) select (keyIndices sk))
           (m_subTracks c)).
Proof.
  intro Hk. rewrite GetNumKeys_sum in Hk.
  destruct (GetSubTrackIndex_from_found (m_subTracks c) 0%Z 0%Z key) as (n & st & Hr & Hn & _);
    [lia|].
  unfold SelectKey, GetKeyTime, GetSubTrackIndex. rewrite Hr.
  replace (0 + Z.of_nat n)%Z with (Z.of_nat n) by lia.
  destruct (Z.of_nat n <? 0)%Z eqn:E; [apply Z.ltb_lt in E; lia|].
  unfold subTrackAt. rewrite E, Nat2Z.id, Hn. reflexivity.
Qed.

(** C6, as the code has it.  [SelectKey] at a valid flat index whose key has
    time T gives the flag, in every active sub-track, to the first key that
    passes the code's test against T, the float difference of the two times
    being below [0.001f] in magnitude (at most one key per sub-track, none
    when no key passes), and leaves every other key, and every time and
    value, as it was. *)
Theorem SelectKey_first_near_key (c : CCompoundSplineTrack) (key : Z) (select : bool) :
  (0 <= key < GetNumKeys c)%Z ->
  length (m_subTracks (SelectKey c key select)) = length (m_subTracks c) /\
  forall (n : nat) (st : SubTrack.t),
    nth_error (m_subTracks c) n = Some st ->
    exists st',
      nth_error (m_subTracks (SelectKey c key select)) n = Some st' /\
      length st' = length st /\
      (forall m m' : nat,
          firstNear st (GetKeyTime c key) m -> firstNear st (GetKeyTime c key) m' ->
          m = m') /\
      forall (m : nat) (km : IKey),
        nth_error st m = Some km ->
        (firstNear st (GetKeyTime c key) m ->
         nth_error st' m = Some (withSelected km select)) /\
        (~ firstNear st (GetKeyTime c key) m -> nth_error st' m = Some km).
Proof.
  intro Hk. rewrite (SelectKey_valid c key select Hk). simpl.
  split; [apply length_map|].
  intros n st Hn.
  exists (selectFirstNear st (GetKeyTime c key) select (keyIndices st)).
  split; [rewrite nth_error_map, Hn; reflexivity|].
  destruct (selectFirstNear_keys st (GetKeyTime c key) select) as [Hlen Hkeys].
  split; [exact Hlen|].
  split; [apply firstNear_unique | exact Hkeys].
Qed.

Lemma SelectKey_first_near_key_witness :
  (0 <= 2 < GetNumKeys Examples.trackAB)%Z /\
  length (m_subTracks (SelectKey Examples.trackAB 2 true))
  = length (m_subTracks Examples.trackAB).
Proof.
  split.
  - vm_compute. split; [discriminate | reflexivity].
  - apply (SelectKey_first_near_key Examples.trackAB 2 true).
    vm_compute. split; [discriminate | reflexivity].
Defined.

Example SelectKey_trackNear :
  m_subTracks (SelectKey Examples.trackNear 1 true)
  = [ [mkKey 1 5 true; mkKey (2049 # 2048) 6 false] ].
Proof. vm_compute. reflexivity. Qed.

(** Two keys of one sub-track 2^-11 apart, which is within 0.001 in exact
    and in float arithmetic: selecting the second one (flat index 1) flags
    the first one only; the key at index 1 is within the epsilon of its own
    time and stays unselected.  And the test is the float one: selecting
    from the key at 7 * 2^-37 leaves the key of the other sub-track at
    0.001f unselected, the first and only key of its sub-track within 1/1000
    of that time, because the float difference of the two times is 0.001f
    itself. *)
Lemma SelectKey_not_every_near_key :
  ~ (forall (c : CCompoundSplineTrack) (key : Z) (select : bool)
            (n m : nat) (st st' : SubTrack.t) (km km' : IKey),
        (0 <= key < GetNumKeys c)%Z ->
        nth_error (m_subTracks c) n = Some st ->
        nth_error (m_subTracks (SelectKey c key select)) n = Some st' ->
        nth_error st m = Some km ->
        nth_error st' m = Some km' ->
        nearTime (GetKeyTime c key) km ->
        roundedNear (GetKeyTime c key) km ->
        keySelected km' = select)
  /\
  ~ (forall (c : CCompoundSplineTrack) (key : Z) (select : bool)
            (n m : nat) (st st' : SubTrack.t) (km km' : IKey),
        (0 <= key < GetNumKeys c)%Z ->
        nth_error (m_subTracks c) n = Some st ->
        nth_error (m_subTracks (SelectKey c key select)) n = Some st' ->
        nth_error st m = Some km ->
        nth_error st' m = Some km' ->
        nearTime (GetKeyTime c key) km ->
        (forall (j : nat) (kj : IKey),
            (j < m)%nat -> nth_error st j = Some kj ->
            ~ nearTime (GetKeyTime c key) kj) ->
        keySelected km' = select).
Proof.
  split.
  - intro Hclaim.
    specialize (Hclaim Examples.trackNear 1%Z true 0%nat 1%nat
                  [mkKey 1 5 false; mkKey (2049 # 2048) 6 false]
                  [mkKey 1 5 true; mkKey (2049 # 2048) 6 false]
                  (mkKey (2049 # 2048) 6 false) (mkKey (2049 # 2048) 6 false)).
    assert (Hk : (0 <= 1 < GetNumKeys Examples.trackNear)%Z).
    { vm_compute. split; [discriminate | reflexivity]. }
    assert (Hst' : nth_error (m_subTracks (SelectKey Examples.trackNear 1 true)) 0
                   = Some [mkKey 1 5 true; mkKey (2049 # 2048) 6 false])
      by (vm_compute; reflexivity).
    specialize (Hclaim Hk eq_refl Hst' eq_refl eq_refl).
    assert (Hnear : nearTime (GetKeyTime Examples.trackNear 1)
                      (mkKey (2049 # 2048) 6 false)) by (vm_compute; reflexivity).
    assert (Hrnear : roundedNear (GetKeyTime Examples.trackNear 1)
                       (mkKey (2049 # 2048) 6 false)) by (vm_compute; reflexivity).
    specialize (Hclaim Hnear Hrnear). discriminate Hclaim.
  - intro Hclaim.
    specialize (Hclaim Examples.trackRounded 0%Z true 1%nat 0%nat
                  [mkKey timeEpsilon 2 false] [mkKey timeEpsilon 2 false]
                  (mkKey timeEpsilon 2 false) (mkKey timeEpsilon 2 false)).
    assert (Hk : (0 <= 0 < GetNumKeys Examples.trackRounded)%Z).
    { vm_compute. split; [discriminate | reflexivity]. }
    assert (Hst' : nth_error (m_subTracks (SelectKey Examples.trackRounded 0 true)) 1
                   = Some [mkKey timeEpsilon 2 false])
      by (vm_compute; reflexivity).
    specialize (Hclaim Hk eq_refl Hst' eq_refl eq_refl).
    assert (Hnear : nearTime (GetKeyTime Examples.trackRounded 0)
                      (mkKey timeEpsilon 2 false)) by (vm_compute; reflexivity).
    assert (Hfirst : forall (j : nat) (kj : IKey),
               (j < 0)%nat -> nth_error [mkKey timeEpsilon 2 false] j = Some kj ->
               ~ nearTime (GetKeyTime Examples.trackRounded 0) kj)
      by (intros j kj Hj; lia).
    specialize (Hclaim Hnear Hfirst). discriminate Hclaim.
Qed.

(** The test is the float one: 0.001f and 7 * 2^-37 are less than 1/1000
    apart, but their float difference is 0.001f again, which is not below
    [timeEpsilon]; a key at 0.001f is not selected from a key at
    7 * 2^-37. *)
Example roundedNear_is_not_nearTime :
  nearTime (7 # 137438953472) (mkKey timeEpsilon 0 false) /\
  ~ roundedNear (7 # 137438953472) (mkKey timeEpsilon 0 false) /\
  selectFirstNear [mkKey timeEpsilon 0 false] (7 # 137438953472) true [0%Z]
  = [mkKey timeEpsilon 0 false].
Proof.
  split; [vm_compute; reflexivity|].
  split; [intro H; vm_compute in H; discriminate H | vm_compute; reflexivity].
Qed.

(** ** Values by time on a sub-track *)

Lemma findKeyAt_first (s : SubTrack.t) (t : Q) :
  forall (a : nat) (ka : IKey),
    nth_error s a = Some ka ->
    Qeq_bool (keyTime ka) t = true ->
    (forall (j : nat) (kj : IKey),
        (j < a)%nat -> nth_error s j = Some kj -> Qeq_bool (keyTime kj) t = false) ->
    SubTrack.findKeyAt s t = Some ka /\
    forall v, SubTrack.overwriteAt s t v
              = SubTrack.alterNth (fun x => withValue x v) s a.
Proof.
  induction s as [|x r IH]; intros a ka Ha Heq Hbefore.
  - destruct a; discriminate.
  - destruct a as [|a]; simpl in *.
    + injection Ha as ->. rewrite Heq. split; reflexivity.
    + rewrite (Hbefore O x (Nat.lt_0_succ a) eq_refl).
      destruct (IH a ka Ha Heq) as [Hfind Hover].
      { intros j kj Hj Hnj. apply (Hbefore (S j) kj); [lia | exact Hnj]. }
      split; [exact Hfind|]. intro v. rewrite Hover. reflexivity.
Qed.

Section Offset.
Context {spline : SplineInternals}.

Lemma offsetKey_step (d : Q) (st s : SubTrack.t) (a : nat) :
  distinctTimes st -> (a < length st)%nat ->
  offsetUpTo d a st s ->
  offsetUpTo d (S a) st (offsetKey d s (Z.of_nat a)).
Proof.
  intros Hdistinct Ha [Hlen Hkeys].
  destruct (nth_error_in_range st a Ha) as [ka Hka].
  assert (Hsa : nth_error s a = Some ka).
  { rewrite (Hkeys a ka Hka). rewrite Nat.ltb_irrefl. reflexivity. }
  assert (Hbefore : forall (j : nat) (kj : IKey),
             (j < a)%nat -> nth_error s j = Some kj ->
             Qeq_bool (keyTime kj) (keyTime ka) = false).
  { intros j kj Hj Hnj.
    destruct (nth_error_in_range st j) as [kj0 Hkj0]; [lia|].
    rewrite (Hkeys j kj0 Hkj0) in Hnj.
    assert (Hj' : (j <? a)%nat = true) by (apply Nat.ltb_lt; exact Hj).
    rewrite Hj' in Hnj. injection Hnj as <-. simpl.
    destruct (Qeq_bool (keyTime kj0) (keyTime ka)) eqn:E; [|reflexivity].
    apply Qeq_bool_iff in E.
    pose proof (Hdistinct j a kj0 ka Hkj0 Hka E). lia. }
  destruct (findKeyAt_first s (keyTime ka) a ka Hsa (Qeq_bool_refl _) Hbefore)
    as [Hfind Hover].
  unfold offsetKey, SubTrack.GetValue, SubTrack.SetValue, SubTrack.writeKey.
  rewrite (GetKeyTime_nth _ _ _ Hsa), Hfind, Hover.
  split; [rewrite length_alterNth; exact Hlen|].
  intros m km Hm. rewrite nth_error_alterNth, (Hkeys m km Hm).
  destruct (Nat.eqb m a) eqn:E.
  - apply Nat.eqb_eq in E. subst m.
    rewrite Hka in Hm. injection Hm as <-.
    rewrite Nat.ltb_irrefl.
    assert (Hlt : (a <? S a)%nat = true) by (apply Nat.ltb_lt; lia).
    rewrite Hlt. reflexivity.
  - apply Nat.eqb_neq in E.
    destruct (m <? a)%nat eqn:E1.
    + apply Nat.ltb_lt in E1.
      assert (Hlt : (m <? S a)%nat = true) by (apply Nat.ltb_lt; lia).
      rewrite Hlt. reflexivity.
    + apply Nat.ltb_ge in E1.
      assert (Hlt : (m <? S a)%nat = false) by (apply Nat.ltb_ge; lia).
      rewrite Hlt. reflexivity.
Qed.

Lemma offsetKey_loop (d : Q) (st : SubTrack.t) :
  distinctTimes st ->
  forall (n a : nat) (s : SubTrack.t),
    (a + n = length st)%nat ->
    offsetUpTo d a st s ->
    offsetUpTo d (length st) st
      (fold_left (offsetKey d) (map Z.of_nat (seq a n)) s).
Proof.
  intro Hdistinct. induction n as [|n IH]; intros a s Han Hinv; simpl.
  - replace (length st) with a by lia. exact Hinv.
  - apply (IH (S a)); [lia|].
    apply offsetKey_step; [exact Hdistinct | lia | exact Hinv].
Qed.

Lemma offsetSubTrack_keys (d : Q) (st : SubTrack.t) :
  distinctTimes st -> keysOffsetBy d st (offsetSubTrack d st).
Proof.
  intro Hdistinct.
  assert (Hinit : offsetUpTo d 0 st st).
  { split; [reflexivity|]. intros m km Hm. exact Hm. }
  destruct (offsetKey_loop d st Hdistinct (length st) 0 st eq_refl Hinit)
    as [Hlen Hkeys].
  split; [exact Hlen|].
  intros m km Hm. unfold offsetSubTrack, keyIndices. rewrite (Hkeys m km Hm).
  assert (Hlt : (m <? length st)%nat = true).
  { apply Nat.ltb_lt. apply nth_error_Some. congruence. }
  rewrite Hlt. reflexivity.
Qed.

(** On a 3-dimensional track whose sub-tracks store no two keys at the same
    time, [OffsetKeyPosition] adds the matching component of the offset to
    the stored value of every key of each of the three sub-tracks, at the
    key's own time, creates no key and leaves [GetNumKeys] as it was. *)
Theorem OffsetKeyPosition_adds_offset (c : CCompoundSplineTrack) (offset : Vec3) :
  m_nDimensions c = 3%Z ->
  Forall distinctTimes (m_subTracks c) ->
  GetNumKeys (OffsetKeyPosition c offset) = GetNumKeys c /\
  m_nDimensions (OffsetKeyPosition c offset) = 3%Z /\
  forall (n : nat) (st : SubTrack.t),
    nth_error (m_subTracks c) n = Some st ->
    exists st',
      nth_error (m_subTracks (OffsetKeyPosition c offset)) n = Some st' /\
      keysOffsetBy (Vec3_get offset (Z.of_nat n)) st st'.
Proof.
  intros Hdim Hdistinct.
  unfold m_nDimensions in Hdim. unfold OffsetKeyPosition.
  destruct (m_subTracks c) as [|s0 [|s1 [|s2 [|s3 r]]]] eqn:Ests;
    simpl in Hdim; try lia.
  inversion Hdistinct as [|? ? H0 Hd1]; subst.
  inversion Hd1 as [|? ? H1 Hd2]; subst.
  inversion Hd2 as [|? ? H2 _]; subst.
  pose proof (offsetSubTrack_keys (Vec3_get offset 0) s0 H0) as K0.
  pose proof (offsetSubTrack_keys (Vec3_get offset 1) s1 H1) as K1.
  pose proof (offsetSubTrack_keys (Vec3_get offset 2) s2 H2) as K2.
  split; [|split].
  - rewrite !GetNumKeys_sum. simpl. rewrite Ests. simpl.
    unfold SubTrack.GetNumKeys.
    destruct K0 as [-> _]. destruct K1 as [-> _]. destruct K2 as [-> _].
    reflexivity.
  - reflexivity.
  - intros n st Hn. simpl.
    destruct n as [|[|[|n]]]; simpl in Hn.
    + injection Hn as <-. eexists. split; [reflexivity | exact K0].
    + injection Hn as <-. eexists. split; [reflexivity | exact K1].
    + injection Hn as <-. eexists. split; [reflexivity | exact K2].
    + destruct n; discriminate.
Qed.
End Offset.

Lemma distinctTimes_single (x : IKey) : distinctTimes [x].
Proof.
  intros i j ki kj Hi Hj _.
  destruct i as [|i]; [|destruct i; discriminate].
  destruct j as [|j]; [|destruct j; discriminate]. reflexivity.
Qed.

Lemma distinctTimes_pair (x y : IKey) :
  ~ keyTime x == keyTime y -> distinctTimes [x; y].
Proof.
  intros Hxy i j ki kj Hi Hj Heq.
  destruct i as [|[|i]]; [| |destruct i; discriminate];
    (destruct j as [|[|j]]; [| |destruct j; discriminate]);
    simpl in Hi, Hj; injection Hi as <-; injection Hj as <-;
    try reflexivity; exfalso; apply Hxy; [exact Heq | symmetry; exact Heq].
Qed.

Lemma OffsetKeyPosition_adds_offset_trackXYZ :
  m_nDimensions Examples.trackXYZ = 3%Z /\
  Forall distinctTimes (m_subTracks Examples.trackXYZ) /\
  GetNumKeys (OffsetKeyPosition (spline := Concrete.stepSpline)
                Examples.trackXYZ (mkVec3 5 6 7))
  = GetNumKeys Examples.trackXYZ.
Proof.
  assert (Hd : Forall distinctTimes (m_subTracks Examples.trackXYZ)).
  { repeat constructor;
      [ apply distinctTimes_pair; vm_compute; discriminate
      | apply distinctTimes_single | apply distinctTimes_single ]. }
  split; [reflexivity|]. split; [exact Hd|].
  apply (OffsetKeyPosition_adds_offset (spline := Concrete.stepSpline)
           Examples.trackXYZ (mkVec3 5 6 7) eq_refl Hd).
Defined.

Example OffsetKeyPosition_trackXYZ :
  m_subTracks (OffsetKeyPosition (spline := Concrete.stepSpline)
                 Examples.trackXYZ (mkVec3 5 6 7))
  = [ [mkKey 0 (1 + 5) false; mkKey 1 (2 + 5) true];
      [mkKey 1 (3 + 6) false];
      [mkKey 1 (4 + 7) false] ].
Proof. reflexivity. Qed.

(** C7.  The offset (5, 0, 0) on a 3-dimensional track whose X sub-track
    holds two keys at time 1, with the values 10 and 20: the loop visits
    both keys but reads and writes each through its time, which the first
    key serves both times.  The first key is stored as 10 + 5 + 5 and the
    second stays at 20, where offsetting each key gives 15 and 25; no key is
    created and [GetNumKeys] is unchanged. *)
Example OffsetKeyPosition_trackTwin :
  m_nDimensions Examples.trackTwin = 3%Z /\
  nth_error (m_subTracks Examples.trackTwin) 0
  = Some [mkKey 1 10 false; mkKey 1 20 false] /\
  nth_error (m_subTracks (OffsetKeyPosition (spline := Concrete.stepSpline)
                            Examples.trackTwin (mkVec3 5 0 0))) 0
  = Some [mkKey 1 (10 + 5 + 5) false; mkKey 1 20 false] /\
  GetNumKeys (OffsetKeyPosition (spline := Concrete.stepSpline)
                Examples.trackTwin (mkVec3 5 0 0))
  = GetNumKeys Examples.trackTwin.
Proof. repeat split; reflexivity. Qed.

(** Two keys stored at the same time are read and written through that one
    time: the first of them takes the offset twice, the second not at all. *)
Lemma OffsetKeyPosition_misses_twin_key :
  ~ (forall (c : CCompoundSplineTrack) (offset : Vec3) (n m : nat)
            (st st' : SubTrack.t) (km km' : IKey),
        m_nDimensions c = 3%Z ->
        nth_error (m_subTracks c) n = Some st ->
        nth_error (m_subTracks (OffsetKeyPosition (spline := Concrete.stepSpline)
                                  c offset)) n = Some st' ->
        nth_error st m = Some km ->
        nth_error st' m = Some km' ->
        keyValue km' == keyValue km + Vec3_get offset (Z.of_nat n)).
Proof.
  intro Hclaim.
  specialize (Hclaim Examples.trackTwin (mkVec3 5 0 0) 0%nat 1%nat
                [mkKey 1 10 false; mkKey 1 20 false]
                [mkKey 1 (10 + 5 + 5) false; mkKey 1 20 false]
                (mkKey 1 20 false) (mkKey 1 20 false)
                eq_refl eq_refl eq_refl eq_refl eq_refl).
  vm_compute in Hclaim. discriminate Hclaim.
Qed.

(** ** Writes by time on a sub-track *)

Lemma Qeq_bool_right (a t t' : Q) : t == t' -> Qeq_bool a t = Qeq_bool a t'.
Proof. intro Heq. rewrite Heq. reflexivity. Qed.

Lemma findKeyAt_Qeq (st : SubTrack.t) (t t' : Q) :
  t == t' -> SubTrack.findKeyAt st t = SubTrack.findKeyAt st t'.
Proof.
  intro Heq. induction st as [|x r IH]; simpl; [reflexivity|].
  rewrite (Qeq_bool_right _ _ _ Heq), IH. reflexivity.
Qed.

Lemma findKeyAt_Some (st : SubTrack.t) (t : Q) (k : IKey) :
  SubTrack.findKeyAt st t = Some k -> In k st /\ keyTime k == t.
Proof.
  induction st as [|x r IH]; simpl; [discriminate|].
  destruct (Qeq_bool (keyTime x) t) eqn:E.
  - intro Hk. injection Hk as <-. split; [left; reflexivity|].
    apply Qeq_bool_iff. exact E.
  - intro Hk. destruct (IH Hk) as [Hin Ht]. split; [right; exact Hin | exact Ht].
Qed.

Lemma findKeyAt_None (st : SubTrack.t) (t : Q) (k : IKey) :
  SubTrack.findKeyAt st t = None -> In k st -> ~ keyTime k == t.
Proof.
  induction st as [|x r IH]; simpl; [intros _ []|].
  destruct (Qeq_bool (keyTime x) t) eqn:E; [discriminate|].
  intros Hn [->|Hin].
  - apply Qeq_bool_neq. exact E.
  - apply IH; assumption.
Qed.

Lemma findKeyAt_In (st : SubTrack.t) (k : IKey) :
  In k st -> SubTrack.findKeyAt st (keyTime k) <> None.
Proof.
  intros Hin Hnone. apply (findKeyAt_None st (keyTime k) k Hnone Hin). reflexivity.
Qed.

Lemma findKeyAt_overwriteAt_same (st : SubTrack.t) (t t' v : Q) (k : IKey) :
  t == t' -> SubTrack.findKeyAt st t = Some k ->
  SubTrack.findKeyAt (SubTrack.overwriteAt st t v) t' = Some (withValue k v).
Proof.
  intro Heq. induction st as [|x r IH]; simpl; [discriminate|].
  destruct (Qeq_bool (keyTime x) t) eqn:E.
  - intro Hk. injection Hk as <-. simpl.
    rewrite <- (Qeq_bool_right _ _ _ Heq), E. reflexivity.
  - intro Hk. simpl. rewrite <- (Qeq_bool_right _ _ _ Heq), E. apply IH. exact Hk.
Qed.

Lemma findKeyAt_overwriteAt_other (st : SubTrack.t) (t t' v : Q) :
  ~ t == t' ->
  SubTrack.findKeyAt (SubTrack.overwriteAt st t v) t' = SubTrack.findKeyAt st t'.
Proof.
  intro Hne. induction st as [|x r IH]; simpl; [reflexivity|].
  destruct (Qeq_bool (keyTime x) t) eqn:E; simpl.
  - apply Qeq_bool_iff in E.
    destruct (Qeq_bool (keyTime x) t') eqn:E'; [|reflexivity].
    apply Qeq_bool_iff in E'. exfalso. apply Hne.
    rewrite <- E. exact E'.
  - rewrite IH. reflexivity.
Qed.

Lemma findKeyAt_createKey_same (st : SubTrack.t) (t t' v : Q) :
  t == t' -> SubTrack.findKeyAt st t = None ->
  SubTrack.findKeyAt (SubTrack.createKey st t v) t' = Some (mkKey t v false).
Proof.
  intro Heq. induction st as [|x r IH]; simpl.
  - intros _. rewrite (Qeq_eq_bool _ _ Heq). reflexivity.
  - destruct (Qeq_bool (keyTime x) t) eqn:E; [discriminate|]. intro Hn.
    destruct (Qltb t (keyTime x)); simpl.
    + rewrite (Qeq_eq_bool _ _ Heq). reflexivity.
    + rewrite <- (Qeq_bool_right _ _ _ Heq), E. apply IH. exact Hn.
Qed.

Lemma findKeyAt_createKey_other (st : SubTrack.t) (t t' v : Q) :
  ~ t == t' ->
  SubTrack.findKeyAt (SubTrack.createKey st t v) t' = SubTrack.findKeyAt st t'.
Proof.
  intro Hne.
  assert (Hf : Qeq_bool t t' = false).
  { destruct (Qeq_bool t t') eqn:E; [|reflexivity].
    apply Qeq_bool_iff in E. contradiction. }
  induction st as [|x r IH]; simpl.
  - rewrite Hf. reflexivity.
  - destruct (Qltb t (keyTime x)); simpl.
    + rewrite Hf. reflexivity.
    + rewrite IH. reflexivity.
Qed.

Lemma storedValue_writeKey_same (st : SubTrack.t) (t t' v : Q) :
  t == t' -> storedValue (SubTrack.writeKey st t v) t' = Some v.
Proof.
  intro Heq. unfold storedValue, SubTrack.writeKey.
  destruct (SubTrack.findKeyAt st t) as [k|] eqn:E.
  - rewrite (findKeyAt_overwriteAt_same st t t' v k Heq E). reflexivity.
  - rewrite (findKeyAt_createKey_same st t t' v Heq E). reflexivity.
Qed.

Lemma storedValue_writeKey_other (st : SubTrack.t) (t t' v : Q) :
  ~ t == t' -> storedValue (SubTrack.writeKey st t v) t' = storedValue st t'.
Proof.
  intro Hne. unfold storedValue, SubTrack.writeKey.
  destruct (SubTrack.findKeyAt st t) as [k|].
  - rewrite (findKeyAt_overwriteAt_other st t t' v Hne). reflexivity.
  - rewrite (findKeyAt_createKey_other st t t' v Hne). reflexivity.
Qed.

Lemma storedValue_Qeq (st : SubTrack.t) (t t' : Q) :
  t == t' -> storedValue st t = storedValue st t'.
Proof. intro Heq. unfold storedValue. rewrite (findKeyAt_Qeq st t t' Heq). reflexivity. Qed.

(** Every key of a written sub-track sits at the written time or at the time
    of a key that was there. *)
Lemma In_overwriteAt (st : SubTrack.t) (t v : Q) (k : IKey) :
  In k (SubTrack.overwriteAt st t v) ->
  exists k0, In k0 st /\ keyTime k0 = keyTime k.
Proof.
  induction st as [|x r IH]; simpl; [intros []|].
  destruct (Qeq_bool (keyTime x) t).
  - intros [<-|Hin].
    + exists x. split; [left; reflexivity | reflexivity].
    + exists k. split; [right; exact Hin | reflexivity].
  - intros [<-|Hin].
    + exists x. split; [left; reflexivity | reflexivity].
    + destruct (IH Hin) as (k0 & Hk0 & Ht). exists k0. split; [right; exact Hk0 | exact Ht].
Qed.

Lemma In_createKey (st : SubTrack.t) (t v : Q) (k : IKey) :
  In k (SubTrack.createKey st t v) -> keyTime k = t \/ In k st.
Proof.
  induction st as [|x r IH]; simpl.
  - intros [<-|[]]. left. reflexivity.
  - destruct (Qltb t (keyTime x)).
    + intros [<-|Hin]; [left; reflexivity | right; exact Hin].
    + intros [<-|Hin]; [right; left; reflexivity|].
      destruct (IH Hin) as [Ht|Hr]; [left; exact Ht | right; right; exact Hr].
Qed.

Lemma In_writeKey (st : SubTrack.t) (t v : Q) (k : IKey) :
  In k (SubTrack.writeKey st t v) ->
  keyTime k = t \/ exists k0, In k0 st /\ keyTime k0 = keyTime k.
Proof.
  unfold SubTrack.writeKey. destruct (SubTrack.findKeyAt st t).
  - intro Hin. right. apply (In_overwriteAt st t v k Hin).
  - intro Hin. destruct (In_createKey st t v k Hin) as [Ht|Hr].
    + left. exact Ht.
    + right. exists k. split; [exact Hr | reflexivity].
Qed.

(** ** The collected key times *)

Lemma existsb_Qeq_InA (acc : list Q) (x : Q) :
  existsb (fun y => Qeq_bool y x) acc = true <-> InA Qeq x acc.
Proof.
  rewrite existsb_exists, InA_alt. split.
  - intros (y & Hin & Hy). exists y. split; [|exact Hin].
    symmetry. apply Qeq_bool_iff. exact Hy.
  - intros (y & Hy & Hin). exists y. split; [exact Hin|].
    apply Qeq_bool_iff. symmetry. exact Hy.
Qed.

Lemma addTime_InA (acc : list Q) (x t : Q) :
  InA Qeq t (addTime acc x) <-> InA Qeq t acc \/ t == x.
Proof.
  unfold addTime. destruct (existsb (fun y => Qeq_bool y x) acc) eqn:E.
  - apply existsb_Qeq_InA in E. split.
    + intro Hin. left. exact Hin.
    + intros [Hin|Heq]; [exact Hin|]. rewrite Heq. exact E.
  - rewrite InA_app_iff. split.
    + intros [Hin|Hin]; [left; exact Hin|].
      right. inversion Hin as [? ? Heq|? ? Hnil]; subst; [exact Heq | inversion Hnil].
    + intros [Hin|Heq]; [left; exact Hin | right; left; exact Heq].
Qed.

Lemma addTime_NoDupA (acc : list Q) (x : Q) :
  NoDupA Qeq acc -> NoDupA Qeq (addTime acc x).
Proof.
  intro Hnd. unfold addTime.
  destruct (existsb (fun y => Qeq_bool y x) acc) eqn:E; [exact Hnd|].
  apply NoDupA_app; [exact Q_Setoid | exact Hnd | |].
  - constructor; [|constructor]. intro Hin. inversion Hin.
  - intros y Hy Hx.
    inversion Hx as [? ? Heq|? ? Hnil]; subst; [|inversion Hnil].
    assert (Hex : existsb (fun z => Qeq_bool z x) acc = true).
    { apply existsb_Qeq_InA. rewrite <- Heq. exact Hy. }
    congruence.
Qed.

Lemma skipn_nth_error {A : Type} (l : list A) :
  forall (a : nat) (x : A), nth_error l a = Some x -> skipn a l = x :: skipn (S a) l.
Proof.
  induction l as [|y r IH]; intros a x Ha.
  - destruct a; discriminate.
  - destruct a as [|a]; simpl in *.
    + injection Ha as ->. reflexivity.
    + apply IH. exact Ha.
Qed.

(** The index loop of [collectTimes] visits the keys in order. *)
Lemma collectTimes_keys (st : SubTrack.t) (allTimes : list Q) :
  collectTimes allTimes st
  = fold_left (fun acc key => addTime acc (keyTime key)) st allTimes.
Proof.
  unfold collectTimes, keyIndices.
  assert (Hgen : forall (n a : nat) (acc : list Q),
             (a + n = length st)%nat ->
             fold_left (fun acc k => addTime acc (SubTrack.GetKeyTime st k))
                       (map Z.of_nat (seq a n)) acc
             = fold_left (fun acc key => addTime acc (keyTime key)) (skipn a st) acc).
  { induction n as [|n IH]; intros a acc Han.
    - rewrite skipn_all2 by lia. reflexivity.
    - destruct (nth_error_in_range st a) as [ka Hka]; [lia|].
      rewrite (skipn_nth_error st a ka Hka). simpl.
      rewrite (GetKeyTime_nth _ _ _ Hka). apply IH. lia. }
  apply (Hgen (length st) 0%nat allTimes eq_refl).
Qed.

Lemma collectTimes_InA (st : SubTrack.t) :
  forall (acc : list Q) (t : Q),
    InA Qeq t (collectTimes acc st)
    <-> InA Qeq t acc \/ exists k, In k st /\ keyTime k == t.
Proof.
  intros acc t. rewrite collectTimes_keys. revert acc.
  induction st as [|x r IH]; intro acc; simpl.
  - split; [intro Hin; left; exact Hin|].
    intros [Hin|(k & [] & _)]. exact Hin.
  - rewrite IH, addTime_InA. split.
    + intros [[Hin|Heq]|(k & Hk & Ht)].
      * left. exact Hin.
      * right. exists x. split; [left; reflexivity | symmetry; exact Heq].
      * right. exists k. split; [right; exact Hk | exact Ht].
    + intros [Hin|(k & [<-|Hk] & Ht)].
      * left. left. exact Hin.
      * left. right. symmetry. exact Ht.
      * right. exists k. split; [exact Hk | exact Ht].
Qed.

Lemma collectTimes_NoDupA (st : SubTrack.t) :
  forall acc : list Q, NoDupA Qeq acc -> NoDupA Qeq (collectTimes acc st).
Proof.
  intros acc. rewrite collectTimes_keys. revert acc.
  induction st as [|x r IH]; intros acc Hnd; simpl; [exact Hnd|].
  apply IH. apply addTime_NoDupA. exact Hnd.
Qed.

Lemma allKeyTimes_NoDupA (s0 s1 s2 : SubTrack.t) :
  NoDupA Qeq (allKeyTimes s0 s1 s2).
Proof.
  unfold allKeyTimes. repeat apply collectTimes_NoDupA. constructor.
Qed.

Lemma allKeyTimes_InA (s0 s1 s2 : SubTrack.t) (t : Q) :
  InA Qeq t (allKeyTimes s0 s1 s2)
  <-> exists k, (In k s0 \/ In k s1 \/ In k s2) /\ keyTime k == t.
Proof.
  unfold allKeyTimes. rewrite !collectTimes_InA. split.
  - intros [[[Hnil|(k & Hk & Ht)]|(k & Hk & Ht)]|(k & Hk & Ht)].
    + inversion Hnil.
    + exists k. split; [left; exact Hk | exact Ht].
    + exists k. split; [right; left; exact Hk | exact Ht].
    + exists k. split; [right; right; exact Hk | exact Ht].
  - intros (k & [Hk|[Hk|Hk]] & Ht).
    + left. left. right. exists k. split; assumption.
    + left. right. exists k. split; assumption.
    + right. exists k. split; assumption.
Qed.

Lemma NoDupA_middle (pre post : list Q) (t : Q) :
  NoDupA Qeq (pre ++ t :: post) -> ~ InA Qeq t pre /\ ~ InA Qeq t post.
Proof.
  intro Hnd. split.
  - intro Hin.
    induction pre as [|x r IH]; [inversion Hin|].
    simpl in Hnd. inversion Hnd as [|? ? Hx Hr]; subst.
    inversion Hin as [? ? Heq|? ? Hin']; subst.
    + apply Hx. rewrite InA_app_iff. right. left. symmetry. exact Heq.
    + apply IH; assumption.
  - induction pre as [|x r IH].
    + simpl in Hnd. inversion Hnd; assumption.
    + simpl in Hnd. inversion Hnd; subst. apply IH. assumption.
Qed.

(** ** The rewrite loop of the parent rebase *)

Lemma Vec3_get_ext (a b : Vec3) :
  (forall i, (0 <= i <= 2)%Z -> Vec3_get a i = Vec3_get b i) -> a = b.
Proof.
  intro Hext. destruct a as [x1 y1 z1]. destruct b as [x2 y2 z2].
  pose proof (Hext 0%Z ltac:(lia)) as H0.
  pose proof (Hext 1%Z ltac:(lia)) as H1.
  pose proof (Hext 2%Z ltac:(lia)) as H2.
  unfold Vec3_get in H0, H1, H2. simpl in H0, H1, H2. subst. reflexivity.
Qed.

Lemma Vec3_eq_get (a b : Vec3) (i : Z) :
  Vec3_eq a b -> Vec3_get a i == Vec3_get b i.
Proof.
  intros (Hx & Hy & Hz). unfold Vec3_get.
  destruct (i =? 0)%Z; [exact Hx|]. destruct (i =? 1)%Z; [exact Hy | exact Hz].
Qed.

Section RewriteLoop.
Context {spline : SplineInternals}.
Variable f : Vec3 -> Vec3.

Lemma GetValue_stored (st : SubTrack.t) (t x : Q) :
  storedValue st t = Some x -> SubTrack.GetValue st t false = x.
Proof.
  unfold storedValue, SubTrack.GetValue.
  destruct (SubTrack.findKeyAt st t); simpl; [|discriminate].
  intro Hx. injection Hx as <-. reflexivity.
Qed.

Lemma readVector_get (s : SubTrack.t * SubTrack.t * SubTrack.t) (t : Q) (i : Z) :
  (0 <= i <= 2)%Z ->
  Vec3_get (readVector s t) i = SubTrack.GetValue (pick i s) t false.
Proof.
  intro Hi. destruct s as [[s0 s1] s2].
  assert (Hcases : i = 0%Z \/ i = 1%Z \/ i = 2%Z) by lia.
  destruct Hcases as [-> | [-> | ->]]; reflexivity.
Qed.

Lemma pick_rewriteAt (s : SubTrack.t * SubTrack.t * SubTrack.t) (t : Q) (i : Z) :
  (0 <= i <= 2)%Z ->
  pick i (rewriteAt f s t)
  = SubTrack.writeKey (pick i s) t (Vec3_get (f (readVector s t)) i).
Proof.
  intro Hi. destruct s as [[s0 s1] s2].
  assert (Hcases : i = 0%Z \/ i = 1%Z \/ i = 2%Z) by lia.
  destruct Hcases as [-> | [-> | ->]]; reflexivity.
Qed.

Lemma stored_rewriteAt_same (s : SubTrack.t * SubTrack.t * SubTrack.t)
  (t t' : Q) (i : Z) :
  (0 <= i <= 2)%Z -> t == t' ->
  storedValue (pick i (rewriteAt f s t)) t'
  = Some (Vec3_get (f (readVector s t)) i).
Proof.
  intros Hi Heq. rewrite (pick_rewriteAt s t i Hi).
  apply storedValue_writeKey_same. exact Heq.
Qed.

Lemma stored_rewriteAt_other (s : SubTrack.t * SubTrack.t * SubTrack.t)
  (t t' : Q) (i : Z) :
  (0 <= i <= 2)%Z -> ~ t == t' ->
  storedValue (pick i (rewriteAt f s t)) t' = storedValue (pick i s) t'.
Proof.
  intros Hi Hne. rewrite (pick_rewriteAt s t i Hi).
  apply storedValue_writeKey_other. exact Hne.
Qed.

(** A time outside the rewritten ones keeps what it stored. *)
Lemma stored_fold_outside (ts : list Q) :
  forall (s : SubTrack.t * SubTrack.t * SubTrack.t) (t' : Q) (i : Z),
    (0 <= i <= 2)%Z -> ~ InA Qeq t' ts ->
    storedValue (pick i (fold_left (rewriteAt f) ts s)) t'
    = storedValue (pick i s) t'.
Proof.
  induction ts as [|t r IH]; intros s t' i Hi Hout; simpl; [reflexivity|].
  rewrite (IH (rewriteAt f s t) t' i Hi).
  - apply stored_rewriteAt_other; [exact Hi|].
    intro Heq. apply Hout. left. symmetry. exact Heq.
  - intro Hin. apply Hout. right. exact Hin.
Qed.

(** A rewritten time stores the image of the vector read there, and that
    vector holds the values stored there at the start, where there were
    any. *)
Lemma stored_fold_inside (ts : list Q) :
  forall (s : SubTrack.t * SubTrack.t * SubTrack.t) (t' : Q),
    NoDupA Qeq ts -> InA Qeq t' ts ->
    exists v,
      (forall i, (0 <= i <= 2)%Z ->
                 storedValue (pick i (fold_left (rewriteAt f) ts s)) t'
                 = Some (Vec3_get (f v) i)) /\
      (forall i x, (0 <= i <= 2)%Z ->
                   storedValue (pick i s) t' = Some x -> Vec3_get v i = x).
Proof.
  induction ts as [|t r IH]; intros s t' Hnd Hin; [inversion Hin|].
  inversion Hnd as [|? ? Ht Hr]; subst. simpl.
  destruct (Qeq_dec t t') as [Heq|Hne].
  - exists (readVector s t). split.
    + intros i Hi. rewrite (stored_fold_outside r (rewriteAt f s t) t' i Hi).
      * apply stored_rewriteAt_same; assumption.
      * intro Hin'. apply Ht. rewrite Heq. exact Hin'.
    + intros i x Hi Hx. rewrite (readVector_get s t i Hi).
      apply GetValue_stored. rewrite (storedValue_Qeq _ t t' Heq). exact Hx.
  - assert (Hin' : InA Qeq t' r).
    { inversion Hin as [? ? Heq|? ? Hin']; subst; [|exact Hin'].
      exfalso. apply Hne. symmetry. exact Heq. }
    destruct (IH (rewriteAt f s t) t' Hr Hin') as (v & Hstored & Hread).
    exists v. split; [exact Hstored|].
    intros i x Hi Hx. apply (Hread i x Hi).
    rewrite (stored_rewriteAt_other s t t' i Hi Hne). exact Hx.
Qed.

End RewriteLoop.

Lemma stored_in_tripleTimes (s : SubTrack.t * SubTrack.t * SubTrack.t)
  (t x : Q) (i : Z) :
  storedValue (pick i s) t = Some x -> InA Qeq t (tripleTimes s).
Proof.
  destruct s as [[s0 s1] s2]. unfold storedValue. simpl.
  destruct (SubTrack.findKeyAt _ t) as [k|] eqn:E; [|discriminate]. intros _.
  destruct (findKeyAt_Some _ _ _ E) as [Hin Ht].
  apply allKeyTimes_InA. exists k. split; [|exact Ht].
  destruct (i =? 0)%Z; [left; exact Hin|].
  destruct (i =? 1)%Z; [right; left; exact Hin | right; right; exact Hin].
Qed.

Section RoundTrip.
Context {spline : SplineInternals}.

(** Rewriting every collected time with [f1] and then, on the outcome, every
    collected time with [f2] gives back what was stored when [f2] undoes
    [f1]. *)
Lemma rewrite_roundtrip (f1 f2 : Vec3 -> Vec3)
  (s : SubTrack.t * SubTrack.t * SubTrack.t) :
  (forall v, Vec3_eq (f2 (f1 v)) v) ->
  forall (i : Z) (t x : Q),
    (0 <= i <= 2)%Z ->
    storedValue (pick i s) t = Some x ->
    exists x',
      storedValue
        (pick i (fold_left (rewriteAt f2)
                   (tripleTimes (fold_left (rewriteAt f1) (tripleTimes s) s))
                   (fold_left (rewriteAt f1) (tripleTimes s) s))) t = Some x' /\
      x' == x.
Proof.
  intros Hundo i t x Hi Hx.
  set (s1 := fold_left (rewriteAt f1) (tripleTimes s) s).
  assert (Hnd1 : NoDupA Qeq (tripleTimes s)).
  { destruct s as [[s0 s1'] s2]. apply allKeyTimes_NoDupA. }
  assert (Hnd2 : NoDupA Qeq (tripleTimes s1)).
  { destruct s1 as [[a b] c]. apply allKeyTimes_NoDupA. }
  pose proof (stored_in_tripleTimes s t x i Hx) as Hin1.
  destruct (stored_fold_inside f1 (tripleTimes s) s t Hnd1 Hin1) as (v & Hst1 & Hrd1).
  fold s1 in Hst1.
  pose proof (stored_in_tripleTimes s1 t _ i (Hst1 i Hi)) as Hin2.
  destruct (stored_fold_inside f2 (tripleTimes s1) s1 t Hnd2 Hin2) as (v2 & Hst2 & Hrd2).
  assert (Hv2 : v2 = f1 v).
  { apply Vec3_get_ext. intros j Hj. apply (Hrd2 j _ Hj). apply (Hst1 j Hj). }
  subst v2. exists (Vec3_get (f2 (f1 v)) i). split; [apply (Hst2 i Hi)|].
  rewrite <- (Hrd1 i x Hi Hx). apply Vec3_eq_get. apply Hundo.
Qed.

End RoundTrip.

(** ** Parent rebase *)

Lemma storedTriple_pick (s : SubTrack.t * SubTrack.t * SubTrack.t) (t : Q) (v : Vec3) :
  storedTriple s t = Some v <->
  forall i, (0 <= i <= 2)%Z -> storedValue (pick i s) t = Some (Vec3_get v i).
Proof.
  destruct s as [[s0 s1] s2]. unfold storedTriple. split.
  - destruct (storedValue s0 t) as [a|] eqn:E0; [|discriminate].
    destruct (storedValue s1 t) as [b|] eqn:E1; [|discriminate].
    destruct (storedValue s2 t) as [c|] eqn:E2; [|discriminate].
    intro Hv. injection Hv as <-. intros i Hi.
    assert (Hcases : i = 0%Z \/ i = 1%Z \/ i = 2%Z) by lia.
    destruct Hcases as [-> | [-> | ->]]; simpl; assumption.
  - intro Hall.
    pose proof (Hall 0%Z ltac:(lia)) as H0.
    pose proof (Hall 1%Z ltac:(lia)) as H1.
    pose proof (Hall 2%Z ltac:(lia)) as H2.
    simpl in H0, H1, H2. rewrite H0, H1, H2.
    destruct v as [a b c]. reflexivity.
Qed.

Section RebaseLoop.
Context {spline : SplineInternals} {az : AzTransform}.

Lemma rebase_fold_rewrite (p : AnimParamType) (oldTM invTM : Transform) (ts : list Q) :
  forall s : SubTrack.t * SubTrack.t * SubTrack.t,
    fold_left (rebaseAt p oldTM invTM) ts s
    = fold_left (rewriteAt (rebaseVector p oldTM invTM)) ts s.
Proof.
  induction ts as [|t r IH]; intro s; simpl; [reflexivity|].
  rewrite IH. destruct s as [[s0 s1] s2]. reflexivity.
Qed.

Lemma Update_subTracks (c : CCompoundSplineTrack) (oldTM newTM : Transform)
  (s0 s1 s2 : SubTrack.t) (rest : list SubTrack.t) :
  m_subTracks c = s0 :: s1 :: s2 :: rest ->
  exists s0' s1' s2',
    fold_left (rewriteAt (rebaseVector (m_nParamType c) oldTM (InvertFull newTM)))
              (tripleTimes (s0, s1, s2)) (s0, s1, s2) = (s0', s1', s2') /\
    UpdateKeyDataAfterParentChanged c oldTM newTM
    = withSubTracks c (s0' :: s1' :: s2' :: rest).
Proof.
  intro Hs. unfold UpdateKeyDataAfterParentChanged. rewrite Hs.
  rewrite rebase_fold_rewrite. simpl tripleTimes.
  destruct (fold_left _ _ _) as [[s0' s1'] s2'].
  exists s0', s1', s2'. split; reflexivity.
Qed.

(** C2, as the code has it.  On a 3-dimensional Rotation track, at every
    time at which each of the three sub-tracks holds a key, the rebase
    stores [eulerDegrees(inverse(newParent)) + world], where
    [world = eulerDegrees(oldParent) + local] and [local] is the vector the
    three sub-tracks stored at that time before the rebase. *)
Theorem rebase_rotation_adds_inverse_euler (c : CCompoundSplineTrack)
  (oldParentWorldTM newParentWorldTM : Transform) (t : Q) (local : Vec3) :
  m_nDimensions c = 3%Z ->
  m_nParamType c = Rotation ->
  storedVector c t = Some local ->
  storedVector (UpdateKeyDataAfterParentChanged c oldParentWorldTM newParentWorldTM) t
  = Some (Vec3_add (ConvertTransformToEulerDegrees (InvertFull newParentWorldTM))
            (Vec3_add (ConvertTransformToEulerDegrees oldParentWorldTM) local)).
Proof.
  intros _ Hp Hlocal.
  unfold storedVector in Hlocal.
  destruct (m_subTracks c) as [|s0 [|s1 [|s2 rest]]] eqn:Ests; try discriminate.
  pose proof (proj1 (storedTriple_pick _ t local) Hlocal) as Hpick.
  pose proof (stored_in_tripleTimes (s0, s1, s2) t _ 0%Z (Hpick 0%Z ltac:(lia))) as Hin.
  set (f := rebaseVector Rotation oldParentWorldTM (InvertFull newParentWorldTM)).
  destruct (stored_fold_inside f (tripleTimes (s0, s1, s2)) (s0, s1, s2) t
              (allKeyTimes_NoDupA s0 s1 s2) Hin) as (v & Hstored & Hread).
  assert (Hv : v = local).
  { apply Vec3_get_ext. intros i Hi. apply (Hread i _ Hi). apply (Hpick i Hi). }
  subst v.
  destruct (Update_subTracks c oldParentWorldTM newParentWorldTM s0 s1 s2 rest Ests)
    as (s0' & s1' & s2' & Hfold & ->).
  rewrite Hp in Hfold. fold f in Hfold. rewrite Hfold in Hstored.
  unfold storedVector. simpl m_subTracks.
  apply storedTriple_pick. exact Hstored.
Qed.

End RebaseLoop.

(** The half turn about the diagonal of the XY plane is its own inverse, and
    its Euler angles are a half turn about X and a quarter turn about Z. *)
Example halfTurnXY_euler :
  Concrete.exactEulerDegrees Examples.halfTurnXY = Some (mkVec3 (-180) 0 (-90)) /\
  Concrete.exactEulerDegrees (Concrete.inverse Examples.halfTurnXY)
  = Some (mkVec3 (-180) 0 (-90)) /\
  Concrete.exactEulerDegrees Concrete.identity = Some (mkVec3 0 0 0) /\
  Vec3_eq (Concrete.mulPoint Examples.halfTurnXY (mkVec3 1 2 3)) (mkVec3 2 1 (-3)) /\
  Vec3_eq (Concrete.mulPoint (Concrete.inverse Examples.halfTurnXY) (mkVec3 1 2 3))
          (mkVec3 2 1 (-3)).
Proof. vm_compute. repeat split; congruence. Qed.

Lemma rebase_rotation_adds_inverse_euler_witness :
  m_nDimensions Examples.trackRot = 3%Z /\
  m_nParamType Examples.trackRot = Rotation /\
  storedVector Examples.trackRot 0 = Some (mkVec3 10 20 30) /\
  storedVector
    (UpdateKeyDataAfterParentChanged (spline := Concrete.stepSpline)
       (az := Concrete.matrices) Examples.trackRot Concrete.identity Examples.halfTurnXY) 0
  = Some (Vec3_add (Concrete.eulerDegrees (Concrete.inverse Examples.halfTurnXY))
            (Vec3_add (Concrete.eulerDegrees Concrete.identity) (mkVec3 10 20 30))).
Proof.
  split; [reflexivity|]. split; [reflexivity|]. split; [reflexivity|].
  apply (rebase_rotation_adds_inverse_euler (spline := Concrete.stepSpline)
           (az := Concrete.matrices) Examples.trackRot Concrete.identity
           Examples.halfTurnXY 0 (mkVec3 10 20 30) eq_refl eq_refl eq_refl).
Defined.

(** The new parent is half a turn about the diagonal of the XY plane, which
    is its own inverse, with a quarter turn as its Z angle: the code adds
    that angle where the claimed formula subtracts it.  The stored Z angle
    and the claimed one are half a turn apart, so they differ as rotations
    too, whatever sign the decomposition gives the quarter turn. *)
Lemma rebase_rotation_not_minus_euler :
  ~ (forall (c : CCompoundSplineTrack) (oldTM newTM : Concrete.Matrix3x4)
            (t : Q) (local newLocal : Vec3),
        m_nDimensions c = 3%Z ->
        m_nParamType c = Rotation ->
        Concrete.exactEulerDegrees oldTM <> None ->
        Concrete.exactEulerDegrees newTM <> None ->
        Concrete.exactEulerDegrees (Concrete.inverse newTM) <> None ->
        storedVector c t = Some local ->
        storedVector
          (UpdateKeyDataAfterParentChanged (spline := Concrete.stepSpline)
             (az := Concrete.matrices) c oldTM newTM) t = Some newLocal ->
        exists k : Z,
          vz newLocal
          == vz (Vec3_sub (Vec3_add (Concrete.eulerDegrees oldTM) local)
                          (Concrete.eulerDegrees newTM)) + 360 * inject_Z k).
Proof.
  intro Hclaim.
  destruct (Hclaim Examples.trackRot Concrete.identity Examples.halfTurnXY 0
              (mkVec3 10 20 30)
              (Vec3_add (Concrete.eulerDegrees (Concrete.inverse Examples.halfTurnXY))
                 (Vec3_add (Concrete.eulerDegrees Concrete.identity) (mkVec3 10 20 30)))
              eq_refl eq_refl ltac:(discriminate) ltac:(discriminate)
              ltac:(discriminate) eq_refl eq_refl) as [k Hk].
  assert (Hstored : vz (Vec3_add (Concrete.eulerDegrees (Concrete.inverse Examples.halfTurnXY))
                          (Vec3_add (Concrete.eulerDegrees Concrete.identity)
                                    (mkVec3 10 20 30))) == -60)
    by (vm_compute; reflexivity).
  assert (Hclaimed : vz (Vec3_sub (Vec3_add (Concrete.eulerDegrees Concrete.identity)
                                            (mkVec3 10 20 30))
                                  (Concrete.eulerDegrees Examples.halfTurnXY)) == 120)
    by (vm_compute; reflexivity).
  rewrite Hstored, Hclaimed in Hk.
  assert (Hhalf : inject_Z (2 * k + 1) == 0).
  { rewrite inject_Z_plus, inject_Z_mult.
    change (inject_Z 2) with 2. change (inject_Z 1) with 1. lra. }
  unfold Qeq, inject_Z in Hhalf. cbn [Qnum Qden] in Hhalf. lia.
Qed.

(** What the rebase stores at the key times of the rotation track, the new
    parent being the half turn about the diagonal: at time 0, where every
    axis held a key, each value has the Euler angle of the inverse parent
    added once. *)
Example rebase_trackRot_halfTurnXY :
  option_map (fun v => (Qred (vx v), Qred (vy v), Qred (vz v)))
    (storedVector
       (UpdateKeyDataAfterParentChanged (spline := Concrete.stepSpline)
          (az := Concrete.matrices) Examples.trackRot Concrete.identity
          Examples.halfTurnXY) 0)
  = Some (-170, 20, -60).
Proof. vm_compute. reflexivity. Qed.

(** *** Matrices *)

Lemma mulPoint_inverse_left (M : Concrete.Matrix3x4) (v : Vec3) :
  ~ Concrete.determinant M == 0 ->
  Vec3_eq (Concrete.mulPoint (Concrete.inverse M) (Concrete.mulPoint M v)) v.
Proof.
  destruct M as [a00 a01 a02 a03 a10 a11 a12 a13 a20 a21 a22 a23].
  destruct v as [x y z].
  unfold Concrete.inverse, Concrete.mulPoint, Vec3_eq.
  unfold Concrete.determinant.
  cbn [Concrete.m00 Concrete.m01 Concrete.m02 Concrete.m03
       Concrete.m10 Concrete.m11 Concrete.m12 Concrete.m13
       Concrete.m20 Concrete.m21 Concrete.m22 Concrete.m23 vx vy vz].
  intro Hdet. split; [|split]; field; exact Hdet.
Qed.

Lemma mulPoint_inverse_right (M : Concrete.Matrix3x4) (v : Vec3) :
  ~ Concrete.determinant M == 0 ->
  Vec3_eq (Concrete.mulPoint M (Concrete.mulPoint (Concrete.inverse M) v)) v.
Proof.
  destruct M as [a00 a01 a02 a03 a10 a11 a12 a13 a20 a21 a22 a23].
  destruct v as [x y z].
  unfold Concrete.inverse, Concrete.mulPoint, Vec3_eq.
  unfold Concrete.determinant.
  cbn [Concrete.m00 Concrete.m01 Concrete.m02 Concrete.m03
       Concrete.m10 Concrete.m11 Concrete.m12 Concrete.m13
       Concrete.m20 Concrete.m21 Concrete.m22 Concrete.m23 vx vy vz].
  intro Hdet. split; [|split]; field; exact Hdet.
Qed.

Lemma mulPoint_proper (M : Concrete.Matrix3x4) (v w : Vec3) :
  Vec3_eq v w -> Vec3_eq (Concrete.mulPoint M v) (Concrete.mulPoint M w).
Proof.
  intros (Hx & Hy & Hz). unfold Concrete.mulPoint, Vec3_eq. simpl.
  rewrite Hx, Hy, Hz. split; [|split]; reflexivity.
Qed.

Lemma Vec3_eq_trans (a b c : Vec3) : Vec3_eq a b -> Vec3_eq b c -> Vec3_eq a c.
Proof.
  intros (Hx & Hy & Hz) (Hx' & Hy' & Hz'). unfold Vec3_eq.
  rewrite Hx, Hy, Hz. split; [|split]; assumption.
Qed.

(** A matrix with a determinant other than 0 is invertible. *)
Lemma matrices_invertible (M : Concrete.Matrix3x4) :
  ~ Concrete.determinant M == 0 -> invertible (az := Concrete.matrices) M.
Proof.
  intro HM. split; [|split].
  - intros v w Hvw. apply mulPoint_proper. exact Hvw.
  - intro v. apply mulPoint_inverse_left. exact HM.
  - intro v. apply mulPoint_inverse_right. exact HM.
Qed.

Section PositionUndo.
Context {az : AzTransform}.

(** On points, the rebase between two invertible transforms is undone by the
    rebase back. *)
Lemma position_rebaseUndoes (A B : Transform) :
  invertible A -> invertible B -> rebaseUndoes Position A B.
Proof.
  intros (HAp & HAl & _) (_ & _ & HBr) v. simpl.
  apply Vec3_eq_trans
    with (transformPoint (InvertFull A) (transformPoint A v)).
  - apply HAp. apply HBr.
  - apply HAl.
Qed.

End PositionUndo.

Section ScaleUndo.
Context {az : AzTransform}.

(** On scales, the rebase is undone by the rebase back when both transforms
    have reciprocal scales. *)
Lemma scale_rebaseUndoes (A B : Transform) :
  reciprocalScale A -> reciprocalScale B -> rebaseUndoes Scale A B.
Proof.
  intros (Ax & Ay & Az) (Bx & By & Bz) v.
  unfold rebaseUndoes, rebaseVector, Vec3_mul, Vec3_eq in *. simpl in *.
  split; [|split].
  - transitivity
      ((vx (RetrieveScaleExact (InvertFull A)) * vx (RetrieveScaleExact A))
       * (vx (RetrieveScaleExact (InvertFull B)) * vx (RetrieveScaleExact B))
       * vx v); [ring|].
    rewrite Ax, Bx. ring.
  - transitivity
      ((vy (RetrieveScaleExact (InvertFull A)) * vy (RetrieveScaleExact A))
       * (vy (RetrieveScaleExact (InvertFull B)) * vy (RetrieveScaleExact B))
       * vy v); [ring|].
    rewrite Ay, By. ring.
  - transitivity
      ((vz (RetrieveScaleExact (InvertFull A)) * vz (RetrieveScaleExact A))
       * (vz (RetrieveScaleExact (InvertFull B)) * vz (RetrieveScaleExact B))
       * vz v); [ring|].
    rewrite Az, Bz. ring.
Qed.

End ScaleUndo.

(** *** Rebase there and back *)

Section RebaseRoundTrip.
Context {spline : SplineInternals} {az : AzTransform}.

Lemma rebase_roundtrip_stored (c : CCompoundSplineTrack) (A B : Transform) :
  m_nDimensions c = 3%Z ->
  rebaseUndoes (m_nParamType c) A B ->
  forall (i : nat) (st : SubTrack.t) (t x : Q),
    nth_error (m_subTracks c) i = Some st ->
    storedValue st t = Some x ->
    exists st' x',
      nth_error
        (m_subTracks
           (UpdateKeyDataAfterParentChanged
              (UpdateKeyDataAfterParentChanged c A B) B A)) i = Some st' /\
      storedValue st' t = Some x' /\ x' == x.
Proof.
  intros Hdim Hundo i st t x Hi Hx.
  unfold m_nDimensions in Hdim.
  destruct (m_subTracks c) as [|s0 [|s1 [|s2 [|s3 r]]]] eqn:Ests;
    simpl in Hdim; try lia.
  destruct (Update_subTracks c A B s0 s1 s2 [] Ests) as (a0 & a1 & a2 & Hfold1 & Hc1).
  set (c1 := UpdateKeyDataAfterParentChanged c A B) in *.
  assert (Ests1 : m_subTracks c1 = [a0; a1; a2]) by (rewrite Hc1; reflexivity).
  assert (Hp1 : m_nParamType c1 = m_nParamType c) by (rewrite Hc1; reflexivity).
  destruct (Update_subTracks c1 B A a0 a1 a2 [] Ests1) as (b0 & b1 & b2 & Hfold2 & Hc2).
  rewrite Hc2. simpl m_subTracks. rewrite Hp1 in Hfold2.
  assert (Hi3 : (i < length [s0; s1; s2])%nat).
  { apply nth_error_Some. congruence. }
  simpl in Hi3.
  assert (Hpick : st = pick (Z.of_nat i) (s0, s1, s2)).
  { destruct i as [|[|[|i]]]; simpl in Hi; try lia; injection Hi as <-; reflexivity. }
  destruct (rewrite_roundtrip _ _ (s0, s1, s2) Hundo (Z.of_nat i) t x) as (x' & Hst & Hxx).
  { lia. }
  { rewrite <- Hpick. exact Hx. }
  rewrite Hfold1 in Hst. rewrite Hfold2 in Hst.
  exists (pick (Z.of_nat i) (b0, b1, b2)), x'.
  split; [|split; [exact Hst | exact Hxx]].
  destruct i as [|[|[|i]]]; try lia; reflexivity.
Qed.

End RebaseRoundTrip.

Section RebaseRoundTripClaim.
Context {spline : SplineInternals} {az : AzTransform}.

(** C3, as the code has it, in exact arithmetic.  For invertible parent
    transforms A and B, rebasing a 3-dimensional Position track from A to B
    and back from B to A gives every time at which a sub-track stored a key
    the value it stored; so does rebasing a Scale track, provided the scale
    extracted from the inverse of A and of B is the reciprocal of the scale
    extracted from A and from B. *)
Theorem rebase_roundtrip_position_scale (c : CCompoundSplineTrack)
  (A B : Transform) :
  m_nDimensions c = 3%Z ->
  invertible A -> invertible B ->
  m_nParamType c = Position \/
  (m_nParamType c = Scale /\ reciprocalScale A /\ reciprocalScale B) ->
  forall (i : nat) (st : SubTrack.t) (t x : Q),
    nth_error (m_subTracks c) i = Some st ->
    storedValue st t = Some x ->
    exists st' x',
      nth_error
        (m_subTracks
           (UpdateKeyDataAfterParentChanged
              (UpdateKeyDataAfterParentChanged c A B) B A)) i
      = Some st' /\
      storedValue st' t = Some x' /\ x' == x.
Proof.
  intros Hdim HA HB Hp.
  apply (rebase_roundtrip_stored c A B Hdim).
  destruct Hp as [-> | (-> & HsA & HsB)].
  - apply position_rebaseUndoes; assumption.
  - apply scale_rebaseUndoes; assumption.
Qed.

End RebaseRoundTripClaim.

Example rebase_roundtrip_trackXYZ :
  map (map (fun k => (Qred (keyTime k), Qred (keyValue k), keySelected k)))
      (m_subTracks (rebaseThereAndBack Examples.trackXYZ
                      Examples.quarterTurnZ Examples.scaled))
  = [ [(0, 1, false); (1, 2, true)];
      [(0, 3, false); (1, 3, false)];
      [(0, 4, false); (1, 4, false)] ].
Proof. vm_compute. reflexivity. Qed.

(** The basis lengths of the example matrices and of their inverses are
    rational, so the scale extraction of the model is the exact one on
    them. *)
Example exactBasisLengths_examples :
  Concrete.exactBasisLengths Concrete.identity = Some (mkVec3 1 1 1) /\
  Concrete.exactBasisLengths Examples.stretched = Some (mkVec3 5 5 1) /\
  Concrete.exactBasisLengths (Concrete.inverse Examples.stretched)
  = Some (mkVec3 (5 # 7) (5 # 7) 1) /\
  Concrete.exactBasisLengths Examples.scaled = Some (mkVec3 2 3 4) /\
  Concrete.exactBasisLengths (Concrete.inverse Examples.scaled)
  = Some (mkVec3 (1 # 2) (1 # 3) (1 # 4)) /\
  Concrete.exactBasisLengths Examples.quarterTurnZ = Some (mkVec3 1 1 1) /\
  Concrete.exactBasisLengths (Concrete.inverse Examples.quarterTurnZ)
  = Some (mkVec3 1 1 1) /\
  Concrete.exactBasisLengths
    (Concrete.mkMatrix 2 1 0 0
                       0 1 0 0
                       0 0 1 0) = None.
Proof. vm_compute. repeat split; reflexivity. Qed.

Example rebase_roundtrip_trackScale :
  map (map (fun k => (Qred (keyTime k), Qred (keyValue k), keySelected k)))
      (m_subTracks (rebaseThereAndBack Examples.trackScale
                      Concrete.identity Examples.stretched))
  = [ [(0, 25 # 7, false)]; [(0, 25 # 7, false)]; [(0, 1, false)] ].
Proof. vm_compute. reflexivity. Qed.

Lemma rebase_roundtrip_position_scale_witness :
  (m_nDimensions Examples.trackXYZ = 3%Z /\
   ~ Concrete.determinant Examples.quarterTurnZ == 0 /\
   ~ Concrete.determinant Examples.scaled == 0 /\
   m_nParamType Examples.trackXYZ = Position /\
   exists st' x',
     nth_error
       (m_subTracks (rebaseThereAndBack Examples.trackXYZ
                       Examples.quarterTurnZ Examples.scaled)) 1 = Some st' /\
     storedValue st' 1 = Some x' /\ x' == 3) /\
  (m_nParamType Examples.trackScale = Scale /\
   reciprocalScale (az := Concrete.matrices) Examples.scaled /\
   reciprocalScale (az := Concrete.matrices) Examples.quarterTurnZ /\
   exists st' x',
     nth_error
       (m_subTracks (rebaseThereAndBack Examples.trackScale
                       Examples.scaled Examples.quarterTurnZ)) 0 = Some st' /\
     storedValue st' 0 = Some x' /\ x' == 1).
Proof.
  assert (HA : ~ Concrete.determinant Examples.quarterTurnZ == 0)
    by (vm_compute; discriminate).
  assert (HB : ~ Concrete.determinant Examples.scaled == 0)
    by (vm_compute; discriminate).
  assert (HsA : reciprocalScale (az := Concrete.matrices) Examples.scaled)
    by (vm_compute; repeat split; congruence).
  assert (HsB : reciprocalScale (az := Concrete.matrices) Examples.quarterTurnZ)
    by (vm_compute; repeat split; congruence).
  split.
  - split; [reflexivity|]. split; [exact HA|]. split; [exact HB|].
    split; [reflexivity|].
    apply (rebase_roundtrip_position_scale (spline := Concrete.stepSpline)
             (az := Concrete.matrices)
             Examples.trackXYZ Examples.quarterTurnZ Examples.scaled
             eq_refl (matrices_invertible _ HA) (matrices_invertible _ HB)
             (or_introl eq_refl)
             1%nat [mkKey 1 3 false] 1 3 eq_refl eq_refl).
  - split; [reflexivity|]. split; [exact HsA|]. split; [exact HsB|].
    apply (rebase_roundtrip_position_scale (spline := Concrete.stepSpline)
             (az := Concrete.matrices)
             Examples.trackScale Examples.scaled Examples.quarterTurnZ
             eq_refl (matrices_invertible _ HB) (matrices_invertible _ HA)
             (or_intror (conj eq_refl (conj HsA HsB)))
             0%nat [mkKey 0 1 false] 0 1 eq_refl eq_refl).
Defined.

(** A Scale track does not come back when a parent carries a non-uniform
    scale along rotated axes: the scale of the inverse is not the reciprocal
    of the scale, and the X key returns as 25/7 instead of 1.  The basis
    lengths of both parents and of their inverses are rational (1, 1, 1;
    5, 5, 1; 5/7, 5/7, 1), so the scale extraction is the exact one. *)
Lemma rebase_roundtrip_scale_fails :
  ~ (forall (c : CCompoundSplineTrack) (A B : Concrete.Matrix3x4)
            (i : nat) (st st' : SubTrack.t) (t x x' : Q),
        m_nDimensions c = 3%Z ->
        m_nParamType c = Position \/ m_nParamType c = Scale ->
        ~ Concrete.determinant A == 0 ->
        ~ Concrete.determinant B == 0 ->
        Concrete.exactBasisLengths A <> None ->
        Concrete.exactBasisLengths (Concrete.inverse A) <> None ->
        Concrete.exactBasisLengths B <> None ->
        Concrete.exactBasisLengths (Concrete.inverse B) <> None ->
        nth_error (m_subTracks c) i = Some st ->
        storedValue st t = Some x ->
        nth_error (m_subTracks (rebaseThereAndBack c A B)) i = Some st' ->
        storedValue st' t = Some x' ->
        Qabs (x' - x) <= 1 # 1000).
Proof.
  intro Hclaim.
  assert (HA : ~ Concrete.determinant Concrete.identity == 0)
    by (vm_compute; discriminate).
  assert (HB : ~ Concrete.determinant Examples.stretched == 0)
    by (vm_compute; discriminate).
  pose (st' := nth 0 (m_subTracks (rebaseThereAndBack Examples.trackScale
                                     Concrete.identity Examples.stretched)) []).
  pose (x' := match storedValue st' 0 with Some v => v | None => 0 end).
  assert (Hst' : nth_error (m_subTracks (rebaseThereAndBack Examples.trackScale
                                           Concrete.identity Examples.stretched)) 0
                 = Some st') by (vm_compute; reflexivity).
  assert (Hx' : storedValue st' 0 = Some x') by (vm_compute; reflexivity).
  pose proof (Hclaim Examples.trackScale Concrete.identity Examples.stretched
                0%nat [mkKey 0 1 false] st' 0 1 x'
                eq_refl (or_intror eq_refl) HA HB
                ltac:(vm_compute; discriminate) ltac:(vm_compute; discriminate)
                ltac:(vm_compute; discriminate) ltac:(vm_compute; discriminate)
                eq_refl eq_refl Hst' Hx') as Hle.
  vm_compute in Hle. apply Hle. reflexivity.
Qed.

(** ** Further facts *)

(** The turn count of [PreferShortestRotPath] is the whole number of turns in
    the previous angle. *)
Lemma turns_whole (previous : Q) :
  RotationSpec.turns previous == inject_Z (truncate (previous / 360)).
Proof.
  unfold RotationSpec.turns, RotationSpec.principal, fmod_tpl. field.
Qed.

Example fmod_tpl_values :
  fmod_tpl 370 360 == 10 /\ fmod_tpl (-370) 360 == -10 /\
  fmod_tpl 350 360 == 350 /\ fmod_tpl 720 360 == 0.
Proof. vm_compute. repeat split; congruence. Qed.

Example PreferShortestRotPath_values :
  PreferShortestRotPath (-10) 370 == 350 /\
  PreferShortestRotPath (-170) 170 == 190 /\
  PreferShortestRotPath 10 (-370) == -350 /\
  PreferShortestRotPath 90 0 == 90.
Proof. vm_compute. repeat split; congruence. Qed.

Section SelfInverseParent.
Context {az : AzTransform}.

(** Whatever the Euler decomposition is: for a new parent that is its own
    inverse, the vector the Rotation case stores agrees with
    [world - eulerDegrees(newParent)] only if the Euler angles of that parent
    are all zero. *)
Lemma rotation_self_inverse_parent (oldTM newTM : Transform) (local : Vec3) :
  InvertFull newTM = newTM ->
  Vec3_eq (rebaseVector Rotation oldTM (InvertFull newTM) local)
          (Vec3_sub (Vec3_add (ConvertTransformToEulerDegrees oldTM) local)
                    (ConvertTransformToEulerDegrees newTM)) ->
  Vec3_eq (ConvertTransformToEulerDegrees newTM) (mkVec3 0 0 0).
Proof.
  intros Hinv. rewrite Hinv.
  unfold rebaseVector, Vec3_eq, Vec3_add, Vec3_sub. simpl.
  intros (Hx & Hy & Hz). split; [|split]; lra.
Qed.

End SelfInverseParent.

Example halfTurnZ_self_inverse :
  Vec3_eq (Concrete.mulPoint (Concrete.inverse Examples.halfTurnZ) (mkVec3 1 2 3))
          (Concrete.mulPoint Examples.halfTurnZ (mkVec3 1 2 3)).
Proof. vm_compute. repeat split; congruence. Qed.

Example reciprocalScale_examples :
  reciprocalScale (az := Concrete.matrices) Examples.scaled /\
  reciprocalScale (az := Concrete.matrices) Examples.quarterTurnZ /\
  ~ reciprocalScale (az := Concrete.matrices) Examples.stretched.
Proof.
  split; [|split].
  - vm_compute. repeat split; congruence.
  - vm_compute. repeat split; congruence.
  - intros (Hx & _). vm_compute in Hx. discriminate Hx.
Qed.

Example rebase_roundtrip_trackScale_scaled :
  map (map (fun k => (Qred (keyTime k), Qred (keyValue k), keySelected k)))
      (m_subTracks (rebaseThereAndBack Examples.trackScale
                      Examples.scaled Examples.quarterTurnZ))
  = [ [(0, 1, false)]; [(0, 1, false)]; [(0, 1, false)] ].
Proof. vm_compute. reflexivity. Qed.

(** With the identity as old and as new parent, a Rotation track keeps the
    values it stored, and every sub-track gets a key at every collected
    time. *)
Example rebase_trackRot_identity :
  m_subTracks
    (UpdateKeyDataAfterParentChanged (spline := Concrete.stepSpline)
       (az := Concrete.matrices) Examples.trackRot Concrete.identity Concrete.identity)
  = [ [mkKey 0 (0 + (0 + 10)) false; mkKey 1 (0 + (0 + (0 + (0 + 10)))) false];
      [mkKey 0 (0 + (0 + 20)) false; mkKey 1 (0 + (0 + (0 + (0 + 20)))) false];
      [mkKey 0 (0 + (0 + 30)) false; mkKey 1 (0 + (0 + 350)) false] ].
Proof. vm_compute. reflexivity. Qed.

(** On the bit-level floats the scenario of the rotation continuity property
    gives 350 itself. *)
Example PreferShortestRotPath_binary32 :
  Binary32.PreferShortestRotPath (Binary32.ofZ (-10)) (Binary32.ofZ 370)
  = Binary32.ofZ 350 /\
  Binary32.PreferShortestRotPath (Binary32.ofZ (-170)) (Binary32.ofZ 170)
  = Binary32.ofZ 190 /\
  Binary32.fmodf (Binary32.ofZ 370) (Binary32.ofZ 360) = Binary32.ofZ 10.
Proof. vm_compute. repeat split; reflexivity. Qed.

(** [round32] against the rounding of the bit-level floats: normal numbers,
    ties, the step to the next binade and subnormal numbers. *)
Example round32_as_binary32 :
  Binary32.toQ (Binary32.ofScaled 1 (-18)) == round32 (1 # 262144) /\
  Binary32.toQ (Binary32.ofScaled 16777217 0) == round32 16777217 /\
  Binary32.toQ (Binary32.ofScaled 16777219 0) == round32 16777219 /\
  Binary32.toQ (Binary32.ofScaled 33554431 0) == round32 33554431 /\
  Binary32.toQ (Binary32.ofScaled 1000000001 (-3)) == round32 (1000000001 # 8) /\
  Binary32.toQ (Binary32.ofScaled 3 (-150)) == round32 (3 * pow2 (-150)) /\
  Binary32.toQ (Binary32.ofScaled 1 (-150)) == round32 (pow2 (-150)) /\
  Binary32.toQ (Binary32.ofScaled 5 (-151)) == round32 (5 * pow2 (-151)) /\
  Binary32.toQ (SFdiv Binary32.prec Binary32.emax (Binary32.ofZ 1) (Binary32.ofZ 1000))
  == timeEpsilon /\
  Binary32.toQ (SFdiv Binary32.prec Binary32.emax (Binary32.ofZ 1) (Binary32.ofZ 3))
  == fdiv 1 3 /\
  Binary32.toQ (SFsub Binary32.prec Binary32.emax
                  (Binary32.ofScaled 8589935 (-33)) (Binary32.ofScaled 7 (-37)))
  == fsub timeEpsilon (7 # 137438953472).
Proof. vm_compute. repeat split; reflexivity. Qed.

(** The two renderings of [PreferShortestRotPath] agree where the
    operations round, too. *)
Example PreferShortestRotPath_as_binary32 :
  Binary32.toQ (Binary32.PreferShortestRotPath
                  (Binary32.ofScaled 1 (-18)) (Binary32.ofZ (-180)))
  == PreferShortestRotPath (1 # 262144) (-180) /\
  Binary32.toQ (Binary32.PreferShortestRotPath
                  (Binary32.ofZ 10) (Binary32.ofZ 1000000000))
  == PreferShortestRotPath 10 1000000000 /\
  Binary32.toQ (Binary32.PreferShortestRotPath
                  (Binary32.ofZ 144) (Binary32.ofZ (-211244976)))
  == PreferShortestRotPath 144 (-211244976) /\
  Binary32.toQ (Binary32.PreferShortestRotPath
                  (Binary32.ofScaled 3 (-16)) (Binary32.ofScaled (-11796477) (-16)))
  == PreferShortestRotPath (3 # 65536) (-11796477 # 65536) /\
  Binary32.toQ (Binary32.PreferShortestRotPath
                  (Binary32.ofScaled (-681) (-2)) (Binary32.ofScaled 1483 (-2)))
  == PreferShortestRotPath (-681 # 4) (1483 # 4).
Proof. vm_compute. repeat split; reflexivity. Qed.

(** Rebase of the rotation track from the half turn about the diagonal to
    the identity.  At time 1 only Z held a key: the keys created there on X
    and Y are computed from the values read after the keys at time 0 were
    rewritten, so X, which read 10 at time 1 before the rebase, is stored as
    10 - 180 - 180. *)
Example rebase_trackRot_created_keys :
  map (map (fun k => (Qred (keyTime k), Qred (keyValue k), keySelected k)))
      (m_subTracks
         (UpdateKeyDataAfterParentChanged (spline := Concrete.stepSpline)
            (az := Concrete.matrices) Examples.trackRot
            Examples.halfTurnXY Concrete.identity))
  = [ [(0, -170, false); (1, -350, false)];
      [(0, 20, false); (1, 20, false)];
      [(0, -60, false); (1, 260, false)] ].
Proof. vm_compute. reflexivity. Qed.

(** * Further properties of the methods *)

(** ** Key counts *)

Lemma counts_positive_iff (sts : list SubTrack.t) :
  existsb (fun st => negb (SubTrack.GetNumKeys st =? 0)%Z) sts = true
  <-> (0 < fold_right Z.add 0 (map SubTrack.GetNumKeys sts))%Z.
Proof.
  induction sts as [|st r IH]; simpl.
  - split; [discriminate | lia].
  - pose proof (GetNumKeys_nonneg st) as Hst.
    assert (Hr : (0 <= fold_right Z.add 0 (map SubTrack.GetNumKeys r))%Z).
    { clear. induction r as [|x r IHr]; simpl; [lia|].
      pose proof (GetNumKeys_nonneg x). lia. }
    rewrite orb_true_iff, IH, negb_true_iff, Z.eqb_neq. lia.
Qed.

Lemma GetNumKeys_length_flat (c : CCompoundSplineTrack) :
  GetNumKeys c = Z.of_nat (length (flatKeys c)).
Proof.
  rewrite GetNumKeys_sum. unfold flatKeys. rewrite length_concat_counts. reflexivity.
Qed.

(** X1.  [GetNumKeys] counts the keys of all active sub-tracks, and [HasKeys]
    answers true exactly when that count is positive. *)
Theorem HasKeys_iff_GetNumKeys (c : CCompoundSplineTrack) :
  GetNumKeys c = Z.of_nat (length (flatKeys c)) /\
  (HasKeys c = true <-> (0 < GetNumKeys c)%Z).
Proof.
  split; [apply GetNumKeys_length_flat|].
  unfold HasKeys. rewrite GetNumKeys_sum. apply counts_positive_iff.
Qed.

(** ** Index translation at the bounds *)

(** X2.  [GetSubTrackIndex] reports -1 exactly for a track without sub-tracks or a
    key index from [GetNumKeys] on; a negative index is not reported: it is
    attributed to sub-track 0 and handed on as it is. *)
Theorem GetSubTrackIndex_fails_iff (c : CCompoundSplineTrack) (key : Z) :
  (fst (GetSubTrackIndex c key) = (-1)%Z
   <-> m_subTracks c = [] \/ (GetNumKeys c <= key)%Z) /\
  ((key < 0)%Z /\ m_subTracks c <> [] -> GetSubTrackIndex c key = (0%Z, key)).
Proof.
  split.
  - split.
    + intro Hfail.
      destruct (m_subTracks c) as [|st r] eqn:Ests; [left; reflexivity|].
      right. destruct (Z_lt_le_dec key (GetNumKeys c)) as [Hlt|Hge]; [|exact Hge].
      exfalso. unfold GetSubTrackIndex in Hfail. rewrite Ests in Hfail.
      destruct (Z_lt_le_dec key 0) as [Hneg|Hpos].
      * cbn [GetSubTrackIndex_from] in Hfail. pose proof (GetNumKeys_nonneg st).
        destruct (key <? 0 + SubTrack.GetNumKeys st)%Z eqn:E;
          [cbn [fst] in Hfail; lia | apply Z.ltb_ge in E; lia].
      * rewrite GetNumKeys_sum, Ests in Hlt.
        destruct (GetSubTrackIndex_from_found (st :: r) 0%Z 0%Z key) as (n & s & Hr & _);
          [lia|].
        rewrite Hr in Hfail. simpl in Hfail. lia.
    + intros [Hnil|Hge].
      * unfold GetSubTrackIndex. rewrite Hnil. reflexivity.
      * rewrite (GetSubTrackIndex_fails_beyond c key Hge). reflexivity.
  - intros [Hneg Hne]. unfold GetSubTrackIndex.
    destruct (m_subTracks c) as [|st r]; [contradiction|].
    cbn [GetSubTrackIndex_from]. pose proof (GetNumKeys_nonneg st).
    destruct (key <? 0 + SubTrack.GetNumKeys st)%Z eqn:E.
    + f_equal. lia.
    + apply Z.ltb_ge in E. lia.
Qed.

Lemma GetSubTrackIndex_fails_iff_witness :
  ((-1 < 0)%Z /\ m_subTracks Examples.trackAB <> []) /\
  GetSubTrackIndex Examples.trackAB (-1) = (0%Z, (-1)%Z).
Proof.
  assert (Hpre : (-1 < 0)%Z /\ m_subTracks Examples.trackAB <> []).
  { split; [reflexivity | discriminate]. }
  split; [exact Hpre|].
  exact (proj2 (GetSubTrackIndex_fails_iff Examples.trackAB (-1)) Hpre).
Defined.

(** ** The flat key order and the methods that take a flat index *)

Lemma flat_locate (c : CCompoundSplineTrack) (j : nat) (k : IKey) :
  nth_error (flatKeys c) j = Some k ->
  exists (n l : nat) (st : SubTrack.t),
    GetSubTrackIndex c (Z.of_nat j) = (Z.of_nat n, Z.of_nat l) /\
    nth_error (m_subTracks c) n = Some st /\
    nth_error st l = Some k /\
    j = (length (concat (firstn n (m_subTracks c))) + l)%nat.
Proof.
  unfold flatKeys. intro Hj.
  assert (Hlt : (j < length (concat (m_subTracks c)))%nat)
    by (apply nth_error_Some; congruence).
  destruct (GetSubTrackIndex_from_found (m_subTracks c) 0%Z 0%Z (Z.of_nat j))
    as (n & st & Hr & Hn & Hl).
  { rewrite <- length_concat_counts. lia. }
  rewrite <- length_concat_counts in Hr, Hl.
  set (before := length (concat (firstn n (m_subTracks c)))) in *.
  unfold SubTrack.GetNumKeys in Hl.
  exists n, (j - before)%nat, st.
  assert (Hjl : (j = before + (j - before))%nat) by lia.
  split.
  - unfold GetSubTrackIndex. rewrite Hr. f_equal; lia.
  - split; [exact Hn|]. split; [|exact Hjl].
    rewrite <- (nth_error_concat_at _ n (j - before) st Hn) by lia.
    fold before. rewrite <- Hjl. exact Hj.
Qed.

Lemma valid_flat_index (c : CCompoundSplineTrack) (f : Z) :
  (0 <= f < GetNumKeys c)%Z ->
  exists k, nth_error (flatKeys c) (Z.to_nat f) = Some k.
Proof.
  intro Hf. apply nth_error_in_range.
  rewrite GetNumKeys_length_flat in Hf. lia.
Qed.

Lemma flat_index_time (c : CCompoundSplineTrack) (j : nat) (k : IKey) :
  nth_error (flatKeys c) j = Some k -> GetKeyTime c (Z.of_nat j) = keyTime k.
Proof.
  intro Hj. exact (proj2 (GetKeyTime_flat_at c j k Hj)).
Qed.

(** X3.  A flat index reads the key at that position of the flat key order. *)
Theorem flat_index_reads_flatKeys (c : CCompoundSplineTrack) (j : nat) (k : IKey) :
  nth_error (flatKeys c) j = Some k ->
  GetKeyTime c (Z.of_nat j) = keyTime k /\
  IsKeySelected c (Z.of_nat j) = keySelected k.
Proof.
  intro Hj.
  destruct (flat_locate c j k Hj) as (n & l & st & Hgsi & Hn & Hl & _).
  unfold GetKeyTime, IsKeySelected. rewrite Hgsi.
  destruct (Z.of_nat n <? 0)%Z eqn:E; [apply Z.ltb_lt in E; lia|].
  unfold subTrackAt. rewrite E, Nat2Z.id, Hn.
  split.
  - apply GetKeyTime_nth. exact Hl.
  - unfold SubTrack.IsKeySelected. rewrite keyAt_of_nat, Hl. reflexivity.
Qed.

Lemma flat_index_reads_flatKeys_witness :
  nth_error (flatKeys Examples.trackXYZ) 1 = Some (mkKey 1 2 true) /\
  GetKeyTime Examples.trackXYZ 1 = 1 /\
  IsKeySelected Examples.trackXYZ 1 = true.
Proof.
  split; [reflexivity|].
  exact (flat_index_reads_flatKeys Examples.trackXYZ 1 (mkKey 1 2 true) eq_refl).
Defined.

Lemma concat_split_at (sts : list SubTrack.t) :
  forall (n : nat) (st : SubTrack.t),
    nth_error sts n = Some st ->
    concat sts = concat (firstn n sts) ++ st ++ concat (skipn (S n) sts).
Proof.
  induction sts as [|s r IH]; intros n st Hn.
  - destruct n; discriminate.
  - destruct n as [|n]; simpl in *.
    + injection Hn as ->. reflexivity.
    + rewrite <- app_assoc. f_equal. apply IH. exact Hn.
Qed.

Lemma concat_alterSubTrack (f : SubTrack.t -> SubTrack.t) (sts : list SubTrack.t) :
  forall (n : nat) (st : SubTrack.t),
    nth_error sts n = Some st ->
    concat (alterSubTrack f sts n)
    = concat (firstn n sts) ++ f st ++ concat (skipn (S n) sts).
Proof.
  induction sts as [|s r IH]; intros n st Hn.
  - destruct n; discriminate.
  - destruct n as [|n]; simpl in *.
    + injection Hn as ->. reflexivity.
    + rewrite <- app_assoc. f_equal. apply IH. exact Hn.
Qed.

Lemma length_alterSubTrack (f : SubTrack.t -> SubTrack.t) (sts : list SubTrack.t) (n : nat) :
  length (alterSubTrack f sts n) = length sts.
Proof.
  revert n. induction sts as [|s r IH]; intro n; [reflexivity|].
  destruct n; simpl; [reflexivity | rewrite IH; reflexivity].
Qed.

Lemma removeNth_app_skip (A X : list IKey) (m : nat) :
  SubTrack.removeNth (A ++ X) (length A + m) = A ++ SubTrack.removeNth X m.
Proof.
  induction A as [|a A IH]; simpl; [reflexivity|]. rewrite IH. reflexivity.
Qed.

Lemma removeNth_app_inside (st B : list IKey) :
  forall m : nat, (m < length st)%nat ->
    SubTrack.removeNth (st ++ B) m = SubTrack.removeNth st m ++ B.
Proof.
  induction st as [|x r IH]; intros m Hm; simpl in *; [lia|].
  destruct m as [|m]; [reflexivity|]. rewrite IH by lia. reflexivity.
Qed.

Lemma length_removeNth (l : list IKey) :
  forall m : nat, (m < length l)%nat ->
    length (SubTrack.removeNth l m) = (length l - 1)%nat.
Proof.
  induction l as [|x r IH]; intros m Hm; simpl in *; [lia|].
  destruct m as [|m]; simpl; [lia|]. rewrite IH by lia. lia.
Qed.

Lemma alterNth_app_skip (g : IKey -> IKey) (A X : list IKey) (m : nat) :
  SubTrack.alterNth g (A ++ X) (length A + m) = A ++ SubTrack.alterNth g X m.
Proof.
  induction A as [|a A IH]; simpl; [reflexivity|]. rewrite IH. reflexivity.
Qed.

Lemma alterNth_app_inside (g : IKey -> IKey) (st B : list IKey) :
  forall m : nat, (m < length st)%nat ->
    SubTrack.alterNth g (st ++ B) m = SubTrack.alterNth g st m ++ B.
Proof.
  induction st as [|x r IH]; intros m Hm; simpl in *; [lia|].
  destruct m as [|m]; [reflexivity|]. rewrite IH by lia. reflexivity.
Qed.

(** X4.  [RemoveKey] at a valid flat index takes exactly the key at that position
    out of the flat key order: the key count drops by one, every other key
    stays, in order, and the dimension count is as it was. *)
Theorem RemoveKey_removes_flat_key (c : CCompoundSplineTrack) (num : Z) :
  (0 <= num < GetNumKeys c)%Z ->
  flatKeys (RemoveKey c num) = SubTrack.removeNth (flatKeys c) (Z.to_nat num) /\
  GetNumKeys (RemoveKey c num) = (GetNumKeys c - 1)%Z /\
  m_nDimensions (RemoveKey c num) = m_nDimensions c.
Proof.
  intro Hnum.
  destruct (valid_flat_index c num Hnum) as [k Hk].
  destruct (flat_locate c (Z.to_nat num) k Hk) as (n & l & st & Hgsi & Hn & Hl & Hj).
  rewrite Z2Nat.id in Hgsi by lia.
  assert (Hll : (l < length st)%nat) by (apply nth_error_Some; congruence).
  assert (Hflat : flatKeys (RemoveKey c num)
                  = SubTrack.removeNth (flatKeys c) (Z.to_nat num)).
  { unfold RemoveKey. rewrite Hgsi.
    destruct (Z.of_nat n <? 0)%Z eqn:E; [apply Z.ltb_lt in E; lia|].
    unfold onSubTrack. rewrite E, Nat2Z.id. unfold flatKeys. simpl m_subTracks.
    rewrite (concat_alterSubTrack _ _ n st Hn).
    rewrite (concat_split_at _ n st Hn).
    rewrite Hj, removeNth_app_skip, removeNth_app_inside by exact Hll.
    unfold SubTrack.RemoveKey.
    destruct (Z.of_nat l <? 0)%Z eqn:El; [apply Z.ltb_lt in El; lia|].
    rewrite Nat2Z.id. reflexivity. }
  split; [exact Hflat|]. split.
  - rewrite !GetNumKeys_length_flat, Hflat.
    rewrite length_removeNth; rewrite GetNumKeys_length_flat in Hnum; lia.
  - unfold RemoveKey. rewrite Hgsi.
    destruct (Z.of_nat n <? 0)%Z eqn:E; [reflexivity|].
    unfold onSubTrack, m_nDimensions. rewrite E. simpl.
    rewrite length_alterSubTrack. reflexivity.
Qed.

Lemma RemoveKey_removes_flat_key_witness :
  (0 <= 2 < GetNumKeys Examples.trackAB)%Z /\
  flatKeys (RemoveKey Examples.trackAB 2)
  = SubTrack.removeNth (flatKeys Examples.trackAB) (Z.to_nat 2).
Proof.
  assert (Hk : (0 <= 2 < GetNumKeys Examples.trackAB)%Z).
  { vm_compute. split; [discriminate | reflexivity]. }
  split; [exact Hk|].
  exact (proj1 (RemoveKey_removes_flat_key Examples.trackAB 2 Hk)).
Defined.

(** X5.  [SetKeyTime] at a valid flat index changes the time of exactly the key
    at that position of the flat key order: no key is added, removed or
    moved, the key reads back the new time, and every other key its own. *)
Theorem SetKeyTime_sets_flat_key (c : CCompoundSplineTrack) (index : Z) (time : Q) :
  (0 <= index < GetNumKeys c)%Z ->
  flatKeys (SetKeyTime c index time)
  = SubTrack.alterNth (fun x => withTime x time) (flatKeys c) (Z.to_nat index) /\
  GetNumKeys (SetKeyTime c index time) = GetNumKeys c /\
  GetKeyTime (SetKeyTime c index time) index = time /\
  forall j, (0 <= j < GetNumKeys c)%Z -> j <> index ->
            GetKeyTime (SetKeyTime c index time) j = GetKeyTime c j.
Proof.
  intro Hindex.
  destruct (valid_flat_index c index Hindex) as [k Hk].
  destruct (flat_locate c (Z.to_nat index) k Hk) as (n & l & st & Hgsi & Hn & Hl & Hj).
  rewrite Z2Nat.id in Hgsi by lia.
  assert (Hll : (l < length st)%nat) by (apply nth_error_Some; congruence).
  assert (Hflat : flatKeys (SetKeyTime c index time)
                  = SubTrack.alterNth (fun x => withTime x time) (flatKeys c)
                      (Z.to_nat index)).
  { unfold SetKeyTime. rewrite Hgsi.
    destruct (Z.of_nat n <? 0)%Z eqn:E; [apply Z.ltb_lt in E; lia|].
    unfold onSubTrack. rewrite E, Nat2Z.id. unfold flatKeys. simpl m_subTracks.
    rewrite (concat_alterSubTrack _ _ n st Hn).
    rewrite (concat_split_at _ n st Hn).
    rewrite Hj, alterNth_app_skip, alterNth_app_inside by exact Hll.
    unfold SubTrack.SetKeyTime, SubTrack.alterKey.
    destruct (Z.of_nat l <? 0)%Z eqn:El; [apply Z.ltb_lt in El; lia|].
    rewrite Nat2Z.id. reflexivity. }
  assert (Hcount : GetNumKeys (SetKeyTime c index time) = GetNumKeys c).
  { rewrite !GetNumKeys_length_flat, Hflat, length_alterNth. reflexivity. }
  split; [exact Hflat|]. split; [exact Hcount|]. split.
  - assert (Hnew : nth_error (flatKeys (SetKeyTime c index time)) (Z.to_nat index)
                   = Some (withTime k time)).
    { rewrite Hflat, nth_error_alterNth, Nat.eqb_refl, Hk. reflexivity. }
    destruct (GetKeyTime_flat_at _ _ _ Hnew) as [_ Ht].
    rewrite Z2Nat.id in Ht by lia. exact Ht.
  - intros j Hjr Hne.
    destruct (valid_flat_index c j Hjr) as [kj Hkj].
    assert (Hsame : nth_error (flatKeys (SetKeyTime c index time)) (Z.to_nat j)
                    = Some kj).
    { rewrite Hflat, nth_error_alterNth.
      destruct (Nat.eqb (Z.to_nat j) (Z.to_nat index)) eqn:E; [|exact Hkj].
      apply Nat.eqb_eq in E. lia. }
    destruct (GetKeyTime_flat_at _ _ _ Hsame) as [_ Ht].
    destruct (GetKeyTime_flat_at _ _ _ Hkj) as [_ Ht0].
    rewrite Z2Nat.id in Ht, Ht0 by lia. rewrite Ht, Ht0. reflexivity.
Qed.

Lemma SetKeyTime_sets_flat_key_witness :
  (0 <= 2 < GetNumKeys Examples.trackAB)%Z /\
  GetKeyTime (SetKeyTime Examples.trackAB 2 (3 # 2)) 2 = 3 # 2.
Proof.
  assert (Hk : (0 <= 2 < GetNumKeys Examples.trackAB)%Z).
  { vm_compute. split; [discriminate | reflexivity]. }
  split; [exact Hk|].
  exact (proj1 (proj2 (proj2 (SetKeyTime_sets_flat_key Examples.trackAB 2 (3 # 2) Hk)))).
Defined.

(** ** What SelectKey leaves alone *)

Lemma map_alterNth_same {B : Type} (h : IKey -> B) (g : IKey -> IKey) (st : SubTrack.t) :
  (forall x, h (g x) = h x) ->
  forall n : nat, map h (SubTrack.alterNth g st n) = map h st.
Proof.
  intro Hg. induction st as [|x r IH]; intro n; [reflexivity|].
  destruct n as [|n]; simpl; [rewrite Hg; reflexivity | rewrite IH; reflexivity].
Qed.

Lemma selectFirstNear_map {B : Type} (h : IKey -> B) (st : SubTrack.t) (T : Q)
  (select : bool) :
  (forall x, h (withSelected x select) = h x) ->
  forall ms : list Z, map h (selectFirstNear st T select ms) = map h st.
Proof.
  intros Hh ms. induction ms as [|m r IH]; cbn [selectFirstNear]; [reflexivity|].
  destruct (Qltb _ _); [|exact IH].
  unfold SubTrack.SelectKey, SubTrack.alterKey.
  destruct (m <? 0)%Z; [reflexivity|].
  apply map_alterNth_same. exact Hh.
Qed.

Lemma SelectKey_subTracks (c : CCompoundSplineTrack) (key : Z) (select : bool) :
  SelectKey c key select = c \/
  exists T, SelectKey c key select
            = withSubTracks c
                (map (fun sk => selectFirstNear sk T select (keyIndices sk))
                     (m_subTracks c)).
Proof.
  unfold SelectKey. destruct (GetSubTrackIndex c key) as [i l].
  destruct (i <? 0)%Z; [left; reflexivity|].
  destruct (subTrackAt c i) as [st|]; [|left; reflexivity].
  right. exists (SubTrack.GetKeyTime st l). reflexivity.
Qed.

Lemma map_flat_map {B : Type} (h : IKey -> B) (g : SubTrack.t -> SubTrack.t)
  (sts : list SubTrack.t) :
  (forall st, map h (g st) = map h st) ->
  map h (concat (map g sts)) = map h (concat sts).
Proof.
  intro Hg. induction sts as [|st r IH]; simpl; [reflexivity|].
  rewrite !map_app, Hg, IH. reflexivity.
Qed.

(** X6.  [SelectKey] touches selection flags only: whatever the index, every key
    keeps its time and its value, and the key count and the dimension count
    are as they were. *)
Theorem SelectKey_keeps_times_and_values (c : CCompoundSplineTrack) (key : Z)
  (select : bool) :
  map keyTime (flatKeys (SelectKey c key select)) = map keyTime (flatKeys c) /\
  map keyValue (flatKeys (SelectKey c key select)) = map keyValue (flatKeys c) /\
  GetNumKeys (SelectKey c key select) = GetNumKeys c /\
  m_nDimensions (SelectKey c key select) = m_nDimensions c.
Proof.
  destruct (SelectKey_subTracks c key select) as [-> | [T ->]].
  - repeat split; reflexivity.
  - assert (Ht : map keyTime (flatKeys (withSubTracks c
                   (map (fun sk => selectFirstNear sk T select (keyIndices sk))
                        (m_subTracks c))))
                 = map keyTime (flatKeys c)).
    { unfold flatKeys. simpl m_subTracks. apply map_flat_map.
      intro st. apply selectFirstNear_map. reflexivity. }
    split; [exact Ht|]. split; [|split].
    + unfold flatKeys. simpl m_subTracks. apply map_flat_map.
      intro st. apply selectFirstNear_map. reflexivity.
    + rewrite !GetNumKeys_length_flat.
      rewrite <- (length_map keyTime (flatKeys (withSubTracks _ _))), Ht, length_map.
      reflexivity.
    + unfold m_nDimensions. simpl. rewrite length_map. reflexivity.
Qed.

(** ** SelectKey followed by a query or by itself *)

Lemma GetSubTrackIndex_from_same_counts (sts : list SubTrack.t) :
  forall (sts' : list SubTrack.t) (i count key : Z),
    map SubTrack.GetNumKeys sts' = map SubTrack.GetNumKeys sts ->
    GetSubTrackIndex_from sts' i count key = GetSubTrackIndex_from sts i count key.
Proof.
  induction sts as [|st r IH]; intros sts' i count key Hc.
  - destruct sts'; [reflexivity | discriminate].
  - destruct sts' as [|st' r']; [discriminate|].
    simpl in Hc. injection Hc as Hst Hr. simpl. rewrite Hst.
    destruct (key <? count + SubTrack.GetNumKeys st)%Z; [reflexivity|].
    apply IH. exact Hr.
Qed.

Lemma length_selectFirstNear (st : SubTrack.t) (T : Q) (select : bool) (ms : list Z) :
  length (selectFirstNear st T select ms) = length st.
Proof.
  rewrite <- (length_map keyTime (selectFirstNear st T select ms)).
  rewrite (selectFirstNear_map keyTime st T select (fun x => eq_refl) ms).
  apply length_map.
Qed.

Lemma GetSubTrackIndex_after_select (c : CCompoundSplineTrack) (T : Q)
  (select : bool) (key : Z) :
  GetSubTrackIndex
    (withSubTracks c
       (map (fun sk => selectFirstNear sk T select (keyIndices sk)) (m_subTracks c)))
    key
  = GetSubTrackIndex c key.
Proof.
  unfold GetSubTrackIndex. simpl m_subTracks.
  apply GetSubTrackIndex_from_same_counts.
  rewrite map_map. apply map_ext. intro st.
  unfold SubTrack.GetNumKeys. rewrite length_selectFirstNear. reflexivity.
Qed.

(** X7.  After [SelectKey] at a valid flat index, [IsKeySelected] at that index
    answers the flag that was given, provided no earlier key of the same
    sub-track lies within 0.001 of the key's time. *)
Theorem SelectKey_then_IsKeySelected (c : CCompoundSplineTrack) (key : Z)
  (select : bool) :
  (0 <= key < GetNumKeys c)%Z ->
  (forall (st : SubTrack.t) (j : nat) (kj : IKey),
      subTrackAt c (fst (GetSubTrackIndex c key)) = Some st ->
      (Z.of_nat j < snd (GetSubTrackIndex c key))%Z ->
      nth_error st j = Some kj ->
      ~ nearTime (GetKeyTime c key) kj) ->
  IsKeySelected (SelectKey c key select) key = select.
Proof.
  intros Hkey Hfirst.
  destruct (valid_flat_index c key Hkey) as [k Hk].
  destruct (flat_locate c (Z.to_nat key) k Hk) as (n & l & st & Hgsi & Hn & Hl & _).
  rewrite Z2Nat.id in Hgsi by lia.
  pose proof (flat_index_time c (Z.to_nat key) k Hk) as Ht.
  rewrite Z2Nat.id in Ht by lia.
  rewrite Hgsi in Hfirst. simpl fst in Hfirst. simpl snd in Hfirst.
  assert (Hsub : subTrackAt c (Z.of_nat n) = Some st).
  { unfold subTrackAt.
    destruct (Z.of_nat n <? 0)%Z eqn:E; [apply Z.ltb_lt in E; lia|].
    rewrite Nat2Z.id. exact Hn. }
  assert (Hnear : firstNear st (GetKeyTime c key) l).
  { exists k. split; [exact Hl|]. split.
    - unfold roundedNear, fsub. rewrite Ht.
      rewrite (round32_zero (keyTime k - keyTime k)) by ring. reflexivity.
    - intros j kj Hj Hnj Hr. apply (Hfirst st j kj Hsub); [lia | exact Hnj |].
      unfold nearTime. apply rounded_near_is_near. exact Hr. }
  rewrite (SelectKey_valid c key select Hkey).
  unfold IsKeySelected. rewrite GetSubTrackIndex_after_select, Hgsi.
  destruct (Z.of_nat n <? 0)%Z eqn:E; [apply Z.ltb_lt in E; lia|].
  unfold subTrackAt. rewrite E, Nat2Z.id. simpl m_subTracks.
  rewrite nth_error_map, Hn. simpl.
  destruct (selectFirstNear_keys st (GetKeyTime c key) select) as [_ Hkeys].
  destruct (Hkeys l k Hl) as [Hsel _].
  unfold SubTrack.IsKeySelected. rewrite keyAt_of_nat, (Hsel Hnear). reflexivity.
Qed.

Lemma SelectKey_then_IsKeySelected_witness :
  (0 <= 3 < GetNumKeys Examples.trackAB)%Z /\
  IsKeySelected (SelectKey Examples.trackAB 3 true) 3 = true.
Proof.
  assert (Hk : (0 <= 3 < GetNumKeys Examples.trackAB)%Z).
  { vm_compute. split; [discriminate | reflexivity]. }
  split; [exact Hk|].
  apply (SelectKey_then_IsKeySelected Examples.trackAB 3 true Hk).
  intros st j kj Hst Hj Hnj Hnear.
  change (subTrackAt Examples.trackAB (fst (GetSubTrackIndex Examples.trackAB 3)))
    with (Some [mkKey 1 21 false; mkKey 3 23 false]) in Hst.
  injection Hst as <-.
  change (snd (GetSubTrackIndex Examples.trackAB 3)) with 1%Z in Hj.
  destruct j as [|j]; [|lia].
  simpl in Hnj. injection Hnj as <-.
  vm_compute in Hnear. discriminate Hnear.
Defined.

Lemma alterNth_twice (g : IKey -> IKey) (st : SubTrack.t) :
  (forall x, g (g x) = g x) ->
  forall m : nat, SubTrack.alterNth g (SubTrack.alterNth g st m) m
                  = SubTrack.alterNth g st m.
Proof.
  intro Hg. induction st as [|x r IH]; intro m; [reflexivity|].
  destruct m as [|m]; simpl; [rewrite Hg; reflexivity | rewrite IH; reflexivity].
Qed.

Lemma firstNear_after_flag (st : SubTrack.t) (T : Q) (select : bool) (m0 m : nat) :
  firstNear (SubTrack.alterNth (fun x => withSelected x select) st m0) T m
  <-> firstNear st T m.
Proof.
  assert (Hnth : forall j : nat,
             (forall kj, nth_error st j = Some kj ->
                         exists kj', nth_error (SubTrack.alterNth
                                        (fun x => withSelected x select) st m0) j = Some kj'
                                     /\ keyTime kj' = keyTime kj) /\
             (forall kj', nth_error (SubTrack.alterNth
                                       (fun x => withSelected x select) st m0) j = Some kj' ->
                          exists kj, nth_error st j = Some kj
                                     /\ keyTime kj' = keyTime kj)).
  { intro j. rewrite nth_error_alterNth. split.
    - intros kj Hj. rewrite Hj. destruct (Nat.eqb j m0); eexists; split; reflexivity.
    - intros kj' Hj. destruct (nth_error st j) as [kj|]; [|destruct (Nat.eqb j m0); discriminate].
      exists kj. split; [reflexivity|].
      destruct (Nat.eqb j m0); simpl in Hj; injection Hj as <-; reflexivity. }
  unfold firstNear, roundedNear. split.
  - intros (km' & Hm & Hnear & Hfirst).
    destruct (proj2 (Hnth m) km' Hm) as (km & Hkm & Ht).
    exists km. split; [exact Hkm|]. split; [rewrite <- Ht; exact Hnear|].
    intros j kj Hj Hnj Hn.
    destruct (proj1 (Hnth j) kj Hnj) as (kj' & Hkj' & Htj).
    apply (Hfirst j kj' Hj Hkj'). rewrite Htj. exact Hn.
  - intros (km & Hm & Hnear & Hfirst).
    destruct (proj1 (Hnth m) km Hm) as (km' & Hkm' & Ht).
    exists km'. split; [exact Hkm'|]. split; [rewrite Ht; exact Hnear|].
    intros j kj' Hj Hnj Hn.
    destruct (proj2 (Hnth j) kj' Hnj) as (kj & Hkj & Htj).
    apply (Hfirst j kj Hj Hkj). rewrite <- Htj. exact Hn.
Qed.

Lemma selectFirstNear_twice (st : SubTrack.t) (T : Q) (select : bool) :
  selectFirstNear (selectFirstNear st T select (keyIndices st)) T select
    (keyIndices (selectFirstNear st T select (keyIndices st)))
  = selectFirstNear st T select (keyIndices st).
Proof.
  unfold keyIndices at 2. rewrite length_selectFirstNear. fold (keyIndices st).
  unfold keyIndices.
  destruct (selectFirstNear_seq st T select (length st) 0 eq_refl) as
    [(m0 & Hfirst0 & Heq) | (Hnone & Heq)].
  - intros j kj Hj. lia.
  - rewrite Heq.
    set (st' := SubTrack.alterNth (fun x => withSelected x select) st m0).
    assert (Hlen : length st' = length st) by apply length_alterNth.
    rewrite <- Hlen.
    destruct (selectFirstNear_seq st' T select (length st') 0 eq_refl) as
      [(m1 & Hfirst1 & Heq1) | (Hnone1 & Heq1)].
    + intros j kj Hj. lia.
    + rewrite Heq1.
      assert (Hm : m1 = m0).
      { apply (firstNear_unique st T); [|exact Hfirst0].
        apply (firstNear_after_flag st T select m0 m1). exact Hfirst1. }
      subst m1. apply alterNth_twice. reflexivity.
    + exact Heq1.
  - rewrite Heq. exact Heq.
Qed.

Lemma GetKeyTime_selectFirstNear (st : SubTrack.t) (T : Q) (select : bool)
  (ms : list Z) (l : Z) :
  SubTrack.GetKeyTime (selectFirstNear st T select ms) l = SubTrack.GetKeyTime st l.
Proof.
  unfold SubTrack.GetKeyTime, SubTrack.keyAt.
  destruct (l <? 0)%Z; [reflexivity|].
  pose proof (selectFirstNear_map keyTime st T select (fun x => eq_refl) ms) as Hmap.
  assert (Hnth : nth_error (map keyTime (selectFirstNear st T select ms)) (Z.to_nat l)
                 = nth_error (map keyTime st) (Z.to_nat l)) by (rewrite Hmap; reflexivity).
  rewrite !nth_error_map in Hnth.
  destruct (nth_error (selectFirstNear st T select ms) (Z.to_nat l));
    destruct (nth_error st (Z.to_nat l)); simpl in Hnth; congruence.
Qed.

(** X8.  [SelectKey] is idempotent: giving the same flag at the same index a
    second time changes nothing more, whatever the index. *)
Theorem SelectKey_idempotent (c : CCompoundSplineTrack) (key : Z) (select : bool) :
  SelectKey (SelectKey c key select) key select = SelectKey c key select.
Proof.
  unfold SelectKey at 2 3.
  destruct (GetSubTrackIndex c key) as [i l] eqn:Hgsi.
  destruct (i <? 0)%Z eqn:Ei.
  - unfold SelectKey. rewrite Hgsi, Ei. reflexivity.
  - destruct (subTrackAt c i) as [st|] eqn:Hst.
    + set (T := SubTrack.GetKeyTime st l).
      unfold SelectKey. rewrite GetSubTrackIndex_after_select, Hgsi, Ei.
      unfold subTrackAt in *. simpl m_subTracks.
      destruct (i <? 0)%Z; [discriminate|].
      rewrite nth_error_map, Hst. simpl.
      rewrite GetKeyTime_selectFirstNear. fold T.
      unfold withSubTracks. simpl. f_equal.
      rewrite map_map. apply map_ext. intro sk. apply selectFirstNear_twice.
    + unfold SelectKey. rewrite Hgsi, Ei, Hst. reflexivity.
Qed.

(** ** NextKeyByTime on any track *)

Lemma firstLater_sound (st : SubTrack.t) (time : Q) (ks : list Z) (k : Z) (t : Q) :
  firstLater st time ks = Some (k, t) ->
  In k ks /\ t = SubTrack.GetKeyTime st k /\ time < t.
Proof.
  induction ks as [|k0 r IH]; cbn [firstLater]; [discriminate|].
  destruct (Qltb time (SubTrack.GetKeyTime st k0)) eqn:E.
  - intro Hs. injection Hs as <- <-. apply Qltb_lt in E.
    split; [left; reflexivity|]. split; [reflexivity | exact E].
  - intro Hs. destruct (IH Hs) as (Hin & Ht & Hlt).
    split; [right; exact Hin|]. split; assumption.
Qed.

Lemma In_keyIndices (st : SubTrack.t) (k : Z) :
  In k (keyIndices st) -> exists m : nat, k = Z.of_nat m /\ (m < length st)%nat.
Proof.
  unfold keyIndices. rewrite in_map_iff.
  intros (m & Hm & Hin). apply in_seq in Hin. exists m. split; [symmetry; exact Hm | lia].
Qed.

Lemma NextKeyByTime_from_sound (time : Q) (sts : list SubTrack.t) :
  forall (P : list IKey) (result : Z) (timeNext : Q),
    timeNext <= FLT_MAX ->
    (result = (-1)%Z \/
     exists (m : nat) (km : IKey),
       result = Z.of_nat m /\ nth_error P m = Some km /\
       time < keyTime km /\ keyTime km < FLT_MAX) ->
    NextKeyByTime_from sts time (Z.of_nat (length P)) result timeNext = (-1)%Z \/
    exists (m : nat) (km : IKey),
      NextKeyByTime_from sts time (Z.of_nat (length P)) result timeNext = Z.of_nat m /\
      nth_error (P ++ concat sts) m = Some km /\
      time < keyTime km /\ keyTime km < FLT_MAX.
Proof.
  induction sts as [|st r IH]; intros P result timeNext Hbound Hinv.
  - simpl. rewrite app_nil_r. exact Hinv.
  - cbn [NextKeyByTime_from concat].
    assert (Hold : result = (-1)%Z \/
                   exists (m : nat) (km : IKey),
                     result = Z.of_nat m /\ nth_error (P ++ st) m = Some km /\
                     time < keyTime km /\ keyTime km < FLT_MAX).
    { destruct Hinv as [Hr | (m & km & Hr & Hm & Hlt & Hmax)]; [left; exact Hr|].
      right. exists m, km. split; [exact Hr|]. split; [|split; assumption].
      rewrite nth_error_app1; [exact Hm|]. apply nth_error_Some. congruence. }
    assert (Hcount : (Z.of_nat (length P) + SubTrack.GetNumKeys st)%Z
                     = Z.of_nat (length (P ++ st))).
    { unfold SubTrack.GetNumKeys. rewrite length_app. lia. }
    rewrite app_assoc, Hcount.
    destruct (firstLater st time (keyIndices st)) as [[k t]|] eqn:Efl.
    + destruct (firstLater_sound _ _ _ _ _ Efl) as (Hin & Ht & Hlt).
      destruct (In_keyIndices st k Hin) as (m & -> & Hm).
      destruct (nth_error_in_range st m Hm) as [km Hkm].
      rewrite (GetKeyTime_nth _ _ _ Hkm) in Ht. subst t.
      destruct (Qltb (keyTime km) timeNext) eqn:E.
      * apply Qltb_lt in E. apply IH; [apply Qlt_le_weak; lra|].
        right. exists (length P + m)%nat, km.
        split; [lia|]. split; [|split; [exact Hlt | lra]].
        rewrite nth_error_app2 by lia.
        replace (length P + m - length P)%nat with m by lia. exact Hkm.
      * apply IH; [exact Hbound | exact Hold].
    + apply IH; [exact Hbound | exact Hold].
Qed.

(** X9.  On every track and for every index, [NextKeyByTime] answers -1 or a
    valid flat index whose key is strictly later than the key asked from and
    earlier than [FLT_MAX]; it never answers the index it was asked from. *)
Theorem NextKeyByTime_later_or_none (c : CCompoundSplineTrack) (key : Z) :
  NextKeyByTime c key = (-1)%Z \/
  ((0 <= NextKeyByTime c key < GetNumKeys c)%Z /\
   GetKeyTime c key < GetKeyTime c (NextKeyByTime c key) /\
   GetKeyTime c (NextKeyByTime c key) < FLT_MAX /\
   NextKeyByTime c key <> key).
Proof.
  destruct (NextKeyByTime_from_sound (GetKeyTime c key) (m_subTracks c) []
              (-1)%Z FLT_MAX (Qle_refl _) (or_introl eq_refl))
    as [Hnone | (m & km & Hr & Hm & Hlt & Hmax)].
  - left. exact Hnone.
  - right. simpl in Hr, Hm. fold (NextKeyByTime c key) in Hr.
    destruct (GetKeyTime_flat_at c m km Hm) as [Hrange Ht].
    rewrite Hr. split; [exact Hrange|].
    rewrite Ht. split; [exact Hlt|]. split; [exact Hmax|].
    intro Heq. rewrite <- Heq, Ht in Hlt. lra.
Qed.

(** ** PreferShortestRotPath *)

Lemma truncate_small (q : Q) : -1 < q -> q < 1 -> truncate q = 0%Z.
Proof.
  destruct q as [a b]. unfold truncate, Qlt. simpl. intros Hlo Hhi.
  destruct (Z_lt_le_dec a 0) as [Hneg|Hpos].
  - assert (H0 : (Z.quot (- a) (Z.pos b) = 0)%Z) by (apply Z.quot_small; lia).
    rewrite Z.quot_opp_l in H0 by lia. lia.
  - apply Z.quot_small. lia.
Qed.

Lemma unrounded_same_rotation (degree degree0 : Q) :
  exists k : Z, RotationSpec.unrounded degree degree0 == degree + 360 * inject_Z k.
Proof.
  pose proof (turns_is_truncate degree0) as Hn.
  set (N := truncate (degree0 / 360)) in *.
  destruct (unrounded_cases degree degree0) as [[_ Hr] | [_ Hr]].
  - destruct (alternateWrap_cases degree) as [[_ Ha] | [_ Ha]].
    + exists (N - 1)%Z. rewrite Hr, Ha, Hn.
      unfold Z.sub. rewrite inject_Z_plus. simpl inject_Z. ring.
    + exists (N + 1)%Z. rewrite Hr, Ha, Hn.
      rewrite inject_Z_plus. simpl inject_Z. ring.
  - exists N. rewrite Hr, Hn. ring.
Qed.

Lemma unrounded_keeps_equivalent (degree degree0 : Q) (k : Z) :
  -181 < degree -> degree < 181 ->
  degree0 == degree + 360 * inject_Z k ->
  RotationSpec.unrounded degree degree0 == degree0.
Proof.
  intros Hlo Hhi Hprev.
  pose proof (turns_is_truncate degree0) as Hn.
  destruct (fmod_tpl_360 degree0) as (Hp & Hplo & Hphi).
  fold (RotationSpec.principal degree0) in Hp, Hplo, Hphi.
  set (N := truncate (degree0 / 360)) in *.
  set (p := RotationSpec.principal degree0) in *.
  assert (Hm : p - degree == 360 * inject_Z (k - N)).
  { unfold Z.sub. rewrite inject_Z_plus, inject_Z_opp. lra. }
  set (m := (k - N)%Z) in *. clearbody m.
  assert (Hgoal : forall chosen,
             chosen == p ->
             chosen + RotationSpec.turns degree0 * 360 == degree0).
  { intros chosen Hc. rewrite Hc, Hn. lra. }
  destruct (unrounded_cases degree degree0) as [[Hcmp Hr] | [Hcmp Hr]];
    fold p in Hcmp; rewrite Hr; clear Hr;
    destruct (alternateWrap_cases degree) as [[Hsign Ha] | [Hsign Ha]];
    rewrite Ha in *; clear Ha.
  - (* the alternate wrap was chosen, degree >= 0 *)
    assert (Hm1 : (-2 < m)%Z) by (rewrite Zlt_Qlt; unfold inject_Z at 1; lra).
    assert (Hm2 : (m < 1)%Z) by (rewrite Zlt_Qlt; change (inject_Z 1) with (1 # 1); lra).
    assert (Hcases : m = (-1)%Z \/ m = 0%Z) by lia.
    destruct Hcases as [Hm' | Hm']; rewrite Hm' in Hm; unfold inject_Z in Hm.
    + apply Hgoal. lra.
    + exfalso.
      assert (H1 : degree - 360 - p == -360) by lra.
      assert (H2 : degree - p == 0) by lra.
      rewrite H1, H2 in Hcmp. vm_compute in Hcmp. discriminate Hcmp.
  - (* the alternate wrap was chosen, degree < 0 *)
    assert (Hm1 : (-1 < m)%Z) by (rewrite Zlt_Qlt; unfold inject_Z at 1; lra).
    assert (Hm2 : (m < 2)%Z) by (rewrite Zlt_Qlt; change (inject_Z 2) with (2 # 1); lra).
    assert (Hcases : m = 0%Z \/ m = 1%Z) by lia.
    destruct Hcases as [Hm' | Hm']; rewrite Hm' in Hm; unfold inject_Z in Hm.
    + exfalso.
      assert (H1 : degree + 360 - p == 360) by lra.
      assert (H2 : degree - p == 0) by lra.
      rewrite H1, H2 in Hcmp. vm_compute in Hcmp. discriminate Hcmp.
    + apply Hgoal. lra.
  - (* the target was chosen, degree >= 0 *)
    assert (Hm1 : (-2 < m)%Z) by (rewrite Zlt_Qlt; unfold inject_Z at 1; lra).
    assert (Hm2 : (m < 1)%Z) by (rewrite Zlt_Qlt; change (inject_Z 1) with (1 # 1); lra).
    assert (Hcases : m = (-1)%Z \/ m = 0%Z) by lia.
    destruct Hcases as [Hm' | Hm']; rewrite Hm' in Hm; unfold inject_Z in Hm.
    + exfalso.
      assert (H1 : degree - 360 - p == 0) by lra.
      assert (H2 : degree - p == 360) by lra.
      rewrite H1, H2 in Hcmp. vm_compute in Hcmp. apply Hcmp. reflexivity.
    + apply Hgoal. lra.
  - (* the target was chosen, degree < 0 *)
    assert (Hm1 : (-1 < m)%Z) by (rewrite Zlt_Qlt; unfold inject_Z at 1; lra).
    assert (Hm2 : (m < 2)%Z) by (rewrite Zlt_Qlt; change (inject_Z 2) with (2 # 1); lra).
    assert (Hcases : m = 0%Z \/ m = 1%Z) by lia.
    destruct Hcases as [Hm' | Hm']; rewrite Hm' in Hm; unfold inject_Z in Hm.
    + apply Hgoal. lra.
    + exfalso.
      assert (H1 : degree + 360 - p == 0) by lra.
      assert (H2 : degree - p == -360) by lra.
      rewrite H1, H2 in Hcmp. vm_compute in Hcmp. apply Hcmp. reflexivity.
Qed.

Lemma unrounded_short_path_unchanged (degree degree0 : Q) :
  -360 < degree0 -> degree0 < 360 ->
  Qabs (degree - degree0) <= 180 ->
  RotationSpec.unrounded degree degree0 == degree.
Proof.
  intros Hlo Hhi Hnear.
  assert (Hq : degree0 / 360 == degree0 * (1 # 360)) by field.
  assert (HN : truncate (degree0 / 360) = 0%Z).
  { apply truncate_small; rewrite Hq; lra. }
  pose proof (turns_is_truncate degree0) as Hn.
  destruct (fmod_tpl_360 degree0) as (Hp & _ & _).
  fold (RotationSpec.principal degree0) in Hp.
  rewrite HN in Hn, Hp. unfold inject_Z in Hn, Hp.
  assert (Hp' : RotationSpec.principal degree0 == degree0) by lra.
  apply Qabs_Qle_condition in Hnear.
  destruct (unrounded_cases degree degree0) as [[Hcmp Hr] | [_ Hr]].
  - exfalso. rewrite Hp' in Hcmp.
    assert (Hle : Qabs (degree - degree0) <= 180) by (apply Qabs_Qle_condition; exact Hnear).
    assert (Hlt : Qabs (RotationSpec.alternateWrap degree - degree0) < 180)
      by (eapply Qlt_le_trans; eassumption).
    apply Qabs_Qlt_condition in Hlt.
    destruct (alternateWrap_cases degree) as [[_ Ha] | [_ Ha]]; rewrite Ha in Hlt; lra.
  - rewrite Hr, Hn. ring.
Qed.

(** X11.  On the grid where no operation rounds (angles that are whole
    multiples of [2^-g] degree, [0 <= g <= 14], with
    [|previous| + 541 < 2^(24-g)]; the target in (-181, 181)), the angle
    [PreferShortestRotPath] returns differs from the target by a whole number
    of turns: it names the same rotation. *)
Theorem PreferShortestRotPath_same_rotation (g : Z) (degree degree0 : Q) :
  (0 <= g <= 14)%Z ->
  multipleOfPow2 (- g) degree -> multipleOfPow2 (- g) degree0 ->
  Qabs degree0 + 541 < pow2 (24 - g) ->
  -181 < degree -> degree < 181 ->
  exists k : Z, PreferShortestRotPath degree degree0 == degree + 360 * inject_Z k.
Proof.
  intros Hg Gd Gd0 Hbound Hlo Hhi.
  destruct (unrounded_same_rotation degree degree0) as [k Hk].
  exists k.
  rewrite (PreferShortestRotPath_unrounded g degree degree0 Hg Gd Gd0 Hbound Hlo Hhi).
  exact Hk.
Qed.

Lemma PreferShortestRotPath_same_rotation_witness :
  multipleOfPow2 (- 2) (-681 # 4) /\ multipleOfPow2 (- 2) (1483 # 4) /\
  Qabs (1483 # 4) + 541 < pow2 (24 - 2) /\
  exists k : Z,
    PreferShortestRotPath (-681 # 4) (1483 # 4) == (-681 # 4) + 360 * inject_Z k.
Proof.
  assert (G1 : multipleOfPow2 (- 2) (-681 # 4)) by (exists (-681)%Z; reflexivity).
  assert (G2 : multipleOfPow2 (- 2) (1483 # 4)) by (exists 1483%Z; reflexivity).
  assert (Hb : Qabs (1483 # 4) + 541 < pow2 (24 - 2)) by reflexivity.
  split; [exact G1|]. split; [exact G2|]. split; [exact Hb|].
  apply (PreferShortestRotPath_same_rotation 2 (-681 # 4) (1483 # 4));
    [lia | exact G1 | exact G2 | exact Hb | reflexivity | reflexivity].
Defined.

(** X12.  On that grid, re-keying the rotation that is already stored keeps
    the stored angle: when the previous angle is the target plus a whole
    number of turns, the result is the previous angle. *)
Theorem PreferShortestRotPath_keeps_equivalent (g : Z) (degree degree0 : Q) (k : Z) :
  (0 <= g <= 14)%Z ->
  multipleOfPow2 (- g) degree -> multipleOfPow2 (- g) degree0 ->
  Qabs degree0 + 541 < pow2 (24 - g) ->
  -181 < degree -> degree < 181 ->
  degree0 == degree + 360 * inject_Z k ->
  PreferShortestRotPath degree degree0 == degree0.
Proof.
  intros Hg Gd Gd0 Hbound Hlo Hhi Hprev.
  rewrite (PreferShortestRotPath_unrounded g degree degree0 Hg Gd Gd0 Hbound Hlo Hhi).
  apply (unrounded_keeps_equivalent degree degree0 k Hlo Hhi Hprev).
Qed.

Lemma PreferShortestRotPath_keeps_equivalent_witness :
  multipleOfPow2 (- 0) (-10) /\ multipleOfPow2 (- 0) 710 /\
  Qabs 710 + 541 < pow2 (24 - 0) /\
  -181 < -10 /\ -10 < 181 /\ 710 == -10 + 360 * inject_Z 2 /\
  PreferShortestRotPath (-10) 710 == 710.
Proof.
  assert (G1 : multipleOfPow2 (- 0) (-10)) by (exists (-10)%Z; reflexivity).
  assert (G2 : multipleOfPow2 (- 0) 710) by (exists 710%Z; reflexivity).
  assert (Hb : Qabs 710 + 541 < pow2 (24 - 0)) by reflexivity.
  assert (H1 : -181 < -10) by reflexivity.
  assert (H2 : -10 < 181) by reflexivity.
  assert (H3 : 710 == -10 + 360 * inject_Z 2) by (vm_compute; reflexivity).
  split; [exact G1|]. split; [exact G2|]. split; [exact Hb|].
  split; [exact H1|]. split; [exact H2|]. split; [exact H3|].
  exact (PreferShortestRotPath_keeps_equivalent 0 (-10) 710 2
           ltac:(lia) G1 G2 Hb H1 H2 H3).
Defined.

(** X13.  On that grid, when the previous angle carries no full turn and the
    target is at most half a turn away from it, the target is stored as it
    is. *)
Theorem PreferShortestRotPath_short_path_unchanged (g : Z) (degree degree0 : Q) :
  (0 <= g <= 14)%Z ->
  multipleOfPow2 (- g) degree -> multipleOfPow2 (- g) degree0 ->
  -181 < degree -> degree < 181 ->
  -360 < degree0 -> degree0 < 360 ->
  Qabs (degree - degree0) <= 180 ->
  PreferShortestRotPath degree degree0 == degree.
Proof.
  intros Hg Gd Gd0 Hdlo Hdhi Hlo Hhi Hnear.
  assert (Hbound : Qabs degree0 + 541 < pow2 (24 - g)).
  { assert (HB : 1024 <= pow2 (24 - g)).
    { change 1024 with (pow2 10). apply pow2_le. lia. }
    assert (Ha : Qabs degree0 < 360) by (apply Qabs_Qlt_condition; split; assumption).
    lra. }
  rewrite (PreferShortestRotPath_unrounded g degree degree0 Hg Gd Gd0 Hbound Hdlo Hdhi).
  apply (unrounded_short_path_unchanged degree degree0 Hlo Hhi Hnear).
Qed.

Lemma PreferShortestRotPath_short_path_unchanged_witness :
  multipleOfPow2 (- 14) (-80) /\ multipleOfPow2 (- 14) (1638399 # 16384) /\
  -181 < -80 /\ -80 < 181 /\
  -360 < 1638399 # 16384 /\ 1638399 # 16384 < 360 /\
  Qabs (-80 - (1638399 # 16384)) <= 180 /\
  PreferShortestRotPath (-80) (1638399 # 16384) == -80.
Proof.
  assert (G1 : multipleOfPow2 (- 14) (-80)) by (exists (-1310720)%Z; reflexivity).
  assert (G2 : multipleOfPow2 (- 14) (1638399 # 16384))
    by (exists 1638399%Z; reflexivity).
  assert (H1 : -181 < -80) by reflexivity.
  assert (H2 : -80 < 181) by reflexivity.
  assert (H3 : -360 < 1638399 # 16384) by reflexivity.
  assert (H4 : 1638399 # 16384 < 360) by reflexivity.
  assert (H5 : Qabs (-80 - (1638399 # 16384)) <= 180) by (vm_compute; discriminate).
  split; [exact G1|]. split; [exact G2|]. split; [exact H1|]. split; [exact H2|].
  split; [exact H3|]. split; [exact H4|]. split; [exact H5|].
  exact (PreferShortestRotPath_short_path_unchanged 14 (-80) (1638399 # 16384)
           ltac:(lia) G1 G2 H1 H2 H3 H4 H5).
Defined.

(** ** Values through the call shapes *)

Section ValueShapes.
Context {spline : SplineInternals}.

Lemma GetValue_Vec3_from_beyond (time : Q) (applyMultiplier : bool)
  (sts : list SubTrack.t) :
  forall (j k : Z) (v : Vec3),
    (0 <= k < 3)%Z -> (j + Z.of_nat (length sts) <= k)%Z ->
    Vec3_get (GetValue_Vec3_from sts j time v applyMultiplier) k = Vec3_get v k.
Proof.
  induction sts as [|s r IH]; intros j k v Hk Hj; simpl in *; [reflexivity|].
  rewrite IH by lia. rewrite Vec3_get_set by lia.
  destruct (j =? k)%Z eqn:E; [apply Z.eqb_eq in E; lia | reflexivity].
Qed.

Lemma GetValue_Vec4_from_beyond (time : Q) (applyMultiplier : bool)
  (sts : list SubTrack.t) :
  forall (j k : Z) (v : Vec4),
    (0 <= k < 4)%Z -> (j + Z.of_nat (length sts) <= k)%Z ->
    Vec4_get (GetValue_Vec4_from sts j time v applyMultiplier) k = Vec4_get v k.
Proof.
  induction sts as [|s r IH]; intros j k v Hk Hj; simpl in *; [reflexivity|].
  rewrite IH by lia. rewrite Vec4_get_set by lia.
  destruct (j =? k)%Z eqn:E; [apply Z.eqb_eq in E; lia | reflexivity].
Qed.

(** X14.  [GetValue] leaves the components beyond the dimension count as the
    caller passed them: a Vector3 or Vector4 component from [m_nDimensions]
    on is not written, and on a track without sub-tracks the float shape
    returns the value passed in. *)
Theorem GetValue_leaves_inactive_components (c : CCompoundSplineTrack) (time : Q)
  (applyMultiplier : bool) :
  (forall (value : Vec3) (i : Z),
      (m_nDimensions c <= i < 3)%Z ->
      Vec3_get (GetValue_Vec3 c time value applyMultiplier) i = Vec3_get value i) /\
  (forall (value : Vec4) (i : Z),
      (m_nDimensions c <= i < 4)%Z ->
      Vec4_get (GetValue_Vec4 c time value applyMultiplier) i = Vec4_get value i) /\
  (forall value : Q,
      m_nDimensions c = 0%Z -> GetValue_float c time value applyMultiplier = value).
Proof.
  unfold m_nDimensions. split; [|split].
  - intros value i Hi. unfold GetValue_Vec3.
    apply GetValue_Vec3_from_beyond; lia.
  - intros value i Hi. unfold GetValue_Vec4.
    apply GetValue_Vec4_from_beyond; lia.
  - intros value Hd. unfold GetValue_float.
    destruct (m_subTracks c); [reflexivity | simpl in Hd; lia].
Qed.

Lemma GetValue_SetValue_same (st : SubTrack.t) (time time' x : Q) :
  time == time' ->
  SubTrack.GetValue (SubTrack.SetValue st time x false false) time' false = x.
Proof.
  intro Heq. apply GetValue_stored.
  apply storedValue_writeKey_same. exact Heq.
Qed.

(** X15.  A value written without the default and multiplier flags reads back at
    the same time: component [i] of a Vector3 or Vector4 for every active
    sub-track [i], and the float itself. *)
Theorem SetValue_then_GetValue (c : CCompoundSplineTrack) (time : Q) (i : nat)
  (st : SubTrack.t) :
  nth_error (m_subTracks c) i = Some st ->
  (forall value v0 : Vec3,
      (i < 3)%nat ->
      Vec3_get (GetValue_Vec3 (SetValue_Vec3 c time value false false) time v0 false)
               (Z.of_nat i)
      = Vec3_get value (Z.of_nat i)) /\
  (forall value v0 : Vec4,
      (i < 4)%nat ->
      Vec4_get (GetValue_Vec4 (SetValue_Vec4 c time value false false) time v0 false)
               (Z.of_nat i)
      = Vec4_get value (Z.of_nat i)) /\
  (forall value v0 : Q,
      GetValue_float (SetValue_float c time value false false) time v0 false = value).
Proof.
  intro Hi. split; [|split].
  - intros value v0 Hi3. unfold GetValue_Vec3, SetValue_Vec3. simpl m_subTracks.
    rewrite (GetValue_Vec3_from_component time false _ 0%Z i v0 _ ltac:(lia) ltac:(lia)
               (nth_error_SetValue_components (Vec3_get value) time false false
                  (m_subTracks c) 0%Z i st Hi)).
    apply GetValue_SetValue_same. reflexivity.
  - intros value v0 Hi4. unfold GetValue_Vec4, SetValue_Vec4. simpl m_subTracks.
    rewrite (GetValue_Vec4_from_component time false _ 0%Z i v0 _ ltac:(lia) ltac:(lia)
               (nth_error_SetValue_components (Vec4_get value) time false false
                  (m_subTracks c) 0%Z i st Hi)).
    apply GetValue_SetValue_same. reflexivity.
  - intros value v0. unfold GetValue_float, SetValue_float. simpl m_subTracks.
    destruct (m_subTracks c) as [|s r]; [destruct i; discriminate|].
    simpl. apply GetValue_SetValue_same. reflexivity.
Qed.

(** X16.  A non-default write at one time leaves what every sub-track stores at
    any other time as it was, for the float, Vector3 and Vector4 shapes. *)
Theorem SetValue_leaves_other_times (c : CCompoundSplineTrack) (time time' : Q)
  (applyMultiplier : bool) (i : nat) (st : SubTrack.t) :
  nth_error (m_subTracks c) i = Some st ->
  ~ time == time' ->
  (forall value : Q,
      option_map (fun s => storedValue s time')
        (nth_error (m_subTracks (SetValue_float c time value false applyMultiplier)) i)
      = Some (storedValue st time')) /\
  (forall value : Vec3,
      option_map (fun s => storedValue s time')
        (nth_error (m_subTracks (SetValue_Vec3 c time value false applyMultiplier)) i)
      = Some (storedValue st time')) /\
  (forall value : Vec4,
      option_map (fun s => storedValue s time')
        (nth_error (m_subTracks (SetValue_Vec4 c time value false applyMultiplier)) i)
      = Some (storedValue st time')).
Proof.
  intros Hi Hne. split; [|split]; intro value.
  - unfold SetValue_float. simpl m_subTracks. rewrite nth_error_map, Hi. simpl.
    f_equal. apply storedValue_writeKey_other. exact Hne.
  - unfold SetValue_Vec3. simpl m_subTracks.
    rewrite (nth_error_SetValue_components _ _ _ _ _ 0%Z i st Hi). simpl.
    f_equal. apply storedValue_writeKey_other. exact Hne.
  - unfold SetValue_Vec4. simpl m_subTracks.
    rewrite (nth_error_SetValue_components _ _ _ _ _ 0%Z i st Hi). simpl.
    f_equal. apply storedValue_writeKey_other. exact Hne.
Qed.

Section QuatWrite.
Context {cryMath : CryMath}.

(** X17.  On a 3-dimensional track, [SetValue] of a quaternion as a non-default
    key stores on each axis, at the given time, the Euler angle in degrees
    passed through [PreferShortestRotPath] against the value that axis gave
    at that time before the write; what the axis stores at other times is
    unchanged. *)
Theorem SetValue_Quat_stores_continuous_angle (c : CCompoundSplineTrack)
  (time : Q) (value : Quat) (i : nat) (st : SubTrack.t) :
  m_nDimensions c = 3%Z ->
  nth_error (m_subTracks c) i = Some st ->
  exists st',
    nth_error (m_subTracks (SetValue_Quat c time value false)) i = Some st' /\
    storedValue st' time
    = Some (PreferShortestRotPath
              (RAD2DEG (Vec3_get (GetAnglesXYZ value) (Z.of_nat i)))
              (SubTrack.GetValue st time false)) /\
    forall time', ~ time == time' -> storedValue st' time' = storedValue st time'.
Proof.
  unfold m_nDimensions, SetValue_Quat. intros Hd Hi.
  destruct (m_subTracks c) as [|s0 [|s1 [|s2 [|s3 r]]]]; simpl in Hd; try lia.
  destruct i as [|[|[|i]]]; simpl in Hi; try (destruct i; discriminate);
    injection Hi as <-;
    (eexists; split; [reflexivity|]; split;
     [ apply storedValue_writeKey_same; reflexivity
     | intros time' Hne; apply storedValue_writeKey_other; exact Hne ]).
Qed.

End QuatWrite.
End ValueShapes.

Lemma SetValue_then_GetValue_witness :
  nth_error (m_subTracks Examples.trackXYZ) 1 = Some [mkKey 1 3 false] /\
  GetValue_float (spline := Concrete.stepSpline)
    (SetValue_float (spline := Concrete.stepSpline) Examples.trackXYZ (1 # 2) 9 false false)
    (1 # 2) 0 false = 9.
Proof.
  split; [reflexivity|].
  exact (proj2 (proj2 (SetValue_then_GetValue (spline := Concrete.stepSpline)
                         Examples.trackXYZ (1 # 2) 1 [mkKey 1 3 false] eq_refl)) 9 0).
Defined.

Lemma SetValue_leaves_other_times_witness :
  nth_error (m_subTracks Examples.trackXYZ) 0
  = Some [mkKey 0 1 false; mkKey 1 2 true] /\
  ~ (1 # 2) == 1 /\
  option_map (fun s => storedValue s 1)
    (nth_error (m_subTracks (SetValue_float (spline := Concrete.stepSpline)
                               Examples.trackXYZ (1 # 2) 9 false false)) 0)
  = Some (storedValue [mkKey 0 1 false; mkKey 1 2 true] 1).
Proof.
  assert (Hne : ~ (1 # 2) == 1) by (vm_compute; discriminate).
  split; [reflexivity|]. split; [exact Hne|].
  exact (proj1 (SetValue_leaves_other_times (spline := Concrete.stepSpline)
                  Examples.trackXYZ (1 # 2) 1 false 0
                  [mkKey 0 1 false; mkKey 1 2 true] eq_refl Hne) 9).
Defined.

Lemma SetValue_Quat_stores_continuous_angle_witness :
  m_nDimensions Examples.trackRot = 3%Z /\
  exists st',
    nth_error (m_subTracks (SetValue_Quat (spline := Concrete.stepSpline)
                              (cryMath := Concrete.smallAngles)
                              Examples.trackRot 1 (mkQuat (mkVec3 0 0 0) 1) false)) 2
    = Some st' /\
    storedValue st' 1
    = Some (PreferShortestRotPath
              (RAD2DEG (CryMath := Concrete.smallAngles)
                 (Vec3_get (GetAnglesXYZ (CryMath := Concrete.smallAngles)
                              (mkQuat (mkVec3 0 0 0) 1)) 2))
              (SubTrack.GetValue (spline := Concrete.stepSpline)
                 [mkKey 0 30 false; mkKey 1 350 false] 1 false)) /\
    forall time', ~ 1 == time' ->
      storedValue st' time' = storedValue [mkKey 0 30 false; mkKey 1 350 false] time'.
Proof.
  split; [reflexivity|].
  exact (SetValue_Quat_stores_continuous_angle (spline := Concrete.stepSpline)
           (cryMath := Concrete.smallAngles) Examples.trackRot 1
           (mkQuat (mkVec3 0 0 0) 1) 2 [mkKey 0 30 false; mkKey 1 350 false]
           eq_refl eq_refl).
Defined.

(** Writing the identity rotation over a stored Z angle of 350 degrees
    stores 0: the alternate wrap of a target that is not negative is the one
    a turn below it, -360, which is farther from 350 than 0 is. *)
Example SetValue_Quat_trackRot :
  option_map (fun st => option_map Qred (storedValue st 1))
    (nth_error (m_subTracks (SetValue_Quat (spline := Concrete.stepSpline)
                               (cryMath := Concrete.smallAngles)
                               Examples.trackRot 1 (mkQuat (mkVec3 0 0 0) 1) false)) 2)
  = Some (Some 0).
Proof. vm_compute. reflexivity. Qed.

(** ** OffsetKeyPosition twice *)

Lemma keysOffsetBy_distinctTimes (d : Q) (st st' : SubTrack.t) :
  keysOffsetBy d st st' -> distinctTimes st -> distinctTimes st'.
Proof.
  intros [Hlen Hkeys] Hdistinct i j ki kj Hi Hj Heq.
  assert (Hil : (i < length st)%nat) by (rewrite <- Hlen; apply nth_error_Some; congruence).
  assert (Hjl : (j < length st)%nat) by (rewrite <- Hlen; apply nth_error_Some; congruence).
  destruct (nth_error_in_range st i Hil) as [ki0 Hki0].
  destruct (nth_error_in_range st j Hjl) as [kj0 Hkj0].
  rewrite (Hkeys i ki0 Hki0) in Hi. injection Hi as <-.
  rewrite (Hkeys j kj0 Hkj0) in Hj. injection Hj as <-.
  simpl in Heq. apply (Hdistinct i j ki0 kj0 Hki0 Hkj0 Heq).
Qed.

Section OffsetTwice.
Context {spline : SplineInternals}.

Lemma offsetSubTrack_twice (d e : Q) (st : SubTrack.t) :
  distinctTimes st ->
  length (offsetSubTrack e (offsetSubTrack d st)) = length st /\
  forall (m : nat) (km : IKey),
    nth_error st m = Some km ->
    nth_error (offsetSubTrack e (offsetSubTrack d st)) m
    = Some (mkKey (keyTime km) (keyValue km + d + e) (keySelected km)).
Proof.
  intro Hdistinct.
  pose proof (offsetSubTrack_keys d st Hdistinct) as K1.
  pose proof (offsetSubTrack_keys e (offsetSubTrack d st)
                (keysOffsetBy_distinctTimes d st _ K1 Hdistinct)) as K2.
  destruct K1 as [Hlen1 Hk1]. destruct K2 as [Hlen2 Hk2].
  split; [congruence|].
  intros m km Hm. rewrite (Hk2 m _ (Hk1 m km Hm)). reflexivity.
Qed.

(** X18.  Offsets add up: on a 3-dimensional track whose sub-tracks store at most
    one key per time, [OffsetKeyPosition] by [v] and then by [w] leaves
    every key at its time, with its flag, its value raised by the component
    of [v] and then by the component of [w]; no key is added or lost. *)
Theorem OffsetKeyPosition_twice (c : CCompoundSplineTrack) (v w : Vec3) :
  m_nDimensions c = 3%Z ->
  Forall distinctTimes (m_subTracks c) ->
  forall (n : nat) (st : SubTrack.t),
    nth_error (m_subTracks c) n = Some st ->
    exists st'',
      nth_error (m_subTracks (OffsetKeyPosition (OffsetKeyPosition c v) w)) n
      = Some st'' /\
      length st'' = length st /\
      forall (m : nat) (km : IKey),
        nth_error st m = Some km ->
        nth_error st'' m
        = Some (mkKey (keyTime km)
                  (keyValue km + Vec3_get v (Z.of_nat n) + Vec3_get w (Z.of_nat n))
                  (keySelected km)).
Proof.
  intros Hdim Hdistinct n st Hn.
  unfold m_nDimensions in Hdim.
  destruct (m_subTracks c) as [|s0 [|s1 [|s2 [|s3 r]]]] eqn:Ests;
    simpl in Hdim; try lia.
  inversion Hdistinct as [|? ? H0 Hd1]; subst.
  inversion Hd1 as [|? ? H1 Hd2]; subst.
  inversion Hd2 as [|? ? H2 _]; subst.
  unfold OffsetKeyPosition at 2. rewrite Ests.
  unfold OffsetKeyPosition. simpl m_subTracks.
  destruct n as [|[|[|n]]]; simpl in Hn;
    try (destruct n; discriminate); injection Hn as <-;
    (eexists; split; [reflexivity|]; apply offsetSubTrack_twice; assumption).
Qed.

End OffsetTwice.

Lemma OffsetKeyPosition_twice_witness :
  m_nDimensions Examples.trackXYZ = 3%Z /\
  Forall distinctTimes (m_subTracks Examples.trackXYZ) /\
  exists st'',
    nth_error (m_subTracks
                 (OffsetKeyPosition (spline := Concrete.stepSpline)
                    (OffsetKeyPosition (spline := Concrete.stepSpline)
                       Examples.trackXYZ (mkVec3 5 6 7)) (mkVec3 1 1 1))) 0
    = Some st'' /\
    length st'' = 2%nat /\
    forall (m : nat) (km : IKey),
      nth_error [mkKey 0 1 false; mkKey 1 2 true] m = Some km ->
      nth_error st'' m
      = Some (mkKey (keyTime km) (keyValue km + 5 + 1) (keySelected km)).
Proof.
  assert (Hd : Forall distinctTimes (m_subTracks Examples.trackXYZ)).
  { repeat constructor;
      [ apply distinctTimes_pair; vm_compute; discriminate
      | apply distinctTimes_single | apply distinctTimes_single ]. }
  split; [reflexivity|]. split; [exact Hd|].
  exact (OffsetKeyPosition_twice (spline := Concrete.stepSpline)
           Examples.trackXYZ (mkVec3 5 6 7) (mkVec3 1 1 1) eq_refl Hd
           0%nat [mkKey 0 1 false; mkKey 1 2 true] eq_refl).
Defined.

(** ** What one rebase leaves behind *)

Section RebaseOnce.
Context {spline : SplineInternals} {az : AzTransform}.

Lemma Update_three (c : CCompoundSplineTrack) :
  (3 <= m_nDimensions c)%Z ->
  exists s0 s1 s2 rest, m_subTracks c = s0 :: s1 :: s2 :: rest.
Proof.
  unfold m_nDimensions. intro Hd.
  destruct (m_subTracks c) as [|s0 [|s1 [|s2 rest]]]; simpl in Hd; try lia.
  exists s0, s1, s2, rest. reflexivity.
Qed.

Lemma pick_of_nth (s0 s1 s2 : SubTrack.t) (rest : list SubTrack.t) (i : nat)
  (st : SubTrack.t) :
  (i < 3)%nat -> nth_error (s0 :: s1 :: s2 :: rest) i = Some st ->
  st = pick (Z.of_nat i) (s0, s1, s2).
Proof.
  intros Hi Hn. destruct i as [|[|[|i]]]; simpl in Hn; try lia;
    injection Hn as <-; reflexivity.
Qed.

(** What a sub-track of the first three stores at a time where it held a key,
    after one rebase: the matching component of the image of the vector read
    at that time, whose own component is the value that was stored. *)
Lemma rebase_stored_component (c : CCompoundSplineTrack) (oldTM newTM : Transform)
  (i : nat) (st : SubTrack.t) (t x : Q) :
  (3 <= m_nDimensions c)%Z -> (i < 3)%nat ->
  nth_error (m_subTracks c) i = Some st ->
  storedValue st t = Some x ->
  exists (v : Vec3) (s0' s1' s2' : SubTrack.t) (rest : list SubTrack.t),
    m_subTracks (UpdateKeyDataAfterParentChanged c oldTM newTM)
    = s0' :: s1' :: s2' :: rest /\
    skipn 3 (m_subTracks c) = rest /\
    Vec3_get v (Z.of_nat i) = x /\
    forall j, (0 <= j <= 2)%Z ->
      storedValue (pick j (s0', s1', s2')) t
      = Some (Vec3_get (rebaseVector (m_nParamType c) oldTM (InvertFull newTM) v) j).
Proof.
  intros Hd Hi Hn Hx.
  destruct (Update_three c Hd) as (s0 & s1 & s2 & rest & Ests).
  destruct (Update_subTracks c oldTM newTM s0 s1 s2 rest Ests)
    as (s0' & s1' & s2' & Hfold & Hc).
  rewrite Ests in Hn. pose proof (pick_of_nth s0 s1 s2 rest i st Hi Hn) as Hpick.
  rewrite Hpick in Hx.
  pose proof (stored_in_tripleTimes (s0, s1, s2) t x (Z.of_nat i) Hx) as Hin.
  destruct (stored_fold_inside
              (rebaseVector (m_nParamType c) oldTM (InvertFull newTM))
              (tripleTimes (s0, s1, s2)) (s0, s1, s2) t
              (allKeyTimes_NoDupA s0 s1 s2) Hin) as (v & Hstored & Hread).
  rewrite Hfold in Hstored.
  exists v, s0', s1', s2', rest.
  split; [rewrite Hc; reflexivity|].
  split; [rewrite Ests; reflexivity|].
  split; [apply (Hread (Z.of_nat i) x); [lia | exact Hx]|].
  exact Hstored.
Qed.

(** X19.  After a rebase, each of the first three sub-tracks holds a key at every
    time at which any of them held one; the sub-tracks beyond the third, the
    dimension count and the parameter type are as they were. *)
Theorem rebase_fills_collected_times (c : CCompoundSplineTrack)
  (oldTM newTM : Transform) (i : nat) (st : SubTrack.t) (t x : Q) :
  (3 <= m_nDimensions c)%Z -> (i < 3)%nat ->
  nth_error (m_subTracks c) i = Some st ->
  storedValue st t = Some x ->
  (exists v, storedVector (UpdateKeyDataAfterParentChanged c oldTM newTM) t = Some v) /\
  skipn 3 (m_subTracks (UpdateKeyDataAfterParentChanged c oldTM newTM))
  = skipn 3 (m_subTracks c) /\
  m_nDimensions (UpdateKeyDataAfterParentChanged c oldTM newTM) = m_nDimensions c /\
  m_nParamType (UpdateKeyDataAfterParentChanged c oldTM newTM) = m_nParamType c.
Proof.
  intros Hd Hi Hn Hx.
  destruct (rebase_stored_component c oldTM newTM i st t x Hd Hi Hn Hx)
    as (v & s0' & s1' & s2' & rest & Hsub & Hrest & _ & Hstored).
  split; [|split; [|split]].
  - exists (rebaseVector (m_nParamType c) oldTM (InvertFull newTM) v).
    unfold storedVector. rewrite Hsub.
    apply storedTriple_pick. exact Hstored.
  - rewrite Hsub. simpl. symmetry. exact Hrest.
  - destruct (Update_three c Hd) as (s0 & s1 & s2 & rest0 & Ests).
    unfold m_nDimensions. rewrite Hsub, Ests. rewrite Ests in Hrest.
    simpl in Hrest. subst rest0. reflexivity.
  - destruct (Update_three c Hd) as (s0 & s1 & s2 & rest0 & Ests).
    destruct (Update_subTracks c oldTM newTM s0 s1 s2 rest0 Ests)
      as (a & b & d & _ & ->). reflexivity.
Qed.

(** X20.  For a parameter type other than Position, Rotation and Scale the rebase
    changes no stored value: each of the first three sub-tracks still stores,
    at every time where it held a key, the value it stored. *)
Theorem rebase_other_param_keeps_values (c : CCompoundSplineTrack)
  (oldTM newTM : Transform) (i : nat) (st : SubTrack.t) (t x : Q) :
  m_nParamType c <> Position -> m_nParamType c <> Rotation ->
  m_nParamType c <> Scale ->
  (3 <= m_nDimensions c)%Z -> (i < 3)%nat ->
  nth_error (m_subTracks c) i = Some st ->
  storedValue st t = Some x ->
  exists st',
    nth_error (m_subTracks (UpdateKeyDataAfterParentChanged c oldTM newTM)) i
    = Some st' /\
    storedValue st' t = Some x.
Proof.
  intros Hp Hr Hs Hd Hi Hn Hx.
  destruct (rebase_stored_component c oldTM newTM i st t x Hd Hi Hn Hx)
    as (v & s0' & s1' & s2' & rest & Hsub & _ & Hv & Hstored).
  exists (pick (Z.of_nat i) (s0', s1', s2')). split.
  - rewrite Hsub. destruct i as [|[|[|i]]]; try lia; reflexivity.
  - rewrite (Hstored (Z.of_nat i)) by lia. rewrite <- Hv.
    destruct (m_nParamType c); try contradiction; reflexivity.
Qed.

End RebaseOnce.

Section RebaseSameParent.
Context {spline : SplineInternals}.

(** X21.  Rebasing a Position track from an invertible parent onto that same
    parent gives back, at every time where one of the first three sub-tracks
    held a key, the value it stored. *)
Theorem rebase_position_same_parent (c : CCompoundSplineTrack)
  (A : Concrete.Matrix3x4) (i : nat) (st : SubTrack.t) (t x : Q) :
  m_nParamType c = Position ->
  ~ Concrete.determinant A == 0 ->
  (3 <= m_nDimensions c)%Z -> (i < 3)%nat ->
  nth_error (m_subTracks c) i = Some st ->
  storedValue st t = Some x ->
  exists st' x',
    nth_error (m_subTracks (UpdateKeyDataAfterParentChanged
                              (az := Concrete.matrices) c A A)) i = Some st' /\
    storedValue st' t = Some x' /\ x' == x.
Proof.
  intros Hp HA Hd Hi Hn Hx.
  destruct (rebase_stored_component (az := Concrete.matrices) c A A i st t x Hd Hi Hn Hx)
    as (v & s0' & s1' & s2' & rest & Hsub & _ & Hv & Hstored).
  exists (pick (Z.of_nat i) (s0', s1', s2')).
  exists (Vec3_get (rebaseVector (az := Concrete.matrices) (m_nParamType c) A
                      (InvertFull (AzTransform := Concrete.matrices) A) v) (Z.of_nat i)).
  split; [rewrite Hsub; destruct i as [|[|[|i]]]; try lia; reflexivity|].
  split; [apply Hstored; lia|].
  rewrite <- Hv, Hp. apply Vec3_eq_get. simpl.
  apply mulPoint_inverse_left. exact HA.
Qed.

End RebaseSameParent.

Lemma rebase_fills_collected_times_witness :
  (3 <= m_nDimensions Examples.trackXYZ)%Z /\ (0 < 3)%nat /\
  storedValue [mkKey 0 1 false; mkKey 1 2 true] 0 = Some 1 /\
  storedVector Examples.trackXYZ 0 = None /\
  (exists v,
     storedVector (UpdateKeyDataAfterParentChanged (spline := Concrete.stepSpline)
                     (az := Concrete.matrices) Examples.trackXYZ
                     Examples.quarterTurnZ Examples.halfTurnZ) 0 = Some v) /\
  skipn 3 (m_subTracks
             (UpdateKeyDataAfterParentChanged (spline := Concrete.stepSpline)
                (az := Concrete.matrices) Examples.trackXYZ
                Examples.quarterTurnZ Examples.halfTurnZ))
  = skipn 3 (m_subTracks Examples.trackXYZ) /\
  m_nDimensions (UpdateKeyDataAfterParentChanged (spline := Concrete.stepSpline)
                   (az := Concrete.matrices) Examples.trackXYZ
                   Examples.quarterTurnZ Examples.halfTurnZ)
  = m_nDimensions Examples.trackXYZ /\
  m_nParamType (UpdateKeyDataAfterParentChanged (spline := Concrete.stepSpline)
                  (az := Concrete.matrices) Examples.trackXYZ
                  Examples.quarterTurnZ Examples.halfTurnZ)
  = m_nParamType Examples.trackXYZ.
Proof.
  split; [vm_compute; discriminate|]. split; [lia|].
  split; [reflexivity|]. split; [reflexivity|].
  exact (rebase_fills_collected_times (spline := Concrete.stepSpline)
           (az := Concrete.matrices) Examples.trackXYZ
           Examples.quarterTurnZ Examples.halfTurnZ 0%nat
           [mkKey 0 1 false; mkKey 1 2 true] 0 1
           ltac:(vm_compute; discriminate) ltac:(lia) eq_refl eq_refl).
Defined.

Lemma rebase_other_param_keeps_values_witness :
  (3 <= m_nDimensions trackOther)%Z /\ (1 < 3)%nat /\
  storedValue [mkKey 1 3 false] 1 = Some 3 /\
  exists st',
    nth_error (m_subTracks
                 (UpdateKeyDataAfterParentChanged (spline := Concrete.stepSpline)
                    (az := Concrete.matrices) trackOther
                    Examples.quarterTurnZ Examples.halfTurnZ)) 1 = Some st' /\
    storedValue st' 1 = Some 3.
Proof.
  split; [vm_compute; discriminate|]. split; [lia|]. split; [reflexivity|].
  exact (rebase_other_param_keeps_values (spline := Concrete.stepSpline)
           (az := Concrete.matrices) trackOther
           Examples.quarterTurnZ Examples.halfTurnZ 1%nat [mkKey 1 3 false] 1 3
           ltac:(discriminate) ltac:(discriminate) ltac:(discriminate)
           ltac:(vm_compute; discriminate) ltac:(lia) eq_refl eq_refl).
Defined.

Lemma rebase_position_same_parent_witness :
  m_nParamType Examples.trackXYZ = Position /\
  Concrete.determinant Examples.quarterTurnZ == 1 /\
  exists st' x',
    nth_error (m_subTracks
                 (UpdateKeyDataAfterParentChanged (spline := Concrete.stepSpline)
                    (az := Concrete.matrices) Examples.trackXYZ
                    Examples.quarterTurnZ Examples.quarterTurnZ)) 2 = Some st' /\
    storedValue st' 1 = Some x' /\ x' == 4.
Proof.
  split; [reflexivity|]. split; [vm_compute; reflexivity|].
  exact (rebase_position_same_parent (spline := Concrete.stepSpline)
           Examples.trackXYZ Examples.quarterTurnZ 2%nat [mkKey 1 4 false] 1 4
           eq_refl ltac:(vm_compute; discriminate)
           ltac:(vm_compute; discriminate) ltac:(lia) eq_refl eq_refl).
Defined.

(** ** The last key has no next key *)

Lemma firstLater_none (st : SubTrack.t) (time : Q) (ks : list Z) :
  (forall k, In k ks -> SubTrack.GetKeyTime st k <= time) ->
  firstLater st time ks = None.
Proof.
  induction ks as [|k r IH]; intro Hall; cbn [firstLater]; [reflexivity|].
  destruct (Qltb time (SubTrack.GetKeyTime st k)) eqn:E.
  - apply Qltb_lt in E. pose proof (Hall k (or_introl eq_refl)). lra.
  - apply IH. intros k' Hk'. apply Hall. right. exact Hk'.
Qed.

Lemma NextKeyByTime_from_none (time : Q) (sts : list SubTrack.t) :
  Forall (fun km => keyTime km <= time) (concat sts) ->
  forall (count result : Z) (timeNext : Q),
    NextKeyByTime_from sts time count result timeNext = result.
Proof.
  induction sts as [|st r IH]; intros Hall count result timeNext; [reflexivity|].
  cbn [NextKeyByTime_from]. simpl in Hall. apply Forall_app in Hall.
  destruct Hall as [Hst Hr].
  rewrite firstLater_none; [apply IH; exact Hr|].
  intros k Hk. destruct (In_keyIndices st k Hk) as (m & -> & Hm).
  destruct (nth_error_in_range st m Hm) as [km Hkm].
  rewrite (GetKeyTime_nth _ _ _ Hkm).
  rewrite Forall_forall in Hst. apply Hst. eapply nth_error_In. exact Hkm.
Qed.

(** X10.  Asked from a key that no key of the track is later than, [NextKeyByTime]
    answers -1; so it does on a track without keys. *)
Theorem NextKeyByTime_none_after_latest (c : CCompoundSplineTrack) (key : Z) :
  Forall (fun km => keyTime km <= GetKeyTime c key) (flatKeys c) ->
  NextKeyByTime c key = (-1)%Z.
Proof.
  intro Hall. unfold NextKeyByTime. cbv zeta.
  apply NextKeyByTime_from_none. exact Hall.
Qed.

Lemma NextKeyByTime_none_after_latest_witness :
  Forall (fun km => keyTime km <= GetKeyTime Examples.trackXYZ 1)
    (flatKeys Examples.trackXYZ) /\
  NextKeyByTime Examples.trackXYZ 0 = 1%Z /\
  NextKeyByTime Examples.trackXYZ 1 = (-1)%Z.
Proof.
  assert (H : Forall (fun km => keyTime km <= GetKeyTime Examples.trackXYZ 1)
                (flatKeys Examples.trackXYZ)).
  { repeat constructor; vm_compute; discriminate. }
  split; [exact H|]. split; [reflexivity|].
  exact (NextKeyByTime_none_after_latest Examples.trackXYZ 1 H).
Defined.

(** ** Sub-track names *)

Lemma nth_setNth_same {A : Type} (l : list A) (n : nat) (x d : A) :
  (n < length l)%nat -> nth n (setNth l n x) d = x.
Proof.
  revert n. induction l as [|y r IH]; intros [|n] Hn; simpl in *; try lia.
  - reflexivity.
  - apply IH. lia.
Qed.

Lemma nth_setNth_other {A : Type} (l : list A) (n m : nat) (x d : A) :
  n <> m -> nth m (setNth l n x) d = nth m l d.
Proof.
  revert n m. induction l as [|y r IH]; intros [|n] [|m] Hnm; simpl;
    try reflexivity; try congruence.
  apply IH. congruence.
Qed.

Lemma length_setNth {A : Type} (l : list A) (n : nat) (x : A) :
  length (setNth l n x) = length l.
Proof.
  revert n. induction l as [|y r IH]; intros [|n]; simpl; try reflexivity.
  rewrite IH. reflexivity.
Qed.

(** X22.  A name written with [SetSubTrackName] at an index of the name table is
    the name [GetSubTrackName] reads there; the names at the other indices,
    the size of the table, the sub-tracks and so the keys are as they
    were. *)
Theorem SetSubTrackName_then_GetSubTrackName (c : CCompoundSplineTrack)
  (nIndex : Z) (name : string) :
  (0 <= nIndex < Z.of_nat (length (m_subTrackNames c)))%Z ->
  GetSubTrackName (SetSubTrackName c nIndex name) nIndex = name /\
  (forall j, j <> nIndex ->
     GetSubTrackName (SetSubTrackName c nIndex name) j = GetSubTrackName c j) /\
  length (m_subTrackNames (SetSubTrackName c nIndex name))
  = length (m_subTrackNames c) /\
  m_subTracks (SetSubTrackName c nIndex name) = m_subTracks c.
Proof.
  intros [Hlo Hhi]. unfold GetSubTrackName, SetSubTrackName.
  destruct (nIndex <? 0)%Z eqn:E; [apply Z.ltb_lt in E; lia|].
  cbn [m_subTrackNames m_subTracks].
  split; [apply nth_setNth_same; lia|].
  split; [|split; [apply length_setNth | reflexivity]].
  intros j Hj. destruct (j <? 0)%Z eqn:Ej; [reflexivity|].
  apply Z.ltb_ge in Ej. apply nth_setNth_other. lia.
Qed.

Lemma SetSubTrackName_then_GetSubTrackName_witness :
  (0 <= 1 < Z.of_nat (length (m_subTrackNames Examples.trackXYZ)))%Z /\
  GetSubTrackName Examples.trackXYZ 1 = "Y"%string /\
  GetSubTrackName (SetSubTrackName Examples.trackXYZ 1 "Pitch"%string) 1
  = "Pitch"%string /\
  GetSubTrackName (SetSubTrackName Examples.trackXYZ 1 "Pitch"%string) 2
  = "Z"%string.
Proof.
  split; [vm_compute; split; [discriminate | reflexivity]|].
  split; [reflexivity|].
  destruct (SetSubTrackName_then_GetSubTrackName Examples.trackXYZ 1 "Pitch"%string
              ltac:(vm_compute; split; [discriminate | reflexivity]))
    as (Hsame & Hother & _).
  split; [exact Hsame|].
  rewrite (Hother 2%Z ltac:(discriminate)). reflexivity.
Defined.

Lemma GetValue_leaves_inactive_components_witness :
  (m_nDimensions Examples.trackAB <= 2 < 3)%Z /\
  Vec3_get (GetValue_Vec3 (spline := Concrete.stepSpline) Examples.trackAB 0
              (mkVec3 7 8 9) false) 2 = 9 /\
  Vec4_get (GetValue_Vec4 (spline := Concrete.stepSpline) Examples.trackAB 0
              (mkVec4 6 7 8 9) false) 3 = 9.
Proof.
  destruct (GetValue_leaves_inactive_components (spline := Concrete.stepSpline)
              Examples.trackAB 0 false) as (H3 & H4 & _).
  split; [vm_compute; split; [discriminate | reflexivity]|].
  split.
  - exact (H3 (mkVec3 7 8 9) 2%Z ltac:(vm_compute; split; [discriminate | reflexivity])).
  - exact (H4 (mkVec4 6 7 8 9) 3%Z ltac:(vm_compute; split; [discriminate | reflexivity])).
Defined.
